(** * sunless_wiki.py: the cross-reference derivation engine and the fuzzy lookup

    A shallow embedding of [ForEachBranch], [AddShopInfo], [InitGlobals],
    [FuzzyLookupItem], [LocationOfShop], [ShopSortKey] and [SnakeCase] of
    [sunless_wiki.py].

    Conventions of the embedding.
    - A JSON record (a Python dict read with fixed string keys) is a Rocq
      record with the fields the code reads.  A JSON value that the code
      tests for truthiness before use ([if not outcome], [if not limit],
      [if not link], [if not setting]) is an [option]: [None] stands for
      JSON [null].  A reference such as [LimitedToArea], [LinkToEvent],
      [SwitchToSetting] is a JSON object of which only [Id] is read, so it
      is an [option Z].
    - The tables [AREAS] and [EVENTS] hold mutable objects.  They are
      modelled as stores ([list]s) and an object reference is the position
      of the object in its table; [AREAS_MAP] and [EVENTS_MAP] map an id to
      a reference, [SHOP_AREAS] maps an exchange id to a list of references.
    - A Python exception is a value of type [exn]; a computation that can
      raise returns a [res].  The [while] loop of the traversal takes fuel;
      the theorems show that the fuel [InitGlobals] passes is enough. *)

From Stdlib Require Import ZArith Ascii String.
From stdpp Require Import gmap strings list fin_maps.

(** ** Data model *)

(** An outcome is a leaf of an event's branch structure, a branch has one
    optional outcome per key of [EVENT_TYPES]. *)
Inductive Outcome : Type :=
  mkOutcome (ChildBranches : list Branch)
            (LinkToEvent : option Z)
            (SwitchToSetting : option Z)
with Branch : Type :=
  mkBranch (SuccessEvent DefaultEvent RareSuccessEvent RareDefaultEvent :
              option Outcome).

Definition outcome_ChildBranches (o : Outcome) : list Branch :=
  match o with mkOutcome cb _ _ => cb end.
Definition LinkToEvent (o : Outcome) : option Z :=
  match o with mkOutcome _ l _ => l end.
Definition SwitchToSetting (o : Outcome) : option Z :=
  match o with mkOutcome _ _ s => s end.

Definition SuccessEvent (b : Branch) : option Outcome :=
  match b with mkBranch o _ _ _ => o end.
Definition DefaultEvent (b : Branch) : option Outcome :=
  match b with mkBranch _ o _ _ => o end.
Definition RareSuccessEvent (b : Branch) : option Outcome :=
  match b with mkBranch _ _ o _ => o end.
Definition RareDefaultEvent (b : Branch) : option Outcome :=
  match b with mkBranch _ _ _ o => o end.

Record Area : Type := mkArea {
  area_Id : Z;
  area_Name : option string;
  (* three-valued: [None] is the [None] that [InitGlobals] writes *)
  area_Subsurface : option bool
}.

Record Event : Type := mkEvent {
  event_Id : Z;
  event_Name : option string;
  LimitedToArea : option Z;
  event_ChildBranches : list Branch;
  (* the synthetic key [Area]: ids of the areas the event can be found in *)
  event_Area : list Z
}.

Record Quality : Type := mkQuality {
  quality_Id : Z;
  quality_Name : string
}.

Record Shop : Type := mkShop {
  shop_Id : Z;
  shop_Name : option string
}.

Record ExchangeGroup : Type := mkExchangeGroup {
  group_Id : Z;
  group_Name : option string;
  SettingIds : list Z;
  Shops : list Shop
}.

Record Port : Type := mkPort {
  port_Area : Z;        (* port[AREA][ID] *)
  port_Subsurface : bool;
  port_Setting : Z      (* port[SETTING][ID] *)
}.

Record TileEntry : Type := mkTileEntry { PortData : list Port }.
Record Tile : Type := mkTile { Tiles : list TileEntry }.

#[global] Instance Area_eq_dec : EqDecision Area.
Proof. solve_decision. Defined.

(** ** Exceptions *)

(** The argument tuple of each [RuntimeError] message of the program. *)
Inductive message : Type :=
  (* "Nested branch in id %d: %s" % (event[ID], json.dumps(payload)) *)
  | NestedBranch (id : Z) (payload : list Branch)
  (* 'Id %d not found!' % idd *)
  | IdNotFound (idd : Z)
  (* 'No name containing "%s" found!' % name_or_id *)
  | NoNameContaining (name_or_id : string)
  (* 'Multiple matches for "%s": %s' % (name_or_id, [names]) *)
  | MultipleMatches (name_or_id : string) (names : list (option string)).

Inductive exn : Type :=
  | RuntimeError (msg : message)
  (* a failed dict lookup [d[key]] *)
  | KeyError (key : Z).

(** The result of a computation.  [NoResult] is no behaviour of the program:
    it is what the model answers when the fuel of a loop is used up or when
    a reference points outside its store; [InitGlobals_returns] shows that
    [InitGlobals] never answers it. *)
Inductive res (A : Type) : Type :=
  | Ok (a : A)
  | Raise (e : exn)
  | NoResult.
Arguments Ok {A} a.
Arguments Raise {A} e.
Arguments NoResult {A}.

Definition bind {A B} (m : res A) (k : A → res B) : res B :=
  match m with
  | Ok a => k a
  | Raise e => Raise e
  | NoResult => NoResult
  end.

Notation "'let!' x ':=' m 'in' k" := (bind m (fun x => k))
  (at level 10, x pattern, m at level 100, k at level 200).

(** [d[key]] on a dict with integer keys. *)
Definition getitem {V} (d : gmap Z V) (key : Z) : res V :=
  match d !! key with
  | Some v => Ok v
  | None => Raise (KeyError key)
  end.

(** Reading the object behind a reference. *)
Definition deref {A} (store : list A) (r : nat) : res A :=
  match store !! r with
  | Some a => Ok a
  | None => NoResult
  end.

(** [for y in ys: s = body(y, s)], stopping at the first exception. *)
Fixpoint for_each {A S} (body : A → S → res S) (ys : list A) (s : S) : res S :=
  match ys with
  | [] => Ok s
  | y :: ys' => let! s' := body y s in for_each body ys' s'
  end.

(** ** Constants *)

Definition EVENT_TYPES : list (Branch → option Outcome) :=
  [SuccessEvent; DefaultEvent; RareSuccessEvent; RareDefaultEvent].

Definition LIMBO : Z := 101956%Z.

(** ** ForEachBranch *)

(** A run of a generator to its end: the values it yields, in order, and the
    exception that ends it, if one does. *)
Definition gen (A : Type) : Type := (list A * option exn)%type.

Definition gen_done {A} : gen A := ([], None).
Definition gen_raise {A} (e : exn) : gen A := ([], Some e).
Definition gen_yield {A} (a : A) (rest : gen A) : gen A :=
  (a :: rest.1, rest.2).
(** Run [g1]; run [g2] after it unless [g1] raised. *)
Definition gen_then {A} (g1 g2 : gen A) : gen A :=
  match g1.2 with
  | Some e => g1
  | None => (g1.1 ++ g2.1, g2.2)
  end.

(** The inner loop [for x in EVENT_TYPES] on one branch. *)
Fixpoint walk_slots (id : Z) (branch : Branch)
    (types : list (Branch → option Outcome)) : gen Outcome :=
  match types with
  | [] => gen_done
  | x :: types' =>
      match x branch with
      | None => walk_slots id branch types'
      | Some outcome =>
          match outcome_ChildBranches outcome with
          | [] => gen_yield outcome (walk_slots id branch types')
          | _ :: _ =>
              gen_raise (RuntimeError
                (NestedBranch id (outcome_ChildBranches outcome)))
          end
      end
  end.

Fixpoint walk_branches (id : Z) (branches : list Branch) : gen Outcome :=
  match branches with
  | [] => gen_done
  | branch :: rest =>
      gen_then (walk_slots id branch EVENT_TYPES) (walk_branches id rest)
  end.

Definition ForEachBranch (event : Event) : gen Outcome :=
  walk_branches (event_Id event) (event_ChildBranches event).

(** [for y in g: s = body(y, s)] over a generator: the body runs on every
    value the generator yields, then the generator's exception, if any,
    propagates. *)
Definition for_gen {A S} (body : A → S → res S) (g : gen A) (s : S) : res S :=
  let! s' := for_each body g.1 s in
  match g.2 with
  | None => Ok s'
  | Some e => Raise e
  end.

(** ** InitGlobals: the id maps *)

(** [for item in table: MAP[item[ID]] = item], the item at position [i] being
    the reference [i]: a later item with the same id wins. *)
Fixpoint index_from {A} (ID : A → Z) (i : nat) (table : list A)
    (m : gmap Z nat) : gmap Z nat :=
  match table with
  | [] => m
  | item :: rest => index_from ID (S i) rest (<[ID item := i]> m)
  end.

Definition set_Subsurface (v : option bool) (a : Area) : Area :=
  {| area_Id := area_Id a; area_Name := area_Name a; area_Subsurface := v |}.

Definition set_Name (v : string) (a : Area) : Area :=
  {| area_Id := area_Id a; area_Name := Some v;
     area_Subsurface := area_Subsurface a |}.

Definition set_Area (v : list Z) (e : Event) : Event :=
  {| event_Id := event_Id e; event_Name := event_Name e;
     LimitedToArea := LimitedToArea e;
     event_ChildBranches := event_ChildBranches e; event_Area := v |}.

(** [AREAS_MAP[id][NAME] = name] *)
Definition rename (AREAS_MAP : gmap Z nat) (id : Z) (name : string)
    (areas : list Area) : res (list Area) :=
  let! r := getitem AREAS_MAP id in
  let! _ := deref areas r in
  Ok (alter (set_Name name) r areas).

Definition init_areas (AREAS : list Area) : res (list Area * gmap Z nat) :=
  let areas := set_Subsurface None <$> AREAS in
  let AREAS_MAP := index_from area_Id 0 areas ∅ in
  let! areas := rename AREAS_MAP 100374 "Venderbight" areas in
  let! areas := rename AREAS_MAP 101981 "The Chelonate" areas in
  let! areas := rename AREAS_MAP 102000 "Polythreme" areas in
  let! areas := rename AREAS_MAP 102960 "The Uttershroom" areas in
  Ok (areas, AREAS_MAP).

Definition BAD_QUALITIES : gmap Z string :=
  <[102024%Z := "Hunger"%string]> (<[102025%Z := "Terror"%string]> ∅).

Definition init_qualities (QUALITIES : list Quality) :
    gmap Z Quality * gmap Z string :=
  fold_left (fun '(qmap, bad) item =>
      (<[quality_Id item := item]> qmap,
       if String.prefix "Menaces:" (quality_Name item)
       then <[quality_Id item := quality_Name item]> bad else bad))
    QUALITIES (∅, BAD_QUALITIES).

(** ** InitGlobals: the area-reachability traversal *)

(** The body of [for outcome in ForEachBranch(event)] in the traversal.  The
    stack is a list whose head is the top: [stack.append] conses and
    [stack.pop()] takes the head. *)
Definition push_link (EVENTS_MAP : gmap Z nat) (outcome : Outcome)
    (stack : list nat) : res (list nat) :=
  match LinkToEvent outcome with
  | None => Ok stack
  | Some link =>
      let! target := getitem EVENTS_MAP link in
      Ok (target :: stack)
  end.

(** [while stack: ...] for one origin area. *)
Fixpoint dfs (fuel : nat) (EVENTS_MAP : gmap Z nat) (limit_id : Z)
    (events : list Event) (stack : list nat) : res (list Event) :=
  match stack with
  | [] => Ok events
  | r :: stack =>
      match fuel with
      | O => NoResult
      | S fuel =>
          let! event := deref events r in
          if bool_decide (limit_id ∈ event_Area event)
          then dfs fuel EVENTS_MAP limit_id events stack
          else
            let event := set_Area (event_Area event ++ [limit_id]) event in
            let events := <[r := event]> events in
            let! stack :=
              for_gen (push_link EVENTS_MAP) (ForEachBranch event) stack in
            dfs fuel EVENTS_MAP limit_id events stack
      end
  end.

(** The number of values [ForEachBranch] yields for an event, plus one. *)
Definition weight (e : Event) : nat := S (length (ForEachBranch e).1).

(** Fuel that is enough for one traversal of the table. *)
Definition dfs_fuel (events : list Event) : nat :=
  S (S (sum_list_with weight events)).

(** The body of [for x in EVENTS], [x] being the reference of the event. *)
Definition seed (EVENTS_MAP : gmap Z nat) (x : nat) (events : list Event) :
    res (list Event) :=
  let stack := [x] in
  let! ex := deref events x in
  match LimitedToArea ex with
  | None => Ok events
  | Some limit_id => dfs (dfs_fuel events) EVENTS_MAP limit_id events stack
  end.

Definition init_events (EVENTS : list Event) : res (list Event * gmap Z nat) :=
  let EVENTS_MAP := index_from event_Id 0 EVENTS ∅ in
  let events := set_Area [] <$> EVENTS in
  let! events :=
    for_each (seed EVENTS_MAP) (seq 0 (length events)) events in
  Ok (events, EVENTS_MAP).

(** ** AddShopInfo and the shop-availability aggregation *)

(** [area in value] on a list of area objects: Python compares each element
    with [is] and then with [==], which on dicts is structural. *)
Definition area_in (areas : list Area) (area : nat) (value : list nat) : bool :=
  existsb (fun r => bool_decide (r = area)
                    || bool_decide (areas !! r = areas !! area)) value.

Definition AddShopInfo (areas : list Area) (group : ExchangeGroup)
    (area : nat) (SHOP_AREAS : gmap Z (list nat)) : res (gmap Z (list nat)) :=
  let! a := deref areas area in
  if bool_decide (area_Id a = LIMBO) then Ok SHOP_AREAS
  else
    let! value := getitem SHOP_AREAS (group_Id group) in
    if area_in areas area value then Ok SHOP_AREAS
    else Ok (<[group_Id group := value ++ [area]]> SHOP_AREAS).

(** [for group in EXCHANGES]: the empty lists of [SHOP_AREAS] and the join
    map from a setting id to its group. *)
Definition init_groups (EXCHANGES : list ExchangeGroup) :
    gmap Z (list nat) * gmap Z ExchangeGroup :=
  fold_left (fun '(SHOP_AREAS, settings_map) group =>
      (<[group_Id group := []]> SHOP_AREAS,
       fold_left (fun sm setting => <[setting := group]> sm)
                 (SettingIds group) settings_map))
    EXCHANGES (∅, ∅).

(** The body of [for port in entry[0][PORT_DATA]]. *)
Definition static_port (AREAS_MAP : gmap Z nat)
    (settings_map : gmap Z ExchangeGroup) (port : Port)
    (st : list Area * gmap Z (list nat)) :
    res (list Area * gmap Z (list nat)) :=
  let '(areas, SHOP_AREAS) := st in
  let! area := getitem AREAS_MAP (port_Area port) in
  let! a := deref areas area in
  let areas := <[area := set_Subsurface (Some (port_Subsurface port)) a]> areas in
  let setting_id := port_Setting port in
  match settings_map !! setting_id with
  | None => Ok (areas, SHOP_AREAS)
  | Some group =>
      let! SHOP_AREAS := AddShopInfo areas group area SHOP_AREAS in
      Ok (areas, SHOP_AREAS)
  end.

(** The body of [for tile in TILES_DATA]. *)
Definition static_tile (AREAS_MAP : gmap Z nat)
    (settings_map : gmap Z ExchangeGroup) (tile : Tile)
    (st : list Area * gmap Z (list nat)) :
    res (list Area * gmap Z (list nat)) :=
  match Tiles tile with
  | [] => Ok st
  | entry0 :: _ =>
      for_each (static_port AREAS_MAP settings_map) (PortData entry0) st
  end.

(** The body of [for area_id in event[AREA]]. *)
Definition dynamic_area (AREAS_MAP : gmap Z nat) (areas : list Area)
    (group : ExchangeGroup) (area_id : Z) (SHOP_AREAS : gmap Z (list nat)) :
    res (gmap Z (list nat)) :=
  let! area := getitem AREAS_MAP area_id in
  AddShopInfo areas group area SHOP_AREAS.

(** The body of [for outcome in ForEachBranch(event)] in the second pass. *)
Definition dynamic_outcome (AREAS_MAP : gmap Z nat)
    (settings_map : gmap Z ExchangeGroup) (areas : list Area) (event : Event)
    (outcome : Outcome) (SHOP_AREAS : gmap Z (list nat)) :
    res (gmap Z (list nat)) :=
  match SwitchToSetting outcome with
  | None => Ok SHOP_AREAS
  | Some setting =>
      let! group := getitem settings_map setting in
      for_each (dynamic_area AREAS_MAP areas group) (event_Area event)
               SHOP_AREAS
  end.

Definition dynamic_event (AREAS_MAP : gmap Z nat)
    (settings_map : gmap Z ExchangeGroup) (areas : list Area) (event : Event)
    (SHOP_AREAS : gmap Z (list nat)) : res (gmap Z (list nat)) :=
  for_gen (dynamic_outcome AREAS_MAP settings_map areas event)
          (ForEachBranch event) SHOP_AREAS.

(** The second half of [InitGlobals], from [settings_map = {}] on. *)
Definition init_shops (AREAS_MAP : gmap Z nat) (areas : list Area)
    (events : list Event) (EXCHANGES : list ExchangeGroup)
    (TILES_DATA : list Tile) : res (list Area * gmap Z (list nat)) :=
  let '(SHOP_AREAS, settings_map) := init_groups EXCHANGES in
  let! (areas, SHOP_AREAS) :=
    for_each (static_tile AREAS_MAP settings_map) TILES_DATA
             (areas, SHOP_AREAS) in
  let! SHOP_AREAS :=
    for_each (dynamic_event AREAS_MAP settings_map areas) events SHOP_AREAS in
  Ok (areas, SHOP_AREAS).

(** ** InitGlobals *)

(** The module's globals once [InitGlobals] has returned.  [g_AREAS] and
    [g_EVENTS] are the stores behind the references. *)
Record globals : Type := mkGlobals {
  g_AREAS : list Area;
  g_EVENTS : list Event;
  AREAS_MAP : gmap Z nat;
  QUALITIES_MAP : gmap Z Quality;
  EVENTS_MAP : gmap Z nat;
  g_BAD_QUALITIES : gmap Z string;
  SHOP_AREAS : gmap Z (list nat)
}.

Definition InitGlobals (AREAS : list Area) (QUALITIES : list Quality)
    (EVENTS : list Event) (EXCHANGES : list ExchangeGroup)
    (TILES_DATA : list Tile) : res globals :=
  let! (areas, amap) := init_areas AREAS in
  let '(qmap, bad) := init_qualities QUALITIES in
  let! (events, emap) := init_events EVENTS in
  let! (areas, shop_areas) :=
    init_shops amap areas events EXCHANGES TILES_DATA in
  Ok {| g_AREAS := areas; g_EVENTS := events; AREAS_MAP := amap;
        QUALITIES_MAP := qmap; EVENTS_MAP := emap; g_BAD_QUALITIES := bad;
        SHOP_AREAS := shop_areas |}.

(** ** FuzzyLookupItem *)

(** What [FuzzyLookupItem] reads of an item: [x[ID]] and [x[NAME]]. *)
Class Entity (A : Type) : Type := {
  ID : A → Z;
  NAME : A → option string
}.

#[global] Instance Area_Entity : Entity Area :=
  {| ID := area_Id; NAME := area_Name |}.
#[global] Instance Event_Entity : Entity Event :=
  {| ID := event_Id; NAME := event_Name |}.
#[global] Instance Quality_Entity : Entity Quality :=
  {| ID := quality_Id; NAME := fun q => Some (quality_Name q) |}.
#[global] Instance Shop_Entity : Entity Shop :=
  {| ID := shop_Id; NAME := shop_Name |}.

(** *** The string built-ins

    A Python [str] is a sequence of code points and a [string] a sequence
    of bytes: a [str] is read as the [string] of its UTF-8 encoding (a lone
    surrogate encoded like any other code point), on which equality,
    [startswith], [needle in hay] and the order of [sorted] are those of the
    code points.

    [FuzzyLookupItem] calls three built-ins of the interpreter on strings:
    [int(s)], [s.islower()] and [s.lower()].  What they answer is a matter
    of the interpreter, of its Unicode tables and of the limit it may put on
    the number of digits of an integer literal.  The program does not depend
    on it: it is modelled, and verified, for every interpretation of the
    three.  [int] answers [None] where the built-in raises [ValueError], the
    only exception it has for a string. *)
Class Builtins : Type := {
  int : string → option Z;
  islower : string → bool;
  lower : string → string
}.

(** *** The built-ins on strings of ASCII characters

    The values that CPython 3 gives to the three built-ins on strings of
    ASCII characters (code points below 128): the interpretation that the
    examples use, and the lookup of an area by a corrected name.  The limit
    that recent interpreters put on the number of digits that [int] accepts
    is not modelled.  On a string with a byte above 127 these definitions
    are not the built-ins of any interpreter, and nothing is stated of
    them there. *)

Definition code (c : ascii) : nat := nat_of_ascii c.

(** The characters that [int] skips before and after a literal: tab, line
    feed, vertical tab, form feed, carriage return and space.  The
    separators 28 to 31, which [str.strip] removes, are not among them. *)
Definition int_skips (c : ascii) : bool :=
  let n := code c in
  ((9 <=? n) && (n <=? 13) || (n =? 32))%nat.
Definition isdigit (c : ascii) : bool :=
  let n := code c in ((48 <=? n) && (n <=? 57))%nat.
Definition isupper (c : ascii) : bool :=
  let n := code c in ((65 <=? n) && (n <=? 90))%nat.
Definition islower_char (c : ascii) : bool :=
  let n := code c in ((97 <=? n) && (n <=? 122))%nat.

Fixpoint skip_leading (s : list ascii) : list ascii :=
  match s with
  | c :: s' => if int_skips c then skip_leading s' else s
  | [] => []
  end.
Definition skip_around (s : list ascii) : list ascii :=
  rev (skip_leading (rev (skip_leading s))).

(** The digits of a decimal literal: single underscores are allowed between
    two digits. [after_digit] tells whether the previous character was a
    digit. *)
Fixpoint digits (acc : Z) (after_digit : bool) (s : list ascii) : option Z :=
  match s with
  | [] => if after_digit then Some acc else None
  | c :: s' =>
      if isdigit c
      then digits (10 * acc + (Z.of_nat (code c) - 48)) true s'
      else if Ascii.eqb c "_" && after_digit then digits acc false s'
      else None
  end.

(** [int(s)] on an ASCII string. *)
Definition ascii_int (s : string) : option Z :=
  match skip_around (list_ascii_of_string s) with
  | "+"%char :: ds => digits 0 false ds
  | "-"%char :: ds => Z.opp <$> digits 0 false ds
  | ds => digits 0 false ds
  end.

(** [s.islower()] on an ASCII string: a cased character, and no upper case
    one. *)
Definition ascii_islower (s : string) : bool :=
  let cs := list_ascii_of_string s in
  existsb islower_char cs && negb (existsb isupper cs).

Definition lower_char (c : ascii) : ascii :=
  if isupper c then ascii_of_nat (code c + 32) else c.
(** [s.lower()] on an ASCII string. *)
Fixpoint ascii_lower (s : string) : string :=
  match s with
  | EmptyString => EmptyString
  | String c s' => String (lower_char c) (ascii_lower s')
  end.

#[global] Instance ascii_builtins : Builtins :=
  {| int := ascii_int; islower := ascii_islower; lower := ascii_lower |}.

(** [needle in hay] on strings. *)
Fixpoint contains (needle hay : string) : bool :=
  String.prefix needle hay ||
  match hay with
  | EmptyString => false
  | String _ hay' => contains needle hay'
  end.

Section FuzzyLookup.
Context {A : Type} `{Entity A} `{Builtins}.

(** The loop of the [try] block. *)
Fixpoint find_id (idd : Z) (lst : list A) : res A :=
  match lst with
  | [] => Raise (RuntimeError (IdNotFound idd))
  | x :: lst' => if bool_decide (ID x = idd) then Ok x else find_id idd lst'
  end.

(** The loop of the [except ValueError] block and what follows it. *)
Fixpoint match_names (name_or_id : string) (insensitive : bool)
    (lst : list A) (matches : list A) : res A :=
  match lst with
  | [] =>
      match matches with
      | [m] => Ok m
      | [] => Raise (RuntimeError (NoNameContaining name_or_id))
      | _ => Raise (RuntimeError
               (MultipleMatches name_or_id (NAME <$> matches)))
      end
  | x :: lst' =>
      let name := default ""%string (NAME x) in
      if bool_decide (name_or_id = name) then Ok x
      else
        let name := if insensitive then lower name else name in
        if contains name_or_id name
        then match_names name_or_id insensitive lst' (matches ++ [x])
        else match_names name_or_id insensitive lst' matches
  end.

Definition FuzzyLookupItem (name_or_id : string) (lst : list A) : res A :=
  match int name_or_id with
  | Some idd => find_id idd lst
  | None => match_names name_or_id (islower name_or_id) lst []
  end.
End FuzzyLookup.

(** ** Vocabulary of the statements *)

(** The outcomes of an event: the non-absent slots of its branches, in
    branch-then-slot order. *)
Definition slots (b : Branch) : list Outcome := omap (fun x => x b) EVENT_TYPES.
Definition outcomes_of (e : Event) : list Outcome :=
  event_ChildBranches e ≫= slots.

(** An outcome that carries branches of its own. *)
Definition nested (o : Outcome) : Prop := outcome_ChildBranches o ≠ [].

#[global] Instance nested_dec o : Decision (nested o).
Proof. unfold nested. destruct (outcome_ChildBranches o); [right|left]; congruence. Defined.

(** Walking a list of outcomes up to the first nested one. *)
Fixpoint yield_until_nested (id : Z) (os : list Outcome) : gen Outcome :=
  match os with
  | [] => gen_done
  | o :: os' =>
      if decide (nested o)
      then gen_raise (RuntimeError (NestedBranch id (outcome_ChildBranches o)))
      else gen_yield o (yield_until_nested id os')
  end.

(** [r] is the reference that the id map built from [table] holds for the
    id [k]: the last item of the table with that id. *)
Definition resolves {A} (ID : A → Z) (table : list A) (k : Z) (r : nat) : Prop :=
  ∃ x, table !! r = Some x ∧ ID x = k ∧
       ∀ j x', (r < j)%nat → table !! j = Some x' → ID x' ≠ k.

(** An outcome of event [i] has a [LinkToEvent] that resolves to event [j]. *)
Definition links_to (EVENTS : list Event) (i j : nat) : Prop :=
  ∃ e o link, EVENTS !! i = Some e ∧ o ∈ outcomes_of e ∧
              LinkToEvent o = Some link ∧ resolves event_Id EVENTS link j.

(** The derived list of event [i] contains the area id [L]. *)
Definition tagged (L : Z) (events : list Event) (i : nat) : Prop :=
  ∃ e, events !! i = Some e ∧ L ∈ event_Area e.

(** An event without its derived list: what [InitGlobals] never changes. *)
Definition shape (e : Event) : Event := set_Area [] e.

(** What the traversal for the origin [L] can do to an event: leave it, or
    append [L] to a derived list that lacks it. *)
Definition ext (L : Z) (e e' : Event) : Prop :=
  shape e = shape e' ∧
  (event_Area e' = event_Area e ∨
   ((L ∉ event_Area e) ∧ event_Area e' = event_Area e ++ [L])).

(** [links_to], read in a store with the id map [emap]. *)
Definition edge (emap : gmap Z nat) (events : list Event) (i j : nat) : Prop :=
  ∃ e o link, events !! i = Some e ∧ o ∈ outcomes_of e ∧
              LinkToEvent o = Some link ∧ emap !! link = Some j.

(** Every successor of an event tagged [L] is tagged [L] or waits on the
    stack. *)
Definition closed (emap : gmap Z nat) (L : Z) (events : list Event)
    (stack : list nat) : Prop :=
  ∀ i j, tagged L events i → edge emap events i j →
         tagged L events j ∨ j ∈ stack.

(** The weight of the events that the traversal for [L] has not tagged yet:
    the part of the termination measure that a visit uses up. *)
Definition untagged_weight (L : Z) (events : list Event) : nat :=
  sum_list_with (fun e => if bool_decide (L ∈ event_Area e) then 0%nat
                          else weight e) events.

(** What the whole propagation can do to an event: extend its derived list. *)
Definition grows (e e' : Event) : Prop :=
  shape e = shape e' ∧ ∀ A, A ∈ event_Area e → A ∈ event_Area e'.

(** A fixture: two events that link to each other, the first one limited to
    the area 7. *)
Definition link_outcome (id : Z) : Outcome := mkOutcome [] (Some id) None.
Definition cycle_events : list Event :=
  [ mkEvent 1 None (Some 7%Z)
      [mkBranch (Some (link_outcome 2)) None None None] [];
    mkEvent 2 None None
      [mkBranch None (Some (link_outcome 1)) None None] [] ].

(** The id map of the areas points into the store, at an area with the id
    it is looked up with. *)
Definition areas_wf (amap : gmap Z nat) (areas : list Area) : Prop :=
  ∀ k r, amap !! k = Some r → ∃ a, areas !! r = Some a ∧ area_Id a = k.

(** No list of [SHOP_AREAS] holds the Limbo area. *)
Definition limbo_free (areas : list Area) (sa : gmap Z (list nat)) : Prop :=
  ∀ gid value r a, sa !! gid = Some value → r ∈ value → areas !! r = Some a →
                   area_Id a ≠ LIMBO.

(** What the aggregation maintains of every list of [SHOP_AREAS]: no
    reference twice, and every reference is the one the id map holds for the
    id of its area, which is not Limbo. *)
Definition shop_inv (amap : gmap Z nat) (areas : list Area)
    (sa : gmap Z (list nat)) : Prop :=
  ∀ gid value, sa !! gid = Some value →
    NoDup value ∧
    ∀ r, r ∈ value →
         ∃ a, areas !! r = Some a ∧ area_Id a ≠ LIMBO ∧
              amap !! area_Id a = Some r.

(** Two stores with the same ids at the same places. *)
Definition same_ids (areas areas' : list Area) : Prop :=
  Forall2 (fun a a' => area_Id a = area_Id a') areas areas'.

(** What the first pass of the aggregation maintains of its state. *)
Definition static_inv (amap : gmap Z nat)
    (st : list Area * gmap Z (list nat)) : Prop :=
  areas_wf amap st.1 ∧ shop_inv amap st.1 st.2.

(** A fixture for [InitGlobals]: the four areas whose names it corrects, a
    port area, and Limbo; a shop group bound to the setting 50; ports that
    place the setting 50 in the area 7 and in Limbo, and a port with the
    setting 51 of no group; an event limited to the area 7 and an event
    limited to Limbo, both switching to the setting 50. *)
Definition fixture_areas : list Area :=
  [ mkArea 100374 (Some "Tomb-Colonies"%string) None;
    mkArea 101981 (Some "Chelonate"%string) None;
    mkArea 102000 (Some "Polythreme Streets"%string) None;
    mkArea 102960 (Some "Uttershroom"%string) None;
    mkArea 7 (Some "Port Seven"%string) None;
    mkArea LIMBO (Some "Limbo"%string) None ].

Definition switch_outcome (setting : Z) : Outcome :=
  mkOutcome [] None (Some setting).

Definition fixture_events : list Event :=
  [ mkEvent 1 None (Some 7%Z)
      [mkBranch (Some (switch_outcome 50)) None None None] [];
    mkEvent 2 None (Some LIMBO)
      [mkBranch None None (Some (switch_outcome 50)) None] [] ].

Definition fixture_exchanges : list ExchangeGroup :=
  [ mkExchangeGroup 5 (Some "Market"%string) [50%Z] [] ].

Definition fixture_tiles : list Tile :=
  [ mkTile [ mkTileEntry [ mkPort 7 true 50; mkPort LIMBO false 50;
                           mkPort 7 false 51 ] ] ].

(** The same events, the second one switching to the setting 51, which no
    group lists. *)
Definition fixture_events_unknown_setting : list Event :=
  [ mkEvent 1 None (Some 7%Z)
      [mkBranch (Some (switch_outcome 50)) None None None] [];
    mkEvent 2 None (Some 7%Z)
      [mkBranch None None (Some (switch_outcome 51)) None] [] ].

(** An event with an outcome that carries a branch of its own. *)
Definition nested_event : Event :=
  mkEvent 3 None None
    [ mkBranch (Some (switch_outcome 50))
               (Some (mkOutcome [mkBranch None None None None] None None))
               None None ] [].

(** [x[NAME] or ''], the name that the lookup compares. *)
Definition display_name {A} `{Entity A} (x : A) : string :=
  default ""%string (NAME x).

(** The names the token is searched in: folded to lower case when the token
    is in lower case. *)
Definition folded_name {A} `{Entity A} `{Builtins} (token : string) (x : A) :
    string :=
  if islower token then lower (display_name x) else display_name x.

(** The entities whose (folded) name contains the token. *)
Definition name_matches {A} `{Entity A} `{Builtins} (token : string)
    (lst : list A) :
    list A :=
  List.filter (fun x => contains token (folded_name token x)) lst.

(** Two events that link to each other, with any two ids; the first one is
    limited to the area [A]. *)
Definition cycle2 (id1 id2 A : Z) : list Event :=
  [ mkEvent id1 None (Some A)
      [mkBranch (Some (link_outcome id2)) None None None] [];
    mkEvent id2 None None
      [mkBranch None (Some (link_outcome id1)) None None] [] ].

(** The four assignments [AREAS_MAP[id][NAME] = name] of [InitGlobals]. *)
Definition NAME_CORRECTIONS : list (Z * string) :=
  [ (100374%Z, "Venderbight"%string); (101981%Z, "The Chelonate"%string);
    (102000%Z, "Polythreme"%string); (102960%Z, "The Uttershroom"%string) ].

(** Two stores that differ in the subsurface flags only. *)
Definition keeps_names (areas areas' : list Area) : Prop :=
  Forall2 (fun a a' => area_Id a = area_Id a' ∧ area_Name a = area_Name a')
          areas areas'.

(** Event [j] is reached, along edges of the store, from an event whose
    origin area is [L]. *)
Definition origin_reach (emap : gmap Z nat) (L : Z) (events : list Event)
    (j : nat) : Prop :=
  ∃ i e, events !! i = Some e ∧ LimitedToArea e = Some L ∧
         rtc (edge emap events) i j.

(** An event that the traversal can visit without an exception: none of its
    outcomes carries branches and every [LinkToEvent] is the id of an event
    of the table. *)
Definition intact (EVENTS : list Event) (e : Event) : Prop :=
  Forall (fun o => ¬ nested o) (outcomes_of e) ∧
  ∀ o link, o ∈ outcomes_of e → LinkToEvent o = Some link →
            ∃ e2, e2 ∈ EVENTS ∧ event_Id e2 = link.

(** [intact], read with the id map. *)
Definition clean (emap : gmap Z nat) (e : Event) : Prop :=
  Forall (fun o => ¬ nested o) (outcomes_of e) ∧
  ∀ o link, o ∈ outcomes_of e → LinkToEvent o = Some link →
            is_Some (emap !! link).

(** Every event that the edges of the store reach from [j] is clean. *)
Definition good (emap : gmap Z nat) (events : list Event) (j : nat) : Prop :=
  ∀ k ek, rtc (edge emap events) j k → events !! k = Some ek → clean emap ek.

(** The ports that the first pass of the aggregation reads: those of the
    first entry of each tile. *)
Definition ports_of (TILES_DATA : list Tile) : list Port :=
  TILES_DATA ≫= fun tile =>
    match Tiles tile with
    | [] => []
    | entry0 :: _ => PortData entry0
    end.

(** Tables whose references all resolve: what [InitGlobals] needs to
    return. *)
Definition tables_intact (AREAS : list Area) (EVENTS : list Event)
    (EXCHANGES : list ExchangeGroup) (TILES_DATA : list Tile) : Prop :=
  (∀ k, k ∈ NAME_CORRECTIONS.*1 → ∃ a, a ∈ AREAS ∧ area_Id a = k) ∧
  (∀ e, e ∈ EVENTS → intact EVENTS e) ∧
  (∀ e A, e ∈ EVENTS → LimitedToArea e = Some A →
          ∃ a, a ∈ AREAS ∧ area_Id a = A) ∧
  (∀ e o s, e ∈ EVENTS → o ∈ outcomes_of e → SwitchToSetting o = Some s →
            ∃ group, group ∈ EXCHANGES ∧ s ∈ SettingIds group) ∧
  (∀ port, port ∈ ports_of TILES_DATA →
           ∃ a, a ∈ AREAS ∧ area_Id a = port_Area port).

(** The list of the group [gid] holds the area reference [r]. *)
Definition listed (sa : gmap Z (list nat)) (gid : Z) (r : nat) : Prop :=
  ∃ value, sa !! gid = Some value ∧ r ∈ value.

(** ** LocationOfShop and ShopSortKey *)

(** ['%s' % v] for a value that is a string or [None]. *)
Definition format_s (v : option string) : string := default "None"%string v.

(** ['[[%s]]' % x[NAME]] *)
Definition wiki_link (x : Area) : string :=
  "[[" +:+ format_s (area_Name x) +:+ "]]".

(** [sorted] on a list of strings, which Python compares code point by code
    point: the ordered rearrangement of the list, here by insertion. *)
Fixpoint insort (s : string) (l : list string) : list string :=
  match l with
  | [] => [s]
  | t :: l' => if String.leb s t then s :: l else t :: insort s l'
  end.
Definition sorted (l : list string) : list string := foldr insort [] l.

(** Reading the objects behind a list of references, in order. *)
Fixpoint deref_all {A} (store : list A) (rs : list nat) : res (list A) :=
  match rs with
  | [] => Ok []
  | r :: rs' =>
      let! a := deref store r in
      let! l := deref_all store rs' in
      Ok (a :: l)
  end.

(** [eligible[-1]] is read in the last branch only, where [lookup], and so
    [eligible], has two elements or more. *)
Definition LocationOfShop (areas : list Area) (SHOP_AREAS : gmap Z (list nat))
    (idd : Z) (abbreviate : bool) : res string :=
  let! lookup := getitem SHOP_AREAS idd in
  match lookup with
  | [r] => let! x := deref areas r in Ok (wiki_link x)
  | [] => Ok "Not available in-game"%string
  | _ =>
      if abbreviate then Ok "Various"%string
      else
        let! xs := deref_all areas lookup in
        let eligible := sorted (wiki_link <$> xs) in
        Ok (String.concat ", " (removelast eligible) +:+ ", and "
            +:+ List.last eligible EmptyString)
  end.

Definition ShopSortKey (areas : list Area) (SHOP_AREAS : gmap Z (list nat))
    (group : ExchangeGroup) : res (nat * string) :=
  let! value := getitem SHOP_AREAS (group_Id group) in
  let count := length value in
  let count :=
    if (1 <? count)%nat then 2%nat
    else if (count =? 0)%nat then 3%nat else count in
  let! location := LocationOfShop areas SHOP_AREAS (group_Id group) true in
  Ok (count, location).

(** A list of strings in ascending order. *)
Fixpoint ordered (l : list string) : Prop :=
  match l with
  | [] => True
  | s :: l' => Forall (fun t => String.leb s t = true) l' ∧ ordered l'
  end.

(** ** SnakeCase

    The model is that of the program on strings of ASCII characters, which
    the keys of the program are: there the characters of [for x in string]
    are the bytes, and [x.isupper()] and [x.upper()] are those of the
    letters A to Z and a to z.  Nothing is stated of [SnakeCase] on a string
    with a byte above 127. *)

(** [x.upper()] on one ASCII character. *)
Definition upper_char (c : ascii) : ascii :=
  if islower_char c then ascii_of_nat (code c - 32) else c.

(** [''.join('_' + x if x.isupper() else x.upper() for x in string)] *)
Fixpoint snake_pieces (s : string) : string :=
  match s with
  | EmptyString => EmptyString
  | String x s' =>
      if isupper x then String "_" (String x (snake_pieces s'))
      else String (upper_char x) (snake_pieces s')
  end.

(** [s.lstrip('_')] *)
Fixpoint lstrip_underscores (s : string) : string :=
  match s with
  | EmptyString => EmptyString
  | String c s' => if Ascii.eqb c "_" then lstrip_underscores s' else s
  end.

Definition SnakeCase (s : string) : string :=
  lstrip_underscores (snake_pieces s).

(** A key as the program names them: ASCII letters only, a capital one
    first. *)
Definition isalpha (c : ascii) : bool := isupper c || islower_char c.
Fixpoint letters (s : string) : bool :=
  match s with
  | EmptyString => true
  | String c s' => isalpha c && letters s'
  end.
Definition capitalised (s : string) : bool :=
  match s with
  | EmptyString => false
  | String c _ => isupper c && letters s
  end.

(** The keys for which the program defines a constant. *)
Definition KEYS : list string :=
  [ "Area"; "Availabilities"; "Category"; "ChildBranches"; "Cost"; "Deck";
    "DefaultEvent"; "Description"; "DifficultyScaler"; "DifficultyTestType";
    "Id"; "Image"; "IsSlot"; "LimitedToArea"; "LinkToEvent"; "Name"; "Nature";
    "Ordering"; "ParentGroup"; "Persistent"; "PortData"; "PurchaseQuality";
    "Quality"; "QualitiesRequired"; "RareDefaultEvent"; "RareSuccessEvent";
    "SellPrice"; "Setting"; "SettingIds"; "Shops"; "Subsurface";
    "SuccessEvent"; "SwitchToSetting"; "Tag"; "Teaser"; "Tiles" ]%string.

(** The event [x] declares the origin [L] and reaches the event [j] along
    edges of the store. *)
Definition seeded (emap : gmap Z nat) (events : list Event) (L : Z)
    (x j : nat) : Prop :=
  ∃ e, events !! x = Some e ∧ LimitedToArea e = Some L ∧
       rtc (edge emap events) x j.

(** What the propagation has established once the events before position
    [k] have been seeds: the tags are those of these seeds, and in every
    derived list an area stands before another one only if one of its seeds
    comes before all the seeds of the other. *)
Definition order_inv (emap : gmap Z nat) (k : nat) (t : list Event) : Prop :=
  (∀ L, closed emap L t []) ∧
  (∀ x e L, (x < k)%nat → t !! x = Some e → LimitedToArea e = Some L →
            tagged L t x) ∧
  (∀ L j, tagged L t j → ∃ x, (x < k)%nat ∧ seeded emap t L x j) ∧
  (∀ j e i1 i2 L1 L2,
     t !! j = Some e →
     event_Area e !! i1 = Some L1 → event_Area e !! i2 = Some L2 →
     (i1 < i2)%nat →
     ∃ x1, seeded emap t L1 x1 j ∧
           ∀ x2, seeded emap t L2 x2 j → (x1 < x2)%nat).

(** * Theorems *)

(** ** The event branch walker *)

Lemma gen_then_done {A} (g : gen A) : gen_then gen_done g = g.
Proof. by destruct g. Qed.

Lemma gen_then_yield {A} (a : A) (g1 g2 : gen A) :
  gen_then (gen_yield a g1) g2 = gen_yield a (gen_then g1 g2).
Proof. by destruct g1 as [ys [e|]]. Qed.

Lemma gen_then_raise {A} (e : exn) (g : gen A) :
  gen_then (gen_raise e) g = gen_raise e.
Proof. done. Qed.

Lemma yield_until_nested_app id os1 os2 :
  yield_until_nested id (os1 ++ os2) =
  gen_then (yield_until_nested id os1) (yield_until_nested id os2).
Proof.
  induction os1 as [|o os1 IH]; simpl.
  - by rewrite gen_then_done.
  - destruct (decide (nested o)).
    + by rewrite gen_then_raise.
    + by rewrite gen_then_yield, IH.
Qed.

Lemma walk_slots_spec id b types :
  walk_slots id b types = yield_until_nested id (omap (fun x => x b) types).
Proof.
  induction types as [|x types IH]; simpl; [done|].
  destruct (x b) as [o|]; simpl; [|done].
  destruct (decide (nested o)) as [Hn|Hn]; unfold nested in Hn;
    destruct (outcome_ChildBranches o) eqn:E; try done.
  - by rewrite IH.
  - by destruct Hn.
Qed.

Lemma walk_branches_spec id branches :
  walk_branches id branches = yield_until_nested id (branches ≫= slots).
Proof.
  induction branches as [|b branches IH]; [done|].
  change (walk_branches id (b :: branches))
    with (gen_then (walk_slots id b EVENT_TYPES) (walk_branches id branches)).
  change ((b :: branches) ≫= slots) with (slots b ++ (branches ≫= slots)).
  by rewrite yield_until_nested_app, IH, walk_slots_spec.
Qed.

Lemma ForEachBranch_spec e :
  ForEachBranch e = yield_until_nested (event_Id e) (outcomes_of e).
Proof. apply walk_branches_spec. Qed.

Lemma yield_until_nested_clean id os :
  Forall (fun o => ¬ nested o) os → yield_until_nested id os = (os, None).
Proof.
  induction 1 as [|o os Ho _ IH]; simpl; [done|].
  destruct (decide (nested o)); [done|]. by rewrite IH.
Qed.

Lemma yield_until_nested_raises id os :
  Exists nested os →
  ∃ o, o ∈ os ∧ nested o ∧
       (yield_until_nested id os).2 =
         Some (RuntimeError (NestedBranch id (outcome_ChildBranches o))).
Proof.
  induction os as [|o os IH]; intros Hex; [by apply Exists_nil in Hex|].
  simpl. destruct (decide (nested o)) as [Hn|Hn].
  - exists o. split; [left|done].
  - apply Exists_cons in Hex as [?|Hex]; [done|].
    destruct (IH Hex) as (o' & ? & ? & ?). exists o'. split; [by right|done].
Qed.

Lemma yield_until_nested_no_exn id os :
  (yield_until_nested id os).2 = None →
  (yield_until_nested id os).1 = os ∧ Forall (fun o => ¬ nested o) os.
Proof.
  induction os as [|o os IH]; simpl; [done|].
  destruct (decide (nested o)); simpl; [done|].
  intros Hn. destruct (IH Hn) as [-> ?]. by split; [|constructor].
Qed.

(** ** Loops *)

Lemma bind_Ok {A B} (m : res A) (k : A → res B) b :
  bind m k = Ok b → ∃ a, m = Ok a ∧ k a = Ok b.
Proof. destruct m; simpl; [eauto|done..]. Qed.

Lemma for_each_invariant {A S} (I : S → Prop) (body : A → S → res S) ys s s' :
  (∀ y t t', y ∈ ys → I t → body y t = Ok t' → I t') →
  I s → for_each body ys s = Ok s' → I s'.
Proof.
  revert s. induction ys as [|y ys IH]; simpl; intros s Hbody Hs Hrun.
  - by injection Hrun as <-.
  - apply bind_Ok in Hrun as (t & Hy & Hrun).
    eapply IH; [|by eapply Hbody; [left|..]|done].
    intros; eapply Hbody; [by right|done..].
Qed.

Lemma for_each_total {A S} (I : S → Prop) (body : A → S → res S) ys s :
  (∀ y t, y ∈ ys → I t → body y t ≠ NoResult) →
  (∀ y t t', y ∈ ys → I t → body y t = Ok t' → I t') →
  I s → for_each body ys s ≠ NoResult.
Proof.
  revert s. induction ys as [|y ys IH]; simpl; intros s Hnr Hbody Hs; [done|].
  destruct (body y s) as [t| |] eqn:Hy; simpl; [|done|].
  - apply IH; [intros; apply Hnr; [by right|done]
              |intros; eapply Hbody; [by right|done..]
              |by eapply Hbody; [left|..]].
  - exfalso. eapply Hnr; [left|exact Hs|exact Hy].
Qed.

Lemma for_gen_Ok {A S} (body : A → S → res S) g s s' :
  for_gen body g s = Ok s' → g.2 = None ∧ for_each body g.1 s = Ok s'.
Proof.
  unfold for_gen. intros (t & Ht & Hg)%bind_Ok.
  destruct (g.2); [done|]. by injection Hg as <-.
Qed.

(** ** The id maps *)

Lemma index_from_spec {A} (ID : A → Z) i table m k r :
  index_from ID i table m !! k = Some r ↔
  (∃ n x, r = (i + n)%nat ∧ table !! n = Some x ∧ ID x = k ∧
          ∀ j x', (n < j)%nat → table !! j = Some x' → ID x' ≠ k)
  ∨ (m !! k = Some r ∧ ∀ x, x ∈ table → ID x ≠ k).
Proof.
  revert i m. induction table as [|y table IH]; intros i m; simpl.
  - split; [intros Hm; right; split; [done|by intros x ?%elem_of_nil]|].
    by intros [(n & x & _ & ? & _)|[? _]].
  - rewrite IH. split.
    + intros [(n & x & -> & Hx & Hk & Hlast)|[Hm Hrest]].
      * left. exists (S n), x. split; [lia|]. split; [done|]. split; [done|].
        intros [|j] x' Hj; [lia|]. simpl. apply Hlast. lia.
      * destruct (decide (ID y = k)) as [Hy|Hy].
        -- left. exists 0%nat, y. rewrite Hy, lookup_insert_eq in Hm.
           injection Hm as <-. split; [lia|]. split; [done|]. split; [done|].
           intros [|j] x' Hj; [lia|]. simpl. intros Hx'.
           apply Hrest. by eapply list_elem_of_lookup_2.
        -- right. rewrite lookup_insert_ne in Hm by done. split; [done|].
           intros x [->|?]%elem_of_cons; [done|by apply Hrest].
    + intros [(n & x & -> & Hx & Hk & Hlast)|[Hm Hall]].
      * destruct n as [|n]; simpl in Hx.
        -- injection Hx as ->. right. rewrite Hk, lookup_insert_eq.
           split; [f_equal; lia|]. intros x' [j Hj]%list_elem_of_lookup_1.
           apply (Hlast (S j)); [lia|done].
        -- left. exists n, x. split; [lia|]. split; [done|]. split; [done|].
           intros j x' Hj Hx'. apply (Hlast (S j)); [lia|done].
      * right. rewrite lookup_insert_ne by (apply Hall; left).
        split; [done|]. intros x ?. apply Hall. by right.
Qed.

Lemma index_resolves {A} (ID : A → Z) table k r :
  index_from ID 0 table ∅ !! k = Some r ↔ resolves ID table k r.
Proof.
  rewrite index_from_spec. unfold resolves. split.
  - intros [(n & x & -> & ?)|[Hm _]]; [by exists x|].
    by rewrite lookup_empty in Hm.
  - intros (x & ?). left. by exists r, x.
Qed.

Lemma index_valid {A} (ID : A → Z) table k r :
  index_from ID 0 table ∅ !! k = Some r →
  ∃ x, table !! r = Some x ∧ ID x = k.
Proof. intros (x & ? & ? & _)%index_resolves. eauto. Qed.

(** ** The traversal: what it computes *)

Lemma shape_fields e e' :
  shape e = shape e' →
  event_Id e = event_Id e' ∧ LimitedToArea e = LimitedToArea e' ∧
  event_ChildBranches e = event_ChildBranches e'.
Proof.
  intros Hs. split; [|split].
  - apply (f_equal event_Id) in Hs. done.
  - apply (f_equal LimitedToArea) in Hs. done.
  - apply (f_equal event_ChildBranches) in Hs. done.
Qed.

Lemma shape_outcomes e e' : shape e = shape e' → outcomes_of e = outcomes_of e'.
Proof. intros (_ & _ & Hb)%shape_fields. unfold outcomes_of. by rewrite Hb. Qed.

Lemma shape_ForEachBranch e e' :
  shape e = shape e' → ForEachBranch e = ForEachBranch e'.
Proof.
  intros (Hi & _ & Hb)%shape_fields. unfold ForEachBranch. by rewrite Hi, Hb.
Qed.

#[global] Instance ext_refl L : Reflexive (ext L).
Proof. intros e. split; [done|by left]. Qed.

#[global] Instance ext_trans L : Transitive (ext L).
Proof.
  intros e1 e2 e3 [Hs1 H1] [Hs2 H2]. split; [congruence|].
  destruct H1 as [H1|[Hn1 H1]], H2 as [H2|[Hn2 H2]].
  - left. congruence.
  - right. rewrite H1 in Hn2, H2. by rewrite H2.
  - right. split; [done|congruence].
  - exfalso. apply Hn2. rewrite H1. apply elem_of_app. right. left.
Qed.

Lemma ext_append L e :
  L ∉ event_Area e → ext L e (set_Area (event_Area e ++ [L]) e).
Proof. intros Hn. split; [done|]. by right. Qed.

Section Traversal.
Variable emap : gmap Z nat.
Variable L : Z.

Lemma exts_tagged L0 events events' i :
  Forall2 (ext L) events events' → tagged L0 events i → tagged L0 events' i.
Proof.
  intros Hext (e & He & Hin).
  destruct (Forall2_lookup_l _ _ _ _ _ Hext He) as (e' & He' & _ & Ha).
  exists e'. split; [done|].
  destruct Ha as [->|[_ ->]]; [done|]. apply elem_of_app. by left.
Qed.

Lemma exts_tagged_other L0 events events' i :
  L0 ≠ L →
  Forall2 (ext L) events events' → tagged L0 events' i → tagged L0 events i.
Proof.
  intros Hne Hext (e' & He' & Hin).
  destruct (Forall2_lookup_r _ _ _ _ _ Hext He') as (e & He & _ & Ha).
  exists e. split; [done|].
  destruct Ha as [Ha|[_ Ha]]; rewrite Ha in Hin; [done|].
  apply elem_of_app in Hin as [?|Hin]; [done|].
  by apply list_elem_of_singleton in Hin.
Qed.

Lemma exts_edge events events' i j :
  Forall2 (ext L) events events' →
  edge emap events i j ↔ edge emap events' i j.
Proof.
  intros Hext. split; intros (e & o & link & He & Ho & Hl & Hm).
  - destruct (Forall2_lookup_l _ _ _ _ _ Hext He) as (e' & He' & Hs & _).
    exists e', o, link. by rewrite <- (shape_outcomes e e').
  - destruct (Forall2_lookup_r _ _ _ _ _ Hext He) as (e' & He' & Hs & _).
    exists e', o, link. by rewrite (shape_outcomes e' e).
Qed.

Lemma exts_insert events r e e' :
  events !! r = Some e → ext L e e' →
  Forall2 (ext L) events (<[r:=e']> events).
Proof.
  intros He Hext. rewrite <- (list_insert_id events r e) at 1 by done.
  by apply Forall2_insert.
Qed.

(** What the loop over the outcomes leaves on the stack. *)
Lemma push_links_stack ys stack stack' :
  for_each (push_link emap) ys stack = Ok stack' →
  (∀ i, i ∈ stack → i ∈ stack') ∧
  (∀ o link, o ∈ ys → LinkToEvent o = Some link →
             ∃ j, emap !! link = Some j ∧ j ∈ stack') ∧
  (∀ j, j ∈ stack' → j ∈ stack ∨ ∃ link, emap !! link = Some j) ∧
  (length stack' ≤ length stack + length ys)%nat.
Proof.
  revert stack. induction ys as [|y ys IH]; simpl; intros stack Hrun.
  - injection Hrun as <-. split; [done|]. split; [by intros ?? ?%elem_of_nil|].
    split; [by left|lia].
  - apply bind_Ok in Hrun as (st & Hy & Hrun).
    destruct (IH _ Hrun) as (Hkeep & Hlinks & Hfrom & Hlen).
    unfold push_link in Hy. destruct (LinkToEvent y) as [link|] eqn:Hlink.
    + apply bind_Ok in Hy as (j & Hj & Hst). injection Hst as <-.
      unfold getitem in Hj. destruct (emap !! link) as [j'|] eqn:Hm; [|done].
      injection Hj as ->. repeat split.
      * intros i Hi. apply Hkeep. by right.
      * intros o link' [->|Ho]%elem_of_cons Hl; [|by eapply Hlinks].
        exists j. split; [congruence|]. apply Hkeep. left.
      * intros i [[->|Hi]%elem_of_cons|?]%Hfrom; eauto.
      * simpl in Hlen. lia.
    + injection Hy as <-. repeat split.
      * done.
      * intros o link' [->|Ho]%elem_of_cons Hl; [congruence|by eapply Hlinks].
      * done.
      * lia.
Qed.

Lemma closed_pop events r stack :
  tagged L events r → closed emap L events (r :: stack) →
  closed emap L events stack.
Proof.
  intros Hr Hc i j Hi Hij.
  destruct (Hc i j Hi Hij) as [?|[->|?]%elem_of_cons]; auto.
Qed.

Lemma dfs_sound fuel events stack events' :
  dfs fuel emap L events stack = Ok events' →
  Forall2 (ext L) events events' ∧
  (closed emap L events stack → closed emap L events' []) ∧
  (∀ i, i ∈ stack → tagged L events' i).
Proof.
  revert events stack.
  induction fuel as [|fuel IH]; intros events [|r stack] Hrun;
    simpl in Hrun; try done.
  1,2: injection Hrun as <-; split; [done|]; split; [done|];
       by intros ? ?%elem_of_nil.
  apply bind_Ok in Hrun as (e & He & Hrun).
  unfold deref in He. destruct (events !! r) as [e0|] eqn:Hr; [|done].
  injection He as ->.
  destruct (bool_decide (L ∈ event_Area e)) eqn:Htag.
  - apply bool_decide_eq_true in Htag.
    destruct (IH _ _ Hrun) as (Hext & Hclosed & Hstack).
    assert (tagged L events r) as Htr by by exists e.
    split; [done|]. split.
    + intros Hc. apply Hclosed. by eapply closed_pop.
    + intros i [->|Hi]%elem_of_cons; [by eapply exts_tagged|by apply Hstack].
  - apply bool_decide_eq_false in Htag.
    apply bind_Ok in Hrun as (stack1 & Hpush & Hrun).
    apply for_gen_Ok in Hpush as [Hnoexn Hpush].
    set (e1 := set_Area (event_Area e ++ [L]) e) in *.
    assert (ext L e e1) as Hee1 by by apply ext_append.
    assert (Forall2 (ext L) events (<[r:=e1]> events)) as Hext1
      by by eapply exts_insert.
    destruct (IH _ _ Hrun) as (Hext & Hclosed & Hstack).
    destruct (push_links_stack _ _ _ Hpush) as (Hkeep & Hlinks & _ & _).
    assert (tagged L (<[r:=e1]> events) r) as Htr.
    { exists e1. split; [|apply elem_of_app; right; left].
      apply list_lookup_insert_eq. by eapply lookup_lt_Some. }
    split; [by etrans|]. split.
    + intros Hc. apply Hclosed. intros i j Hi Hij.
      destruct (decide (i = r)) as [->|Hne].
      * right. destruct Hij as (e' & o & link & He' & Ho & Hl & Hm).
        rewrite list_lookup_insert_eq in He' by by eapply lookup_lt_Some.
        injection He' as <-. rewrite ForEachBranch_spec in Hnoexn, Hlinks.
        apply yield_until_nested_no_exn in Hnoexn as [Hys _].
        rewrite Hys in Hlinks. destruct (Hlinks o link) as (j' & ? & ?);
          [done..|]. congruence.
      * assert (tagged L events i) as Hi0.
        { destruct Hi as (e' & He' & Hin).
          rewrite list_lookup_insert_ne in He' by done. by exists e'. }
        apply (exts_edge _ _ i j Hext1) in Hij.
        destruct (Hc i j Hi0 Hij) as [Hj|[->|Hj]%elem_of_cons].
        -- left. by eapply exts_tagged.
        -- by left.
        -- right. by apply Hkeep.
    + intros i [->|Hi]%elem_of_cons.
      * by eapply exts_tagged.
      * apply Hstack. by apply Hkeep.
Qed.
End Traversal.

(** ** The traversal: termination *)

Lemma untagged_weight_le L events :
  (untagged_weight L events ≤ sum_list_with weight events)%nat.
Proof.
  unfold untagged_weight. induction events as [|e events IH]; [done|].
  cbn [sum_list_with]. destruct (bool_decide _); lia.
Qed.

Lemma untagged_weight_insert L events r e e1 :
  events !! r = Some e → L ∉ event_Area e → L ∈ event_Area e1 →
  (untagged_weight L (<[r:=e1]> events) + weight e
   = untagged_weight L events)%nat.
Proof.
  unfold untagged_weight. intros He Hn Hin. revert r He.
  induction events as [|e' events IH]; intros [|r] He; try done.
  - injection He as ->. cbn [insert list_insert sum_list_with].
    rewrite (bool_decide_eq_true_2 _ Hin), (bool_decide_eq_false_2 _ Hn). lia.
  - specialize (IH r He).
    change (<[S r:=e1]> (e' :: events)) with (e' :: <[r:=e1]> events).
    cbn [sum_list_with]. destruct (bool_decide (L ∈ event_Area e')); lia.
Qed.

Lemma push_link_returns emap o stack : push_link emap o stack ≠ NoResult.
Proof.
  unfold push_link, getitem.
  destruct (LinkToEvent o); [|done]. by destruct (emap !! _).
Qed.

Lemma push_links_return emap g stack :
  for_gen (push_link emap) g stack ≠ NoResult.
Proof.
  unfold for_gen.
  destruct (for_each (push_link emap) g.1 stack) as [st| |] eqn:Hrun; simpl.
  - by destruct (g.2).
  - done.
  - exfalso. revert Hrun.
    apply (for_each_total (fun _ => True)); [|done..].
    intros. apply push_link_returns.
Qed.

Section Termination.
Variable emap : gmap Z nat.
Variable L : Z.

Lemma dfs_returns fuel events stack :
  (length stack + untagged_weight L events < fuel)%nat →
  (∀ i, i ∈ stack → (i < length events)%nat) →
  (∀ k j, emap !! k = Some j → (j < length events)%nat) →
  dfs fuel emap L events stack ≠ NoResult.
Proof.
  intros Hfuel Hstack Hmap. revert events stack Hfuel Hstack Hmap.
  induction fuel as [|fuel IH]; intros events [|r stack] Hfuel Hstack Hmap;
    simpl in *; try done; [lia|].
  destruct (lookup_lt_is_Some_2 events r) as [e He];
    [apply Hstack; left|].
  unfold deref. rewrite He. simpl.
  destruct (bool_decide (L ∈ event_Area e)) eqn:Htag.
  - apply IH; [lia| |done]. intros i Hi. apply Hstack. by right.
  - apply bool_decide_eq_false in Htag.
    set (e1 := set_Area (event_Area e ++ [L]) e).
    destruct (for_gen (push_link emap) (ForEachBranch e1) stack)
      as [stack1| |] eqn:Hpush; simpl; [|done|by apply push_links_return in Hpush].
    apply for_gen_Ok in Hpush as [_ Hpush].
    destruct (push_links_stack _ _ _ _ Hpush) as (_ & _ & Hfrom & Hlen).
    assert (untagged_weight L (<[r:=e1]> events) + weight e
            = untagged_weight L events)%nat as Hw.
    { apply untagged_weight_insert; [done..|].
      apply elem_of_app. right. left. }
    assert (weight e = S (length (ForEachBranch e1).1)) as Hwe by done.
    apply IH.
    + lia.
    + intros i Hi. rewrite length_insert.
      destruct (Hfrom i Hi) as [?|[link ?]]; [|by eapply Hmap].
      apply Hstack. by right.
    + intros k j Hk. rewrite length_insert. by eapply Hmap.
Qed.

(** More fuel does not change a result. *)
Lemma dfs_fuel_mono fuel fuel' events stack :
  (fuel ≤ fuel')%nat →
  dfs fuel emap L events stack ≠ NoResult →
  dfs fuel' emap L events stack = dfs fuel emap L events stack.
Proof.
  revert fuel' events stack.
  induction fuel as [|fuel IH]; intros fuel' events [|r stack] Hle Hrun;
    simpl in *; try done.
  - by destruct fuel'.
  - by destruct fuel'.
  - destruct fuel' as [|fuel']; [lia|]. simpl.
    destruct (deref events r) as [e| |]; simpl in *; [|done..].
    destruct (bool_decide (L ∈ event_Area e)); [apply IH; [lia|done]|].
    destruct (for_gen _ _ _) as [stack1| |]; simpl in *; [|done..].
    apply IH; [lia|done].
Qed.
End Termination.

(** ** The propagation over all the events *)

#[global] Instance grows_refl : Reflexive grows.
Proof. by intros e. Qed.

#[global] Instance grows_trans : Transitive grows.
Proof.
  intros e1 e2 e3 [Hs1 H1] [Hs2 H2]. split; [congruence|]. auto.
Qed.

Lemma ext_grows L e e' : ext L e e' → grows e e'.
Proof.
  intros [Hs Ha]. split; [done|]. intros A HA.
  destruct Ha as [->|[_ ->]]; [done|]. apply elem_of_app. by left.
Qed.

Lemma exts_grow L events events' :
  Forall2 (ext L) events events' → Forall2 grows events events'.
Proof. intros H. eapply Forall2_impl; [done|apply ext_grows]. Qed.

Lemma grows_tagged A events events' i :
  Forall2 grows events events' → tagged A events i → tagged A events' i.
Proof.
  intros Hg (e & He & Hin).
  destruct (Forall2_lookup_l _ _ _ _ _ Hg He) as (e' & He' & _ & Ha).
  exists e'. auto.
Qed.

Lemma ext_NoDup L e e' :
  ext L e e' → NoDup (event_Area e) → NoDup (event_Area e').
Proof.
  intros [_ [->|[Hn ->]]] Hnd; [done|].
  apply NoDup_app. split; [done|]. split; [|apply NoDup_singleton].
  by intros A HA ->%list_elem_of_singleton.
Qed.

(** What one iteration of [for x in EVENTS] does. *)
Lemma seed_sound emap x events events' :
  seed emap x events = Ok events' →
  ∃ e, events !! x = Some e ∧
  match LimitedToArea e with
  | None => events' = events
  | Some A =>
      Forall2 (ext A) events events' ∧ tagged A events' x ∧
      (closed emap A events [] → closed emap A events' [])
  end.
Proof.
  unfold seed. intros (e & He & Hrun)%bind_Ok.
  unfold deref in He. destruct (events !! x) as [e0|] eqn:Hx; [|done].
  injection He as ->. exists e. split; [done|].
  destruct (LimitedToArea e) as [A|]; [|by injection Hrun].
  apply dfs_sound in Hrun as (Hext & Hclosed & Hstack).
  split; [done|]. split; [apply Hstack; left|].
  intros Hc. apply Hclosed. intros i j Hi Hij.
  destruct (Hc i j Hi Hij) as [?|?%elem_of_nil]; [by left|done].
Qed.

Lemma seed_grows emap x events events' :
  seed emap x events = Ok events' → Forall2 grows events events'.
Proof.
  intros (e & _ & Hs)%seed_sound. destruct (LimitedToArea e).
  - destruct Hs as (Hext & _). by eapply exts_grow.
  - by subst.
Qed.

Lemma seed_closed emap x events events' :
  seed emap x events = Ok events' →
  (∀ L, closed emap L events []) → ∀ L, closed emap L events' [].
Proof.
  intros (e & _ & Hs)%seed_sound Hc L. destruct (LimitedToArea e) as [A|].
  - destruct Hs as (Hext & _ & Hclosed).
    destruct (decide (L = A)) as [->|Hne]; [by apply Hclosed|].
    intros i j Hi Hij.
    apply (exts_tagged_other A L _ _ i Hne Hext) in Hi.
    apply (exts_edge emap A _ _ i j Hext) in Hij.
    destruct (Hc L i j Hi Hij) as [?|?%elem_of_nil]; [|done].
    left. by eapply exts_tagged.
  - by subst.
Qed.

Lemma seed_NoDup emap x events events' :
  seed emap x events = Ok events' →
  Forall (fun e => NoDup (event_Area e)) events →
  Forall (fun e => NoDup (event_Area e)) events'.
Proof.
  intros (e & _ & Hs)%seed_sound Hnd. destruct (LimitedToArea e) as [A|].
  - destruct Hs as (Hext & _). clear -Hext Hnd.
    induction Hext as [|e1 e2 l1 l2 He _ IH]; [done|].
    apply Forall_cons in Hnd as [? ?]. constructor; [by eapply ext_NoDup|auto].
  - by subst.
Qed.

Lemma seeds_grow emap xs events events' :
  for_each (seed emap) xs events = Ok events' → Forall2 grows events events'.
Proof.
  apply (for_each_invariant (fun t => Forall2 grows events t)); [|done].
  intros x t t' _ Ht Hseed. etrans; [done|]. by eapply seed_grows.
Qed.

(** Every seed of the loop ends up tagged with its own origin area. *)
Lemma seeds_tagged emap xs events events' :
  for_each (seed emap) xs events = Ok events' →
  ∀ x e A, x ∈ xs → events !! x = Some e → LimitedToArea e = Some A →
           tagged A events' x.
Proof.
  revert events. induction xs as [|y xs IH]; simpl; intros events Hrun x e A Hx;
    [by apply elem_of_nil in Hx|].
  apply bind_Ok in Hrun as (ev1 & Hseed & Hrun). intros He HA.
  pose proof (seed_grows _ _ _ _ Hseed) as Hg1.
  destruct (Forall2_lookup_l _ _ _ _ _ Hg1 He) as (e1 & He1 & Hs1 & _).
  apply elem_of_cons in Hx as [->|Hx].
  - apply seed_sound in Hseed as (e0 & He0 & Hs).
    assert (e0 = e) as -> by congruence. rewrite HA in Hs.
    destruct Hs as (_ & Htag & _).
    eapply grows_tagged; [by eapply seeds_grow|done].
  - eapply IH; [done..|].
    apply shape_fields in Hs1 as (_ & <- & _). done.
Qed.

Lemma seed_returns emap x events :
  (∀ k j, emap !! k = Some j → (j < length events)%nat) →
  (x < length events)%nat →
  seed emap x events ≠ NoResult.
Proof.
  intros Hmap Hx. unfold seed.
  destruct (lookup_lt_is_Some_2 events x Hx) as [e He].
  unfold deref. rewrite He. cbn [bind].
  destruct (LimitedToArea e) as [A|]; [|done].
  apply dfs_returns; [|by intros i ->%list_elem_of_singleton|done].
  pose proof (untagged_weight_le A events). unfold dfs_fuel.
  cbn [length]. lia.
Qed.

Lemma init_events_returns EVENTS : init_events EVENTS ≠ NoResult.
Proof.
  unfold init_events.
  set (emap := index_from event_Id 0 EVENTS ∅).
  set (events0 := set_Area [] <$> EVENTS).
  destruct (for_each (seed emap) (seq 0 (length events0)) events0)
    as [events| |] eqn:Hrun; simpl; [done..|].
  exfalso. revert Hrun.
  apply (for_each_total (fun t => length t = length EVENTS)).
  - intros x t Hx%elem_of_seq Ht. apply seed_returns.
    + intros k j (e & Hj & _)%index_valid. rewrite Ht. by eapply lookup_lt_Some.
    + unfold events0 in Hx. rewrite length_fmap in Hx. lia.
  - intros x t t' _ Ht Hseed. apply seed_grows, Forall2_length in Hseed. lia.
  - unfold events0. by rewrite length_fmap.
Qed.

Lemma init_events_sound EVENTS events emap :
  init_events EVENTS = Ok (events, emap) →
  emap = index_from event_Id 0 EVENTS ∅ ∧
  Forall2 grows (set_Area [] <$> EVENTS) events ∧
  (∀ L, closed emap L events []) ∧
  (∀ x e A, EVENTS !! x = Some e → LimitedToArea e = Some A →
            tagged A events x) ∧
  Forall (fun e => NoDup (event_Area e)) events.
Proof.
  unfold init_events. intros (events1 & Hrun & Heq)%bind_Ok.
  injection Heq as -> <-.
  set (emap := index_from event_Id 0 EVENTS ∅) in *.
  set (events0 := set_Area [] <$> EVENTS) in *.
  split; [done|]. split; [by eapply seeds_grow|]. split; [|split].
  - revert Hrun. apply (for_each_invariant (fun t => ∀ L, closed emap L t [])).
    + intros x t t' _ Ht Hseed. by eapply seed_closed.
    + intros L i j (e & He & Hin). unfold events0 in He.
      rewrite list_lookup_fmap in He.
      destruct (EVENTS !! i); [|done]. injection He as <-.
      by apply elem_of_nil in Hin.
  - intros x e A He HA.
    eapply (seeds_tagged _ _ _ _ Hrun x (set_Area [] e)); [| |done].
    + apply elem_of_seq. apply lookup_lt_Some in He.
      unfold events0. rewrite length_fmap. lia.
    + unfold events0. by rewrite list_lookup_fmap, He.
  - revert Hrun.
    apply (for_each_invariant
             (fun t => Forall (fun e => NoDup (event_Area e)) t)).
    + intros x t t' _ Ht Hseed. by eapply seed_NoDup.
    + unfold events0. apply Forall_fmap, Forall_true. intros e.
      apply NoDup_nil_2.
Qed.

(** A link of the input table is an edge of the final store. *)
Lemma links_to_edge EVENTS events i j :
  Forall2 grows (set_Area [] <$> EVENTS) events →
  links_to EVENTS i j →
  edge (index_from event_Id 0 EVENTS ∅) events i j.
Proof.
  intros Hg (e & o & link & He & Ho & Hl & Hres).
  assert ((set_Area [] <$> EVENTS) !! i = Some (set_Area [] e)) as He0
    by by rewrite list_lookup_fmap, He.
  destruct (Forall2_lookup_l _ _ _ _ _ Hg He0) as (e' & He' & Hs & _).
  exists e', o, link. split; [done|]. split.
  - rewrite <- (shape_outcomes (set_Area [] e) e') by done. done.
  - split; [done|]. by apply index_resolves.
Qed.

Lemma closed_rtc emap L events i j :
  closed emap L events [] → rtc (edge emap events) i j →
  tagged L events i → tagged L events j.
Proof.
  intros Hc. induction 1 as [|i k j Hik _ IH]; [done|].
  intros Hi. apply IH.
  destruct (Hc i k Hi Hik) as [?|?%elem_of_nil]; done.
Qed.

(** ** Claims on the area-reachability propagation *)

(** C1. When the propagation returns, every event that a chain of
    [LinkToEvent] references reaches from an event with the origin area [A]
    has [A] in its derived list. *)
Theorem reachable_events_tagged EVENTS events emap i j e1 A :
  init_events EVENTS = Ok (events, emap) →
  EVENTS !! i = Some e1 → LimitedToArea e1 = Some A →
  rtc (links_to EVENTS) i j →
  ∃ e2, events !! j = Some e2 ∧ A ∈ event_Area e2.
Proof.
  intros (-> & Hg & Hc & Hseed & _)%init_events_sound He1 HA Hreach.
  eapply (closed_rtc _ A events i j); [done| |by eapply Hseed].
  eapply rtc_subrel; [|done]. intros x y. by apply links_to_edge.
Qed.

Lemma cycle_links_0_1 : links_to cycle_events 0 1.
Proof.
  eexists _, (link_outcome 2), 2%Z. split; [done|].
  split; [by left|]. split; [done|].
  eexists. split; [done|]. split; [done|].
  intros [|[|j]] x' Hj Hx'; [lia..|done].
Qed.

Lemma reachable_events_tagged_witness :
  ∃ e2, [ mkEvent 1 None (Some 7%Z)
            [mkBranch (Some (link_outcome 2)) None None None] [7%Z];
          mkEvent 2 None None
            [mkBranch None (Some (link_outcome 1)) None None] [7%Z] ] !! 1%nat
        = Some e2 ∧ 7%Z ∈ event_Area e2.
Proof.
  eapply (reachable_events_tagged cycle_events _ _ 0 1 _ 7%Z).
  - vm_compute. reflexivity.
  - reflexivity.
  - reflexivity.
  - eapply rtc_l; [apply cycle_links_0_1|apply rtc_refl].
Defined.

(** C2. When the propagation returns, every event with an origin area [A]
    has [A] in its own derived list. *)
Theorem seed_event_tagged EVENTS events emap i e A :
  init_events EVENTS = Ok (events, emap) →
  EVENTS !! i = Some e → LimitedToArea e = Some A →
  ∃ e', events !! i = Some e' ∧ A ∈ event_Area e'.
Proof.
  intros (_ & _ & _ & Hseed & _)%init_events_sound He HA. by eapply Hseed.
Qed.

Lemma seed_event_tagged_witness :
  ∃ e', [ mkEvent 1 None (Some 7%Z)
            [mkBranch (Some (link_outcome 2)) None None None] [7%Z];
          mkEvent 2 None None
            [mkBranch None (Some (link_outcome 1)) None None] [7%Z] ] !! 0%nat
        = Some e' ∧ 7%Z ∈ event_Area e'.
Proof.
  eapply (seed_event_tagged cycle_events _ _ 0 _ 7%Z).
  - vm_compute. reflexivity.
  - reflexivity.
  - reflexivity.
Defined.

(** Unfolding one iteration of the [while] loop. *)
Lemma dfs_pop_tagged fuel emap L events r stack e :
  events !! r = Some e → L ∈ event_Area e →
  dfs (S fuel) emap L events (r :: stack) = dfs fuel emap L events stack.
Proof.
  intros He Hin. simpl. unfold deref. rewrite He. simpl.
  by rewrite bool_decide_eq_true_2.
Qed.

Lemma dfs_pop_untagged fuel emap L events r stack e stack1 :
  events !! r = Some e → L ∉ event_Area e →
  for_gen (push_link emap) (ForEachBranch e) stack = Ok stack1 →
  dfs (S fuel) emap L events (r :: stack)
  = dfs fuel emap L (<[r := set_Area (event_Area e ++ [L]) e]> events) stack1.
Proof.
  intros He Hin Hpush. simpl. unfold deref. rewrite He. simpl.
  rewrite bool_decide_eq_false_2 by done.
  change (ForEachBranch (set_Area (event_Area e ++ [L]) e))
    with (ForEachBranch e).
  by rewrite Hpush.
Qed.

Lemma cycle2_propagation id1 id2 A :
  id1 ≠ id2 →
  init_events (cycle2 id1 id2 A)
  = Ok ([ mkEvent id1 None (Some A)
            [mkBranch (Some (link_outcome id2)) None None None] [A];
          mkEvent id2 None None
            [mkBranch None (Some (link_outcome id1)) None None] [A] ],
        <[id2 := 1%nat]> (<[id1 := 0%nat]> ∅)).
Proof.
  intros Hne. unfold init_events, cycle2.
  cbn [index_from event_Id fmap list_fmap length seq for_each].
  set (emap := <[id2 := 1%nat]> (<[id1 := 0%nat]> (∅ : gmap Z nat))).
  assert (emap !! id1 = Some 0%nat) as Hm1.
  { unfold emap. rewrite lookup_insert_ne by done. apply lookup_insert_eq. }
  assert (emap !! id2 = Some 1%nat) as Hm2 by apply lookup_insert_eq.
  assert (∀ link r stack,
            emap !! link = Some r →
            for_gen (push_link emap) ([link_outcome link], None) stack
            = Ok (r :: stack)) as Hpush.
  { intros link r stack Hm. unfold for_gen, push_link, getitem. simpl.
    by rewrite Hm. }
  unfold seed at 1. cbn [deref lookup list_lookup bind LimitedToArea set_Area].
  change (dfs_fuel _) with 6%nat.
  erewrite dfs_pop_untagged;
    [|reflexivity|apply not_elem_of_nil|by apply Hpush].
  cbn [insert list_insert set_Area event_Area app event_Id event_Name
       LimitedToArea event_ChildBranches].
  erewrite dfs_pop_untagged;
    [|reflexivity|apply not_elem_of_nil|by apply Hpush].
  cbn [insert list_insert set_Area event_Area app event_Id event_Name
       LimitedToArea event_ChildBranches].
  erewrite dfs_pop_tagged; [|reflexivity|left].
  reflexivity.
Qed.

(** C3. The traversal returns on every event table, cycles or not; popping
    an event that already carries the origin area leaves the store as it
    is; no origin area is appended twice to a derived list; on a two-event
    cycle with one origin area both derived lists end up with exactly one
    element. *)
Theorem traversal_terminates :
  (∀ EVENTS, init_events EVENTS ≠ NoResult) ∧
  (∀ emap L events stack fuel,
     (∀ i, i ∈ stack → (i < length events)%nat) →
     (∀ k j, emap !! k = Some j → (j < length events)%nat) →
     (length stack + untagged_weight L events < fuel)%nat →
     dfs fuel emap L events stack ≠ NoResult) ∧
  (∀ fuel emap L events r stack e,
     events !! r = Some e → L ∈ event_Area e →
     dfs (S fuel) emap L events (r :: stack) = dfs fuel emap L events stack) ∧
  (∀ EVENTS events emap,
     init_events EVENTS = Ok (events, emap) →
     Forall (fun e => NoDup (event_Area e)) events) ∧
  (∀ id1 id2 A,
     id1 ≠ id2 →
     ∃ events emap,
       init_events (cycle2 id1 id2 A) = Ok (events, emap) ∧
       event_Area <$> events = [[A]; [A]]) ∧
  (∃ events emap,
     init_events cycle_events = Ok (events, emap) ∧
     event_Area <$> events = [[7%Z]; [7%Z]] ∧
     Forall (fun e => length (event_Area e) = 1%nat) events).
Proof.
  split; [apply init_events_returns|]. split; [|split; [|split; [|split]]].
  - intros. by apply dfs_returns.
  - apply dfs_pop_tagged.
  - by intros EVENTS events emap (_ & _ & _ & _ & ?)%init_events_sound.
  - intros id1 id2 A Hne. eexists _, _.
    split; [by apply cycle2_propagation|done].
  - eexists _, _. split; [vm_compute; reflexivity|].
    split; [reflexivity|]. by repeat constructor.
Qed.

Lemma traversal_terminates_witness :
  dfs 1 ∅ 7%Z [mkEvent 1 None (Some 7%Z) [] [7%Z]] [0%nat]
  = dfs 0 ∅ 7%Z [mkEvent 1 None (Some 7%Z) [] [7%Z]] [] ∧
  dfs 3 ∅ 7%Z [mkEvent 1 None (Some 7%Z) [] []] [0%nat] ≠ NoResult ∧
  (∃ events emap,
     init_events (cycle2 10 20 30) = Ok (events, emap) ∧
     event_Area <$> events = [[30%Z]; [30%Z]]) ∧
  Forall (fun e => NoDup (event_Area e))
    [ mkEvent 1 None (Some 7%Z)
        [mkBranch (Some (link_outcome 2)) None None None] [7%Z];
      mkEvent 2 None None
        [mkBranch None (Some (link_outcome 1)) None None] [7%Z] ].
Proof.
  destruct traversal_terminates as (_ & Hret & Hpop & Hnodup & Hcycle & _).
  split; [|split; [|split]].
  - eapply Hpop; [reflexivity|left].
  - apply Hret.
    + intros i ->%list_elem_of_singleton. simpl. lia.
    + intros k j Hk. by rewrite lookup_empty in Hk.
    + vm_compute. lia.
  - by apply Hcycle.
  - eapply (Hnodup cycle_events). vm_compute. reflexivity.
Defined.

(** ** The shop-availability aggregation *)

Lemma area_in_false areas area value :
  area_in areas area value = false → area ∉ value.
Proof.
  unfold area_in. induction value as [|r value IH]; simpl.
  - intros _. apply not_elem_of_nil.
  - intros [[Hr _]%orb_false_elim Hrest]%orb_false_elim.
    apply bool_decide_eq_false in Hr.
    apply not_elem_of_cons. split; [done|by apply IH].
Qed.

(** The four ways [AddShopInfo] ends. *)
Lemma AddShopInfo_cases areas group area sa sa' :
  AddShopInfo areas group area sa = Ok sa' →
  ∃ a, areas !! area = Some a ∧
  (sa' = sa ∨
   (area_Id a ≠ LIMBO ∧
    ∃ value, sa !! group_Id group = Some value ∧ (area ∉ value) ∧
             sa' = <[group_Id group := value ++ [area]]> sa)).
Proof.
  unfold AddShopInfo, deref, getitem.
  destruct (areas !! area) as [a|]; [|done]. simpl. intros Hrun.
  exists a. split; [done|].
  destruct (bool_decide (area_Id a = LIMBO)) eqn:Hl.
  { injection Hrun as <-. by left. }
  apply bool_decide_eq_false in Hl.
  destruct (sa !! group_Id group) as [value|] eqn:Hv; [|done]. simpl in Hrun.
  destruct (area_in areas area value) eqn:Hin; injection Hrun as <-;
    [by left|].
  right. split; [done|]. exists value. split; [done|].
  split; [by apply area_in_false in Hin|done].
Qed.

Lemma AddShopInfo_returns areas group area sa :
  is_Some (areas !! area) → AddShopInfo areas group area sa ≠ NoResult.
Proof.
  intros [a Ha]. unfold AddShopInfo, deref, getitem. rewrite Ha. simpl.
  destruct (bool_decide _); [done|].
  destruct (sa !! group_Id group); simpl; [|done].
  by destruct (area_in _ _ _).
Qed.

Lemma AddShopInfo_limbo_free areas group area sa sa' :
  limbo_free areas sa → AddShopInfo areas group area sa = Ok sa' →
  limbo_free areas sa'.
Proof.
  intros Hfree (a & Ha & [->|(Hl & value & Hv & _ & ->)])%AddShopInfo_cases;
    [done|].
  intros gid value' r a' Hlook Hr Ha'.
  destruct (decide (gid = group_Id group)) as [->|Hne].
  - rewrite lookup_insert_eq in Hlook. injection Hlook as <-.
    apply elem_of_app in Hr as [Hr| ->%list_elem_of_singleton].
    + by eapply Hfree.
    + congruence.
  - rewrite lookup_insert_ne in Hlook by done. by eapply Hfree.
Qed.

Lemma AddShopInfo_inv amap areas group area sa sa' :
  (∀ a, areas !! area = Some a → amap !! area_Id a = Some area) →
  shop_inv amap areas sa → AddShopInfo areas group area sa = Ok sa' →
  shop_inv amap areas sa'.
Proof.
  intros Hrep Hinv (a & Ha & [->|(Hl & value & Hv & Hnin & ->)])%AddShopInfo_cases;
    [done|].
  intros gid value' Hlook.
  destruct (decide (gid = group_Id group)) as [->|Hne].
  - rewrite lookup_insert_eq in Hlook. injection Hlook as <-.
    destruct (Hinv _ _ Hv) as [Hnd Hmem]. split.
    + apply NoDup_app. split; [done|]. split; [|apply NoDup_singleton].
      by intros r Hr ->%list_elem_of_singleton.
    + intros r [Hr| ->%list_elem_of_singleton]%elem_of_app; [by apply Hmem|].
      exists a. auto.
  - rewrite lookup_insert_ne in Hlook by done. by apply (Hinv gid).
Qed.

Lemma same_ids_refl areas : same_ids areas areas.
Proof. by apply Forall_Forall2_diag, Forall_true. Qed.

Lemma same_ids_trans areas1 areas2 areas3 :
  same_ids areas1 areas2 → same_ids areas2 areas3 → same_ids areas1 areas3.
Proof. apply Forall2_trans. congruence. Qed.

Lemma same_ids_insert areas r a a' :
  areas !! r = Some a → area_Id a' = area_Id a →
  same_ids areas (<[r:=a']> areas).
Proof.
  intros Ha Hid. unfold same_ids.
  rewrite <- (list_insert_id areas r a) at 1 by done.
  apply Forall2_insert; [apply same_ids_refl|done].
Qed.

Lemma same_ids_alter areas r f :
  (∀ a, area_Id (f a) = area_Id a) → same_ids areas (alter f r areas).
Proof.
  intros Hf. apply Forall2_alter_r; [apply same_ids_refl|].
  intros a a' _ _ ->. by rewrite Hf.
Qed.

Lemma same_ids_lookup areas areas' r a' :
  same_ids areas areas' → areas' !! r = Some a' →
  ∃ a, areas !! r = Some a ∧ area_Id a = area_Id a'.
Proof.
  intros Hs Ha'. destruct (Forall2_lookup_r _ _ _ _ _ Hs Ha') as (a & ? & ?).
  by exists a.
Qed.

Lemma same_ids_wf amap areas areas' :
  same_ids areas areas' → areas_wf amap areas → areas_wf amap areas'.
Proof.
  intros Hs Hwf k r Hk. destruct (Hwf k r Hk) as (a & Ha & Hid).
  destruct (Forall2_lookup_l _ _ _ _ _ Hs Ha) as (a' & Ha' & Hid').
  exists a'. split; [done|congruence].
Qed.

Lemma same_ids_shop_inv amap areas areas' sa :
  same_ids areas areas' → shop_inv amap areas sa → shop_inv amap areas' sa.
Proof.
  intros Hs Hinv gid value Hv. destruct (Hinv gid value Hv) as [Hnd Hmem].
  split; [done|]. intros r Hr. destruct (Hmem r Hr) as (a & Ha & Hl & Hrep).
  destruct (Forall2_lookup_l _ _ _ _ _ Hs Ha) as (a' & Ha' & Hid').
  exists a'. rewrite <- Hid'. auto.
Qed.

Section Aggregation.
Variable amap : gmap Z nat.
Variable settings_map : gmap Z ExchangeGroup.

Lemma static_port_sound port areas sa st' :
  areas_wf amap areas →
  static_port amap settings_map port (areas, sa) = Ok st' →
  ∃ area a,
    amap !! port_Area port = Some area ∧ areas !! area = Some a ∧
    st'.1 = <[area := set_Subsurface (Some (port_Subsurface port)) a]> areas ∧
    match settings_map !! port_Setting port with
    | None => st'.2 = sa
    | Some group => AddShopInfo st'.1 group area sa = Ok st'.2
    end.
Proof.
  intros Hwf. unfold static_port, getitem.
  destruct (amap !! port_Area port) as [area|] eqn:Harea; [|done]. simpl.
  destruct (Hwf _ _ Harea) as (a & Ha & Hid).
  unfold deref. rewrite Ha. simpl. intros Hrun.
  exists area, a. split; [done|]. split; [done|].
  destruct (settings_map !! port_Setting port) as [group|].
  - apply bind_Ok in Hrun as (sa' & Hadd & [= <-]). done.
  - by injection Hrun as <-.
Qed.

Lemma static_port_inv port st st' :
  static_inv amap st → static_port amap settings_map port st = Ok st' →
  static_inv amap st' ∧ same_ids st.1 st'.1.
Proof.
  destruct st as [areas sa]. intros [Hwf Hinv] Hrun.
  destruct (static_port_sound _ _ _ _ Hwf Hrun)
    as (area & a & Harea & Ha & Hst1 & Hst2).
  destruct st' as [areas' sa']. simpl in *. subst areas'.
  assert (same_ids areas
            (<[area := set_Subsurface (Some (port_Subsurface port)) a]> areas))
    as Hsame by by eapply same_ids_insert.
  split; [|done]. split; simpl; [by eapply same_ids_wf|].
  pose proof (same_ids_shop_inv _ _ _ _ Hsame Hinv) as Hinv'.
  destruct (settings_map !! port_Setting port) as [group|]; [|by subst].
  eapply AddShopInfo_inv; [|done..].
  intros a' Ha'. destruct (Hwf _ _ Harea) as (a0 & Ha0 & Hid).
  destruct (same_ids_lookup _ _ _ _ Hsame Ha') as (a1 & Ha1 & Hid1).
  assert (a1 = a0) as -> by congruence. congruence.
Qed.

Lemma static_port_returns port st :
  static_inv amap st → static_port amap settings_map port st ≠ NoResult.
Proof.
  destruct st as [areas sa]. intros [Hwf _]. simpl in Hwf.
  unfold static_port, getitem.
  destruct (amap !! port_Area port) as [area|] eqn:Harea; [|done]. simpl.
  destruct (Hwf _ _ Harea) as (a & Ha & Hid).
  unfold deref. rewrite Ha. simpl.
  destruct (settings_map !! port_Setting port) as [group|]; [|done].
  destruct (AddShopInfo _ group area sa) eqn:Hadd; simpl; [done..|].
  apply AddShopInfo_returns in Hadd; [done|].
  rewrite list_lookup_insert_eq by by eapply lookup_lt_Some. done.
Qed.

Lemma static_tile_inv tile st st' :
  static_inv amap st → static_tile amap settings_map tile st = Ok st' →
  static_inv amap st' ∧ same_ids st.1 st'.1.
Proof.
  unfold static_tile. destruct (Tiles tile) as [|entry0 _].
  { intros ? [= <-]. split; [done|apply same_ids_refl]. }
  intros Hinv.
  apply (for_each_invariant (fun t => static_inv amap t ∧ same_ids st.1 t.1)).
  - intros port t t' _ [Ht Hs] Hport.
    destruct (static_port_inv _ _ _ Ht Hport). split; [done|].
    by eapply same_ids_trans.
  - split; [done|apply same_ids_refl].
Qed.

Lemma static_tile_returns tile st :
  static_inv amap st → static_tile amap settings_map tile st ≠ NoResult.
Proof.
  unfold static_tile. destruct (Tiles tile) as [|entry0 _]; [done|].
  intros Hinv. apply (for_each_total (static_inv amap)); [| |done].
  - intros. by apply static_port_returns.
  - intros port t t' _ Ht Hport. by destruct (static_port_inv _ _ _ Ht Hport).
Qed.

Lemma static_tiles_inv tiles st st' :
  static_inv amap st →
  for_each (static_tile amap settings_map) tiles st = Ok st' →
  static_inv amap st' ∧ same_ids st.1 st'.1.
Proof.
  intros Hinv.
  apply (for_each_invariant (fun t => static_inv amap t ∧ same_ids st.1 t.1)).
  - intros tile t t' _ [Ht Hs] Htile.
    destruct (static_tile_inv _ _ _ Ht Htile). split; [done|].
    by eapply same_ids_trans.
  - split; [done|apply same_ids_refl].
Qed.

Lemma static_tiles_return tiles st :
  static_inv amap st →
  for_each (static_tile amap settings_map) tiles st ≠ NoResult.
Proof.
  intros Hinv. apply (for_each_total (static_inv amap)); [| |done].
  - intros. by apply static_tile_returns.
  - intros tile t t' _ Ht Htile. by destruct (static_tile_inv _ _ _ Ht Htile).
Qed.

Variable areas : list Area.
Hypothesis areas_ok : areas_wf amap areas.

Lemma dynamic_area_inv group area_id sa sa' :
  shop_inv amap areas sa →
  dynamic_area amap areas group area_id sa = Ok sa' →
  shop_inv amap areas sa'.
Proof.
  intros Hinv. unfold dynamic_area, getitem.
  destruct (amap !! area_id) as [area|] eqn:Harea; [|done]. simpl.
  apply AddShopInfo_inv; [|done].
  intros a Ha. destruct (areas_ok _ _ Harea) as (a0 & Ha0 & Hid). congruence.
Qed.

Lemma dynamic_area_returns group area_id sa :
  dynamic_area amap areas group area_id sa ≠ NoResult.
Proof.
  unfold dynamic_area, getitem.
  destruct (amap !! area_id) as [area|] eqn:Harea; [|done]. simpl.
  apply AddShopInfo_returns.
  destruct (areas_ok _ _ Harea) as (a0 & Ha0 & Hid). eauto.
Qed.

Lemma dynamic_outcome_inv event outcome sa sa' :
  shop_inv amap areas sa →
  dynamic_outcome amap settings_map areas event outcome sa = Ok sa' →
  shop_inv amap areas sa'.
Proof.
  intros Hinv. unfold dynamic_outcome.
  destruct (SwitchToSetting outcome) as [setting|]; [|by intros [= <-]].
  intros (group & _ & Hrun)%bind_Ok. revert Hrun.
  apply (for_each_invariant (shop_inv amap areas)); [|done].
  intros area_id t t' _. apply dynamic_area_inv.
Qed.

Lemma dynamic_outcome_returns event outcome sa :
  dynamic_outcome amap settings_map areas event outcome sa ≠ NoResult.
Proof.
  unfold dynamic_outcome, getitem.
  destruct (SwitchToSetting outcome) as [setting|]; [|done].
  destruct (settings_map !! setting) as [group|]; [|done]. simpl.
  apply (for_each_total (fun _ => True)); [|done..].
  intros. apply dynamic_area_returns.
Qed.

Lemma dynamic_event_inv event sa sa' :
  shop_inv amap areas sa →
  dynamic_event amap settings_map areas event sa = Ok sa' →
  shop_inv amap areas sa'.
Proof.
  intros Hinv [_ Hrun]%for_gen_Ok. revert Hrun.
  apply (for_each_invariant (shop_inv amap areas)); [|done].
  intros outcome t t' _. apply dynamic_outcome_inv.
Qed.

Lemma dynamic_event_returns event sa :
  dynamic_event amap settings_map areas event sa ≠ NoResult.
Proof.
  unfold dynamic_event, for_gen.
  destruct (for_each _ (ForEachBranch event).1 sa) eqn:Hrun; simpl.
  - by destruct (ForEachBranch event).2.
  - done.
  - exfalso. revert Hrun. apply (for_each_total (fun _ => True)); [|done..].
    intros. apply dynamic_outcome_returns.
Qed.

Lemma dynamic_events_inv events sa sa' :
  shop_inv amap areas sa →
  for_each (dynamic_event amap settings_map areas) events sa = Ok sa' →
  shop_inv amap areas sa'.
Proof.
  intros Hinv. apply (for_each_invariant (shop_inv amap areas)); [|done].
  intros event t t' _. apply dynamic_event_inv.
Qed.

Lemma dynamic_events_return events sa :
  for_each (dynamic_event amap settings_map areas) events sa ≠ NoResult.
Proof.
  apply (for_each_total (fun _ => True)); [|done..].
  intros. apply dynamic_event_returns.
Qed.
End Aggregation.

(** ** The join map and the area names *)

Lemma fold_left_invariant {A B} (I : A → Prop) (f : A → B → A) l a :
  (∀ a b, b ∈ l → I a → I (f a b)) → I a → I (fold_left f l a).
Proof.
  revert a. induction l as [|b l IH]; intros a Hf Ha; simpl; [done|].
  apply IH; [|apply Hf; [left|done]].
  intros a' b' ?. apply Hf. by right.
Qed.

Lemma init_groups_empty EXCHANGES gid value :
  (init_groups EXCHANGES).1 !! gid = Some value → value = [].
Proof.
  unfold init_groups. revert gid value.
  apply (fold_left_invariant
           (fun acc : gmap Z (list nat) * gmap Z ExchangeGroup =>
              ∀ gid value, acc.1 !! gid = Some value → value = [])).
  - intros [sa sm] group _ Hacc gid value. simpl.
    destruct (decide (gid = group_Id group)) as [->|Hne].
    + rewrite lookup_insert_eq. by intros [= <-].
    + rewrite lookup_insert_ne by done. apply Hacc.
  - intros gid value. simpl. by rewrite lookup_empty.
Qed.

(** A setting id that no group lists is not a key of the join map. *)
Lemma init_groups_no_setting EXCHANGES setting :
  (∀ group, group ∈ EXCHANGES → setting ∉ SettingIds group) →
  (init_groups EXCHANGES).2 !! setting = None.
Proof.
  unfold init_groups. intros Hno.
  apply (fold_left_invariant
           (fun acc : gmap Z (list nat) * gmap Z ExchangeGroup =>
              acc.2 !! setting = None)); [|done].
  intros [sa sm] group Hgroup Hacc. simpl in *.
  specialize (Hno group Hgroup). revert Hno.
  generalize (SettingIds group). intros ids Hno.
  apply (fold_left_invariant (fun sm' : gmap Z ExchangeGroup =>
                                sm' !! setting = None)); [|done].
  intros sm' id Hid Hsm'. rewrite lookup_insert_ne; [done|].
  intros ->. done.
Qed.

Lemma rename_sound amap id name areas areas' :
  rename amap id name areas = Ok areas' → same_ids areas areas'.
Proof.
  unfold rename. intros (r & _ & (a & _ & [= <-])%bind_Ok)%bind_Ok.
  by apply same_ids_alter.
Qed.

Lemma rename_returns amap id name areas :
  areas_wf amap areas → rename amap id name areas ≠ NoResult.
Proof.
  intros Hwf. unfold rename, getitem.
  destruct (amap !! id) as [r|] eqn:Hr; [|done]. simpl.
  destruct (Hwf _ _ Hr) as (a & Ha & _). unfold deref. by rewrite Ha.
Qed.

Lemma init_areas_wf0 AREAS :
  areas_wf (index_from area_Id 0 (set_Subsurface None <$> AREAS) ∅)
           (set_Subsurface None <$> AREAS).
Proof. intros k r Hk. by apply index_valid in Hk. Qed.

Lemma init_areas_sound AREAS areas amap :
  init_areas AREAS = Ok (areas, amap) → areas_wf amap areas.
Proof.
  unfold init_areas.
  intros (a1 & H1 & (a2 & H2 & (a3 & H3 & (a4 & H4 & [= <- <-])%bind_Ok)
          %bind_Ok)%bind_Ok)%bind_Ok.
  apply rename_sound in H1, H2, H3, H4.
  eapply same_ids_wf; [|apply init_areas_wf0].
  eapply same_ids_trans; [done|]. eapply same_ids_trans; [done|].
  by eapply same_ids_trans.
Qed.

Lemma init_areas_returns AREAS : init_areas AREAS ≠ NoResult.
Proof.
  unfold init_areas.
  set (areas0 := set_Subsurface None <$> AREAS).
  set (amap := index_from area_Id 0 areas0 ∅).
  pose proof (init_areas_wf0 AREAS) as Hwf0. fold areas0 amap in Hwf0.
  destruct (rename amap 100374 _ areas0) as [a1| |] eqn:H1; simpl;
    [|done|by apply rename_returns in H1].
  assert (areas_wf amap a1) as Hwf1
    by (eapply same_ids_wf; [by eapply rename_sound|done]).
  destruct (rename amap 101981 _ a1) as [a2| |] eqn:H2; simpl;
    [|done|by apply rename_returns in H2].
  assert (areas_wf amap a2) as Hwf2
    by (eapply same_ids_wf; [by eapply rename_sound|done]).
  destruct (rename amap 102000 _ a2) as [a3| |] eqn:H3; simpl;
    [|done|by apply rename_returns in H3].
  assert (areas_wf amap a3) as Hwf3
    by (eapply same_ids_wf; [by eapply rename_sound|done]).
  destruct (rename amap 102960 _ a3) as [a4| |] eqn:H4; simpl;
    [done|done|by apply rename_returns in H4].
Qed.

(** ** InitGlobals as a whole *)

Lemma init_shops_Ok amap areas events EXCHANGES TILES_DATA areas' sa' :
  init_shops amap areas events EXCHANGES TILES_DATA = Ok (areas', sa') →
  ∃ sa1,
    for_each (static_tile amap (init_groups EXCHANGES).2) TILES_DATA
             (areas, (init_groups EXCHANGES).1) = Ok (areas', sa1) ∧
    for_each (dynamic_event amap (init_groups EXCHANGES).2 areas') events sa1
      = Ok sa'.
Proof.
  unfold init_shops. destruct (init_groups EXCHANGES) as [sa0 sm]. simpl.
  intros ([areas1 sa1] & Hstatic & (sa2 & Hdyn & [= <- <-])%bind_Ok)%bind_Ok.
  by exists sa1.
Qed.

Lemma init_shops_sound amap areas events EXCHANGES TILES_DATA areas' sa' :
  areas_wf amap areas →
  init_shops amap areas events EXCHANGES TILES_DATA = Ok (areas', sa') →
  areas_wf amap areas' ∧ shop_inv amap areas' sa' ∧ same_ids areas areas'.
Proof.
  intros Hwf (sa1 & Hstatic & Hdyn)%init_shops_Ok.
  apply static_tiles_inv in Hstatic as [[Hwf1 Hinv1] Hsame].
  - simpl in *. split; [done|]. split; [|done].
    by eapply dynamic_events_inv.
  - split; simpl; [done|]. intros gid value ->%init_groups_empty.
    split; [apply NoDup_nil_2|]. by intros r ?%elem_of_nil.
Qed.

Lemma init_shops_returns amap areas events EXCHANGES TILES_DATA :
  areas_wf amap areas →
  init_shops amap areas events EXCHANGES TILES_DATA ≠ NoResult.
Proof.
  intros Hwf. unfold init_shops.
  pose proof (init_groups_empty EXCHANGES) as Hempty.
  destruct (init_groups EXCHANGES) as [sa0 sm]. simpl in Hempty.
  assert (static_inv amap (areas, sa0)) as Hinv0.
  { split; simpl; [done|]. intros gid value ->%Hempty.
    split; [apply NoDup_nil_2|]. by intros r ?%elem_of_nil. }
  destruct (for_each (static_tile amap sm) TILES_DATA (areas, sa0))
    as [[areas1 sa1]| |] eqn:Hstatic; simpl;
    [|done|by apply static_tiles_return in Hstatic].
  apply static_tiles_inv in Hstatic as [[Hwf1 _] _]; [|done]. simpl in Hwf1.
  destruct (for_each (dynamic_event amap sm areas1) events sa1)
    as [sa2| |] eqn:Hdyn; simpl; [done..|].
  by apply dynamic_events_return in Hdyn.
Qed.

Lemma InitGlobals_Ok AREAS QUALITIES EVENTS EXCHANGES TILES_DATA g :
  InitGlobals AREAS QUALITIES EVENTS EXCHANGES TILES_DATA = Ok g →
  ∃ areas0,
    init_areas AREAS = Ok (areas0, AREAS_MAP g) ∧
    init_events EVENTS = Ok (g_EVENTS g, EVENTS_MAP g) ∧
    init_shops (AREAS_MAP g) areas0 (g_EVENTS g) EXCHANGES TILES_DATA
      = Ok (g_AREAS g, SHOP_AREAS g).
Proof.
  unfold InitGlobals.
  intros ([areas0 amap] & Hareas & Hrun)%bind_Ok.
  destruct (init_qualities QUALITIES) as [qmap bad].
  apply bind_Ok in Hrun as ([events emap] & Hevents & Hrun).
  apply bind_Ok in Hrun as ([areas sa] & Hshops & [= <-]).
  by exists areas0.
Qed.

Lemma InitGlobals_sound AREAS QUALITIES EVENTS EXCHANGES TILES_DATA g :
  InitGlobals AREAS QUALITIES EVENTS EXCHANGES TILES_DATA = Ok g →
  areas_wf (AREAS_MAP g) (g_AREAS g) ∧
  shop_inv (AREAS_MAP g) (g_AREAS g) (SHOP_AREAS g).
Proof.
  intros (areas0 & Hareas & _ & Hshops)%InitGlobals_Ok.
  apply init_areas_sound in Hareas.
  by destruct (init_shops_sound _ _ _ _ _ _ _ Hareas Hshops) as (? & ? & _).
Qed.

(** [InitGlobals] returns or raises: the model never runs out of fuel and
    never follows a reference out of its store. *)
Lemma InitGlobals_returns AREAS QUALITIES EVENTS EXCHANGES TILES_DATA :
  InitGlobals AREAS QUALITIES EVENTS EXCHANGES TILES_DATA ≠ NoResult.
Proof.
  unfold InitGlobals.
  destruct (init_areas AREAS) as [[areas0 amap]| |] eqn:Hareas; simpl;
    [|done|by apply init_areas_returns in Hareas].
  destruct (init_qualities QUALITIES) as [qmap bad].
  destruct (init_events EVENTS) as [[events emap]| |] eqn:Hevents; simpl;
    [|done|by apply init_events_returns in Hevents].
  destruct (init_shops amap areas0 events EXCHANGES TILES_DATA)
    as [[areas sa]| |] eqn:Hshops; simpl; [done..|].
  apply init_shops_returns in Hshops; [done|]. by eapply init_areas_sound.
Qed.

Lemma for_each_each {A S} (body : A → S → res S) ys s s' y :
  for_each body ys s = Ok s' → y ∈ ys → ∃ t t', body y t = Ok t'.
Proof.
  revert s. induction ys as [|z ys IH]; simpl; intros s Hrun Hy;
    [by apply elem_of_nil in Hy|].
  apply bind_Ok in Hrun as (t & Hz & Hrun).
  apply elem_of_cons in Hy as [->|Hy]; [by exists s, t|by eapply IH].
Qed.

(** When [InitGlobals] returns, its second pass has walked every event of
    the table to the end. *)
Lemma InitGlobals_walks_events AREAS QUALITIES EVENTS EXCHANGES TILES_DATA g
    event :
  InitGlobals AREAS QUALITIES EVENTS EXCHANGES TILES_DATA = Ok g →
  event ∈ EVENTS →
  ∃ event' t t',
    shape event = shape event' ∧
    dynamic_event (AREAS_MAP g) (init_groups EXCHANGES).2 (g_AREAS g)
                  event' t = Ok t'.
Proof.
  intros (areas0 & _ & Hevents & Hshops)%InitGlobals_Ok
         [i Hi]%list_elem_of_lookup_1.
  apply init_events_sound in Hevents as (_ & Hg & _).
  apply init_shops_Ok in Hshops as (sa1 & _ & Hdyn).
  assert ((set_Area [] <$> EVENTS) !! i = Some (set_Area [] event)) as Hi0
    by by rewrite list_lookup_fmap, Hi.
  destruct (Forall2_lookup_l _ _ _ _ _ Hg Hi0) as (event' & Hi' & Hs & _).
  destruct (for_each_each _ _ _ _ event' Hdyn) as (t & t' & Hrun);
    [by eapply list_elem_of_lookup_2|].
  by exists event', t, t'.
Qed.

(** ** Claims on the shop-availability aggregation *)

(** C4. Every append of [AddShopInfo] keeps the lists of [SHOP_AREAS] free of
    the Limbo area, and when [InitGlobals] returns, every reference of every
    list of [SHOP_AREAS] is an area whose id is not Limbo's. *)
Theorem shop_areas_exclude_limbo :
  (∀ areas group area sa sa',
     limbo_free areas sa → AddShopInfo areas group area sa = Ok sa' →
     limbo_free areas sa') ∧
  (∀ AREAS QUALITIES EVENTS EXCHANGES TILES_DATA g gid value r,
     InitGlobals AREAS QUALITIES EVENTS EXCHANGES TILES_DATA = Ok g →
     SHOP_AREAS g !! gid = Some value → r ∈ value →
     ∃ a, g_AREAS g !! r = Some a ∧ area_Id a ≠ LIMBO).
Proof.
  split; [apply AddShopInfo_limbo_free|].
  intros AREAS QUALITIES EVENTS EXCHANGES TILES_DATA g gid value r
         [_ Hinv]%InitGlobals_sound Hv Hr.
  destruct (Hinv gid value Hv) as [_ Hmem].
  destruct (Hmem r Hr) as (a & Ha & Hl & _). eauto.
Qed.

Lemma shop_areas_exclude_limbo_witness :
  limbo_free [mkArea 7 None None] (<[5%Z := [0%nat]]> ∅) ∧
  ∃ g, InitGlobals fixture_areas [] fixture_events fixture_exchanges
                   fixture_tiles = Ok g ∧
       SHOP_AREAS g !! 5%Z = Some [4%nat] ∧
       ∃ a, g_AREAS g !! 4%nat = Some a ∧ area_Id a ≠ LIMBO.
Proof.
  destruct shop_areas_exclude_limbo as [Hadd Hfinal]. split.
  - apply (Hadd [mkArea 7 None None] (mkExchangeGroup 5 None [] []) 0%nat
                (<[5%Z := []]> ∅)).
    + intros gid value r a Hv Hr _.
      destruct (decide (gid = 5%Z)) as [->|Hne].
      * rewrite lookup_insert_eq in Hv. injection Hv as <-.
        by apply elem_of_nil in Hr.
      * by rewrite lookup_insert_ne, lookup_empty in Hv.
    + vm_compute. reflexivity.
  - assert (∃ g, InitGlobals fixture_areas [] fixture_events fixture_exchanges
                             fixture_tiles = Ok g ∧
                 SHOP_AREAS g !! 5%Z = Some [4%nat]) as (g & Hg & Hs).
    { eexists. split; [vm_compute; reflexivity|vm_compute; reflexivity]. }
    exists g. split; [done|]. split; [done|].
    eapply Hfinal; [exact Hg|exact Hs|left].
Defined.

(** C5. When [InitGlobals] returns, no list of [SHOP_AREAS] holds an area
    twice: neither the same reference at two positions, nor two references
    to areas with the same content. *)
Theorem shop_areas_duplicate_free
    AREAS QUALITIES EVENTS EXCHANGES TILES_DATA g gid value :
  InitGlobals AREAS QUALITIES EVENTS EXCHANGES TILES_DATA = Ok g →
  SHOP_AREAS g !! gid = Some value →
  NoDup value ∧
  ∀ i j ri rj a, value !! i = Some ri → value !! j = Some rj →
                 g_AREAS g !! ri = Some a → g_AREAS g !! rj = Some a →
                 i = j.
Proof.
  intros [_ Hinv]%InitGlobals_sound Hv.
  destruct (Hinv gid value Hv) as [Hnd Hmem]. split; [done|].
  intros i j ri rj a Hi Hj Hai Haj.
  destruct (Hmem ri) as (ai & Hai' & _ & Hrepi);
    [by eapply list_elem_of_lookup_2|].
  destruct (Hmem rj) as (aj & Haj' & _ & Hrepj);
    [by eapply list_elem_of_lookup_2|].
  assert (ai = a) as -> by congruence. assert (aj = a) as -> by congruence.
  assert (ri = rj) as -> by congruence.
  by eapply NoDup_lookup.
Qed.

Lemma shop_areas_duplicate_free_witness :
  ∃ g, InitGlobals fixture_areas [] fixture_events fixture_exchanges
                   fixture_tiles = Ok g ∧
       NoDup [4%nat] ∧
       ∀ i j ri rj a, [4%nat] !! i = Some ri → [4%nat] !! j = Some rj →
                      g_AREAS g !! ri = Some a → g_AREAS g !! rj = Some a →
                      i = j.
Proof.
  assert (∃ g, InitGlobals fixture_areas [] fixture_events fixture_exchanges
                           fixture_tiles = Ok g ∧
               SHOP_AREAS g !! 5%Z = Some [4%nat]) as (g & Hg & Hs).
  { eexists. split; [vm_compute; reflexivity|vm_compute; reflexivity]. }
  exists g. split; [done|].
  exact (shop_areas_duplicate_free _ _ _ _ _ g 5%Z [4%nat] Hg Hs).
Defined.

(** ** Claim on the event branch walker *)

(** C6. If an outcome of the event carries branches, [ForEachBranch] raises
    the [RuntimeError] that names the event's id and the branches of such an
    outcome, and [InitGlobals] on a table with that event raises; if no
    outcome of the event carries branches, [ForEachBranch] yields all of
    them and raises nothing. *)
Theorem nested_branch_is_fatal :
  (∀ event,
     Exists nested (outcomes_of event) →
     ∃ o, o ∈ outcomes_of event ∧ nested o ∧
          (ForEachBranch event).2 =
            Some (RuntimeError
                    (NestedBranch (event_Id event) (outcome_ChildBranches o)))) ∧
  (∀ event,
     Forall (fun o => ¬ nested o) (outcomes_of event) →
     ForEachBranch event = (outcomes_of event, None)) ∧
  (∀ AREAS QUALITIES EVENTS EXCHANGES TILES_DATA event,
     event ∈ EVENTS → Exists nested (outcomes_of event) →
     ∃ err, InitGlobals AREAS QUALITIES EVENTS EXCHANGES TILES_DATA
            = Raise err).
Proof.
  split; [|split].
  - intros event Hex. rewrite ForEachBranch_spec.
    by apply yield_until_nested_raises.
  - intros event Hall. rewrite ForEachBranch_spec.
    by apply yield_until_nested_clean.
  - intros AREAS QUALITIES EVENTS EXCHANGES TILES_DATA event Hin Hex.
    destruct (InitGlobals AREAS QUALITIES EVENTS EXCHANGES TILES_DATA)
      as [g|err|] eqn:Hrun; [|by exists err|by apply InitGlobals_returns in Hrun].
    exfalso.
    destruct (InitGlobals_walks_events _ _ _ _ _ _ _ Hrun Hin)
      as (event' & t & t' & Hs & Hdyn).
    apply for_gen_Ok in Hdyn as [Hnone _].
    rewrite <- (shape_ForEachBranch event event'), ForEachBranch_spec in Hnone
      by done.
    destruct (yield_until_nested_raises (event_Id event) _ Hex)
      as (o & _ & _ & Hsome).
    congruence.
Qed.

Lemma nested_branch_is_fatal_witness :
  (ForEachBranch nested_event).2 =
    Some (RuntimeError (NestedBranch 3 [mkBranch None None None None])) ∧
  ForEachBranch (mkEvent 1 None None
                   [mkBranch (Some (switch_outcome 50)) None None None] [])
  = ([switch_outcome 50], None) ∧
  ∃ err, InitGlobals fixture_areas [] [nested_event] fixture_exchanges
                     fixture_tiles = Raise err.
Proof.
  destruct nested_branch_is_fatal as (Hraise & Hclean & Hfatal).
  assert (Exists nested (outcomes_of nested_event)) as Hex.
  { right. left. by vm_compute. }
  split; [|split].
  - destruct (Hraise nested_event Hex) as (o & Ho & Hn & ->).
    vm_compute in Ho.
    apply elem_of_cons in Ho as [->|Ho]; [by destruct Hn|].
    apply list_elem_of_singleton in Ho as ->. reflexivity.
  - apply (Hclean (mkEvent 1 None None
                     [mkBranch (Some (switch_outcome 50)) None None None] [])).
    repeat constructor. by intros Hn.
  - by apply (Hfatal _ _ _ _ _ nested_event); [left|].
Defined.

(** ** Claim on a setting id of no group *)

(** C10. A port whose setting id is not a key of the join map is skipped:
    the first pass sets the subsurface flag of its area, leaves [SHOP_AREAS]
    as it is and raises nothing.  An outcome whose [SwitchToSetting] is not a
    key of the join map raises [KeyError] in the second pass, and
    [InitGlobals] on a table holding such an outcome, for a setting id that
    no group lists, raises. *)
Theorem unknown_setting_asymmetry :
  (∀ amap settings_map port areas sa area a,
     amap !! port_Area port = Some area → areas !! area = Some a →
     settings_map !! port_Setting port = None →
     static_port amap settings_map port (areas, sa)
     = Ok (<[area := set_Subsurface (Some (port_Subsurface port)) a]> areas,
           sa)) ∧
  (∀ amap settings_map areas event outcome sa setting,
     SwitchToSetting outcome = Some setting →
     settings_map !! setting = None →
     dynamic_outcome amap settings_map areas event outcome sa
     = Raise (KeyError setting)) ∧
  (∀ AREAS QUALITIES EVENTS EXCHANGES TILES_DATA event outcome setting,
     event ∈ EVENTS → outcome ∈ outcomes_of event →
     SwitchToSetting outcome = Some setting →
     (∀ group, group ∈ EXCHANGES → setting ∉ SettingIds group) →
     ∃ err, InitGlobals AREAS QUALITIES EVENTS EXCHANGES TILES_DATA
            = Raise err).
Proof.
  split; [|split].
  - intros amap settings_map port areas sa area a Harea Ha Hnone.
    unfold static_port, getitem, deref. rewrite Harea. simpl.
    rewrite Ha. simpl. by rewrite Hnone.
  - intros amap settings_map areas event outcome sa setting Hs Hnone.
    unfold dynamic_outcome, getitem. by rewrite Hs, Hnone.
  - intros AREAS QUALITIES EVENTS EXCHANGES TILES_DATA event outcome setting
           Hin Ho Hs Hno.
    destruct (InitGlobals AREAS QUALITIES EVENTS EXCHANGES TILES_DATA)
      as [g|err|] eqn:Hrun; [|by exists err|by apply InitGlobals_returns in Hrun].
    exfalso.
    destruct (InitGlobals_walks_events _ _ _ _ _ _ _ Hrun Hin)
      as (event' & t & t' & Hshape & Hdyn).
    apply for_gen_Ok in Hdyn as [Hnone Hdyn].
    rewrite ForEachBranch_spec in Hnone, Hdyn.
    apply yield_until_nested_no_exn in Hnone as [Hys _]. rewrite Hys in Hdyn.
    rewrite <- (shape_outcomes event event') in Hdyn by done.
    destruct (for_each_each _ _ _ _ outcome Hdyn Ho) as (u & u' & Hout).
    unfold dynamic_outcome, getitem in Hout.
    by rewrite Hs, (init_groups_no_setting EXCHANGES setting Hno) in Hout.
Qed.

Lemma unknown_setting_asymmetry_witness :
  static_port (<[7%Z := 0%nat]> ∅) ∅ (mkPort 7 true 51)
              ([mkArea 7 None None], ∅)
  = Ok ([mkArea 7 None (Some true)], ∅) ∧
  dynamic_outcome ∅ ∅ [] nested_event (switch_outcome 51) ∅
  = Raise (KeyError 51) ∧
  InitGlobals fixture_areas [] fixture_events_unknown_setting
              fixture_exchanges fixture_tiles = Raise (KeyError 51).
Proof.
  destruct unknown_setting_asymmetry as (Hstatic & Hdynamic & Hrun).
  split; [|split].
  - by apply (Hstatic (<[7%Z := 0%nat]> ∅) ∅ (mkPort 7 true 51)
                      [mkArea 7 None None] ∅ 0%nat (mkArea 7 None None)).
  - by apply Hdynamic.
  - destruct (Hrun fixture_areas [] fixture_events_unknown_setting
                   fixture_exchanges fixture_tiles
                   (mkEvent 2 None (Some 7%Z)
                      [mkBranch None None (Some (switch_outcome 51)) None] [])
                   (switch_outcome 51) 51%Z) as [err Herr].
    + right. left.
    + left.
    + reflexivity.
    + intros group ->%list_elem_of_singleton.
      by intros ?%list_elem_of_singleton.
    + rewrite Herr. vm_compute in Herr. by injection Herr as <-.
Defined.

(** ** The fuzzy lookup *)

Section FuzzyLookupFacts.
Context {A : Type} `{Entity A} `{Builtins}.

Lemma find_id_spec idd (lst : list A) :
  find_id idd lst =
  match List.find (fun x => bool_decide (ID x = idd)) lst with
  | Some x => Ok x
  | None => Raise (RuntimeError (IdNotFound idd))
  end.
Proof.
  induction lst as [|x lst IH]; simpl; [done|].
  by destruct (bool_decide (ID x = idd)).
Qed.

Lemma match_names_exact token insensitive (l1 l2 : list A) x matches :
  display_name x = token →
  (∀ y, y ∈ l1 → display_name y ≠ token) →
  match_names token insensitive (l1 ++ x :: l2) matches = Ok x.
Proof.
  intros Hx. revert matches.
  induction l1 as [|y l1 IH]; intros matches Hl1; simpl.
  - unfold display_name in Hx. by rewrite bool_decide_eq_true_2.
  - rewrite bool_decide_eq_false_2.
    + destruct (contains _ _); apply IH; intros z Hz; apply Hl1; by right.
    + intros Heq. by apply (Hl1 y); [left|].
Qed.

Lemma match_names_filter token (lst : list A) matches :
  (∀ x, x ∈ lst → display_name x ≠ token) →
  match_names token (islower token) lst matches =
  match_names token (islower token) [] (matches ++ name_matches token lst).
Proof.
  revert matches. induction lst as [|x lst IH]; intros matches Hne.
  - unfold name_matches. simpl. by rewrite app_nil_r.
  - change (match_names token (islower token) (x :: lst) matches) with
      (let name := default ""%string (NAME x) in
       if bool_decide (token = name) then Ok x
       else
         let name := if islower token then lower name else name in
         if contains token name
         then match_names token (islower token) lst (matches ++ [x])
         else match_names token (islower token) lst matches).
    cbv zeta. rewrite bool_decide_eq_false_2.
    2:{ intros Heq. by apply (Hne x); [left|]. }
    unfold name_matches. cbn [List.filter]. unfold folded_name, display_name.
    destruct (contains token _) eqn:Hc.
    + rewrite IH by (intros z Hz; apply Hne; by right).
      unfold name_matches, folded_name, display_name.
      by rewrite <- app_assoc.
    + rewrite IH by (intros z Hz; apply Hne; by right). done.
Qed.
End FuzzyLookupFacts.

(** C7. For a token that is no integer, the first entity whose name equals
    the token is returned, whatever the names of the entities before and
    after it contain; so is the entity named Fathom next to one named
    Fathom King, in either order. *)
Theorem exact_name_wins :
  (∀ (B : Builtins) (A : Type) (E : Entity A) token (l1 l2 : list A) x,
     int token = None →
     NAME x = Some token →
     (∀ y, y ∈ l1 → display_name y ≠ token) →
     FuzzyLookupItem token (l1 ++ x :: l2) = Ok x) ∧
  (∀ B : Builtins,
     int "Fathom" = None →
     FuzzyLookupItem "Fathom"
       [mkArea 1 (Some "Fathom"%string) None;
        mkArea 2 (Some "Fathom King"%string) None]
     = Ok (mkArea 1 (Some "Fathom"%string) None) ∧
     FuzzyLookupItem "Fathom"
       [mkArea 2 (Some "Fathom King"%string) None;
        mkArea 1 (Some "Fathom"%string) None]
     = Ok (mkArea 1 (Some "Fathom"%string) None)).
Proof.
  assert (∀ (B : Builtins) (A : Type) (E : Entity A) token (l1 l2 : list A) x,
            int token = None →
            NAME x = Some token →
            (∀ y, y ∈ l1 → display_name y ≠ token) →
            FuzzyLookupItem token (l1 ++ x :: l2) = Ok x) as Hgen.
  { intros B A E token l1 l2 x Hint Hx Hl1. unfold FuzzyLookupItem.
    rewrite Hint. apply match_names_exact; [|done].
    unfold display_name. by rewrite Hx. }
  split; [done|]. intros B Hint. split.
  - apply (Hgen B Area _ "Fathom"%string []
             [mkArea 2 (Some "Fathom King"%string) None]
             (mkArea 1 (Some "Fathom"%string) None)); [done..|].
    by intros y ?%elem_of_nil.
  - apply (Hgen B Area _ "Fathom"%string
             [mkArea 2 (Some "Fathom King"%string) None]
             [] (mkArea 1 (Some "Fathom"%string) None)); [done..|].
    by intros y ->%list_elem_of_singleton.
Qed.

Lemma exact_name_wins_witness :
  FuzzyLookupItem "Zee"
    ([mkArea 2 (Some "Zee Monster"%string) None]
     ++ mkArea 1 (Some "Zee"%string) None
     :: [mkArea 3 (Some "Zee Bat"%string) None])
  = Ok (mkArea 1 (Some "Zee"%string) None).
Proof.
  apply (proj1 exact_name_wins ascii_builtins).
  - reflexivity.
  - reflexivity.
  - intros y ->%list_elem_of_singleton. by vm_compute.
Defined.

(** C8. For a token that is no integer and equals no entity's name, the
    entities whose name contains the token are collected, the names folded
    to lower case when the token is in lower case and taken as they are
    otherwise: one match is returned, none raises the error that names the
    token, several raise the error that lists the names of all of them.  So
    the token abc against ABC Shop and abcdef fails with both names, and
    the token Abc finds the one name that contains it as written. *)
Theorem substring_lookup :
  (∀ (B : Builtins) (A : Type) (E : Entity A) token (lst : list A),
     int token = None →
     (∀ x, x ∈ lst → display_name x ≠ token) →
     (∀ m, name_matches token lst = [m] →
           FuzzyLookupItem token lst = Ok m) ∧
     (name_matches token lst = [] →
      FuzzyLookupItem token lst = Raise (RuntimeError (NoNameContaining token))) ∧
     ((2 ≤ length (name_matches token lst))%nat →
      FuzzyLookupItem token lst =
        Raise (RuntimeError
                 (MultipleMatches token (NAME <$> name_matches token lst))))) ∧
  (∀ B : Builtins,
     int "abc" = None → islower "abc" = true →
     lower "ABC Shop" = "abc shop"%string → lower "abcdef" = "abcdef"%string →
     FuzzyLookupItem "abc"
       [mkArea 1 (Some "ABC Shop"%string) None;
        mkArea 2 (Some "abcdef"%string) None]
     = Raise (RuntimeError
                (MultipleMatches "abc"
                   [Some "ABC Shop"; Some "abcdef"]%string))) ∧
  (∀ B : Builtins,
     int "Abc" = None → islower "Abc" = false →
     FuzzyLookupItem "Abc"
       [mkArea 1 (Some "ABC Shop"%string) None;
        mkArea 2 (Some "Abcdef"%string) None;
        mkArea 3 (Some "abcdef"%string) None]
     = Ok (mkArea 2 (Some "Abcdef"%string) None)).
Proof.
  assert (∀ (B : Builtins) (A : Type) (E : Entity A) token (lst : list A),
     int token = None →
     (∀ x, x ∈ lst → display_name x ≠ token) →
     (∀ m, name_matches token lst = [m] →
           FuzzyLookupItem token lst = Ok m) ∧
     (name_matches token lst = [] →
      FuzzyLookupItem token lst = Raise (RuntimeError (NoNameContaining token))) ∧
     ((2 ≤ length (name_matches token lst))%nat →
      FuzzyLookupItem token lst =
        Raise (RuntimeError
                 (MultipleMatches token (NAME <$> name_matches token lst)))))
    as Hgen.
  { intros B A E token lst Hint Hne. unfold FuzzyLookupItem. rewrite Hint.
    rewrite match_names_filter by done. simpl.
    split; [|split].
    - by intros m ->.
    - by intros ->.
    - intros Hlen. destruct (name_matches token lst) as [|m1 [|m2 ms]];
        simpl in Hlen; [lia..|done]. }
  split; [done|]. split.
  - intros B Hint Hlow H1 H2.
    destruct (Hgen B Area _ "abc"%string
                [mkArea 1 (Some "ABC Shop"%string) None;
                 mkArea 2 (Some "abcdef"%string) None] Hint)
      as (_ & _ & Hmany).
    { intros x [->|[->|[]%elem_of_nil]%elem_of_cons]%elem_of_cons; done. }
    assert (name_matches "abc"
              [mkArea 1 (Some "ABC Shop"%string) None;
               mkArea 2 (Some "abcdef"%string) None]
            = [mkArea 1 (Some "ABC Shop"%string) None;
               mkArea 2 (Some "abcdef"%string) None]) as Hm.
    { unfold name_matches, folded_name, display_name.
      cbn [List.filter NAME Area_Entity area_Name default from_option id].
      by rewrite Hlow, H1, H2. }
    rewrite Hm in Hmany. apply Hmany. simpl. lia.
  - intros B Hint Hlow.
    destruct (Hgen B Area _ "Abc"%string
                [mkArea 1 (Some "ABC Shop"%string) None;
                 mkArea 2 (Some "Abcdef"%string) None;
                 mkArea 3 (Some "abcdef"%string) None] Hint)
      as (Hone & _ & _).
    { intros x
        [->|[->|[->|[]%elem_of_nil]%elem_of_cons]%elem_of_cons]%elem_of_cons;
        done. }
    apply Hone. unfold name_matches, folded_name, display_name.
    cbn [List.filter NAME Area_Entity area_Name default from_option id].
    by rewrite Hlow.
Qed.

Lemma substring_lookup_witness :
  FuzzyLookupItem "king"
    [mkArea 1 (Some "Fathom King"%string) None;
     mkArea 2 (Some "Fathom"%string) None]
  = Ok (mkArea 1 (Some "Fathom King"%string) None) ∧
  FuzzyLookupItem "queen"
    [mkArea 1 (Some "Fathom King"%string) None;
     mkArea 2 (Some "Fathom"%string) None]
  = Raise (RuntimeError (NoNameContaining "queen")) ∧
  FuzzyLookupItem "fathom"
    [mkArea 1 (Some "Fathom King"%string) None;
     mkArea 2 (Some "Fathom"%string) None]
  = Raise (RuntimeError
             (MultipleMatches "fathom" [Some "Fathom King"; Some "Fathom"]%string)).
Proof.
  destruct substring_lookup as (Hgen & _).
  assert (∀ token : string,
            token ≠ "Fathom King"%string → token ≠ "Fathom"%string →
            ∀ x, x ∈ [mkArea 1 (Some "Fathom King"%string) None;
                      mkArea 2 (Some "Fathom"%string) None] →
                 display_name x ≠ token) as Hne.
  { intros token H1 H2 x [->|[->|[]%elem_of_nil]%elem_of_cons]%elem_of_cons;
      unfold display_name; simpl; congruence. }
  split; [|split].
  - refine (proj1 (Hgen ascii_builtins Area _ "king"%string _ _ _) _ _);
      [reflexivity|by apply Hne|reflexivity].
  - refine (proj1 (proj2 (Hgen ascii_builtins Area _ "queen"%string _ _ _)) _);
      [reflexivity|by apply Hne|reflexivity].
  - refine (proj2 (proj2 (Hgen ascii_builtins Area _ "fathom"%string _ _ _)) _);
      [reflexivity|by apply Hne|vm_compute; lia].
Defined.

(** C9. For a token that parses as the integer [idd], the lookup returns the
    first entity with the id [idd] and otherwise raises the error that names
    [idd]; the names of the entities play no part, not even a name that is
    the token itself. *)
Theorem integer_token_lookup :
  (∀ (B : Builtins) (A : Type) (E : Entity A) token idd (lst : list A),
     int token = Some idd →
     FuzzyLookupItem token lst =
     match List.find (fun x => bool_decide (ID x = idd)) lst with
     | Some x => Ok x
     | None => Raise (RuntimeError (IdNotFound idd))
     end) ∧
  (∀ (B : Builtins) (A : Type) (E : Entity A) token idd (lst : list A),
     int token = Some idd → (∀ x, x ∈ lst → ID x ≠ idd) →
     FuzzyLookupItem token lst = Raise (RuntimeError (IdNotFound idd))) ∧
  (∀ B : Builtins,
     int "42" = Some 42%Z →
     FuzzyLookupItem "42"
       [mkArea 1 (Some "42"%string) None;
        mkArea 42 (Some "Wolfstack Docks"%string) None]
     = Ok (mkArea 42 (Some "Wolfstack Docks"%string) None) ∧
     FuzzyLookupItem "42"
       [mkArea 1 (Some "42"%string) None;
        mkArea 2 (Some "Area 42"%string) None]
     = Raise (RuntimeError (IdNotFound 42))).
Proof.
  assert (∀ (B : Builtins) (A : Type) (E : Entity A) token idd (lst : list A),
     int token = Some idd →
     FuzzyLookupItem token lst =
     match List.find (fun x => bool_decide (ID x = idd)) lst with
     | Some x => Ok x
     | None => Raise (RuntimeError (IdNotFound idd))
     end) as Hfind.
  { intros B A E token idd lst Hint. unfold FuzzyLookupItem. rewrite Hint.
    apply find_id_spec. }
  split; [done|]. split.
  - intros B A E token idd lst Hint Hno. unfold FuzzyLookupItem. rewrite Hint.
    induction lst as [|x lst IH]; simpl; [done|].
    rewrite bool_decide_eq_false_2 by (apply Hno; left).
    apply IH. intros y Hy. apply Hno. by right.
  - intros B Hint. split; by rewrite (Hfind B Area _ _ _ _ Hint).
Qed.

Lemma integer_token_lookup_witness :
  FuzzyLookupItem " +4_2 "
    [mkArea 1 (Some " +4_2 "%string) None; mkArea 42 None None]
  = Ok (mkArea 42 None None) ∧
  FuzzyLookupItem "-7" [mkArea 7 (Some "-7"%string) None]
  = Raise (RuntimeError (IdNotFound (-7))).
Proof.
  destruct integer_token_lookup as (Hfind & Hnone & _). split.
  - by rewrite (Hfind ascii_builtins Area _ " +4_2 "%string 42%Z).
  - apply (Hnone ascii_builtins Area _ "-7"%string (-7)%Z); [reflexivity|].
    intros x ->%list_elem_of_singleton. by vm_compute.
Defined.

(** * Further properties of the code *)

(** ** ForEachBranch: what is yielded before an exception *)

Lemma yield_until_nested_split id os :
  Forall (fun o => ¬ nested o) (yield_until_nested id os).1 ∧
  match (yield_until_nested id os).2 with
  | None => (yield_until_nested id os).1 = os
  | Some e =>
      ∃ o rest,
        os = (yield_until_nested id os).1 ++ o :: rest ∧ nested o ∧
        e = RuntimeError (NestedBranch id (outcome_ChildBranches o))
  end.
Proof.
  induction os as [|o os [IHall IH]]; simpl; [done|].
  destruct (decide (nested o)) as [Hn|Hn]; simpl.
  - split; [done|]. by exists o, os.
  - split; [by constructor|].
    destruct (yield_until_nested id os).2 as [e|].
    + destruct IH as (o' & rest & Hos & Hn' & He). exists o', rest.
      by rewrite <- Hos.
    + by rewrite IH.
Qed.

(** X1. [ForEachBranch] never yields an outcome that carries branches.  When
    it raises, it has yielded exactly the outcomes that come before the first
    one that carries branches, and the exception names that one; when it
    does not raise, it has yielded all the outcomes, in branch-then-slot
    order. *)
Theorem ForEachBranch_stops_at_first_nested event :
  Forall (fun o => ¬ nested o) (ForEachBranch event).1 ∧
  match (ForEachBranch event).2 with
  | None => (ForEachBranch event).1 = outcomes_of event
  | Some e =>
      ∃ o rest,
        outcomes_of event = (ForEachBranch event).1 ++ o :: rest ∧
        nested o ∧
        e = RuntimeError
              (NestedBranch (event_Id event) (outcome_ChildBranches o))
  end.
Proof. rewrite ForEachBranch_spec. apply yield_until_nested_split. Qed.

(** ** AddShopInfo: repetition, frame and errors *)

Lemma area_in_self areas area value :
  area_in areas area (value ++ [area]) = true.
Proof.
  unfold area_in. rewrite existsb_app. simpl.
  rewrite bool_decide_eq_true_2 by done. simpl. apply orb_true_r.
Qed.

(** X2. Adding an area to a group a second time changes nothing: a call of
    [AddShopInfo] that returned returns again, with [SHOP_AREAS] as the first
    call left it. *)
Theorem AddShopInfo_idempotent areas group area sa sa' :
  AddShopInfo areas group area sa = Ok sa' →
  AddShopInfo areas group area sa' = Ok sa'.
Proof.
  intros Hrun.
  destruct (AddShopInfo_cases _ _ _ _ _ Hrun)
    as (a & Ha & [->|(Hl & value & Hv & Hnin & ->)]); [done|].
  unfold AddShopInfo, deref, getitem. rewrite Ha. simpl.
  rewrite bool_decide_eq_false_2 by done.
  rewrite lookup_insert_eq. simpl. by rewrite area_in_self.
Qed.

Lemma AddShopInfo_idempotent_witness :
  AddShopInfo [mkArea 7 None None] (mkExchangeGroup 5 None [] []) 0
              (<[5%Z := [0%nat]]> ∅)
  = Ok (<[5%Z := [0%nat]]> ∅).
Proof.
  apply (AddShopInfo_idempotent [mkArea 7 None None]
           (mkExchangeGroup 5 None [] []) 0%nat (<[5%Z := []]> ∅)).
  vm_compute. reflexivity.
Defined.

(** X3. A call of [AddShopInfo] that returns leaves the lists of the other
    groups as they are, adds no key to [SHOP_AREAS] and removes none, and
    changes the list of its group at most by appending the area at its
    end. *)
Theorem AddShopInfo_frame areas group area sa sa' :
  AddShopInfo areas group area sa = Ok sa' →
  (∀ gid, gid ≠ group_Id group → sa' !! gid = sa !! gid) ∧
  dom sa' = dom sa ∧
  (sa' !! group_Id group = sa !! group_Id group ∨
   ∃ value, sa !! group_Id group = Some value ∧
            sa' !! group_Id group = Some (value ++ [area])).
Proof.
  intros Hrun.
  destruct (AddShopInfo_cases _ _ _ _ _ Hrun)
    as (a & Ha & [->|(Hl & value & Hv & Hnin & ->)]).
  { split; [done|]. split; [done|]. by left. }
  split; [|split].
  - intros gid Hne. by rewrite lookup_insert_ne.
  - rewrite dom_insert_L. apply subseteq_union_1_L, singleton_subseteq_l.
    apply elem_of_dom. eauto.
  - right. exists value. by rewrite lookup_insert_eq.
Qed.

Lemma AddShopInfo_frame_witness :
  (∀ gid, gid ≠ 5%Z →
     (<[5%Z := [0%nat]]> (∅ : gmap Z (list nat))) !! gid
     = (<[5%Z := []]> (∅ : gmap Z (list nat))) !! gid) ∧
  dom (<[5%Z := [0%nat]]> (∅ : gmap Z (list nat)))
  = dom (<[5%Z := []]> (∅ : gmap Z (list nat))) ∧
  ((<[5%Z := [0%nat]]> (∅ : gmap Z (list nat))) !! 5%Z
   = (<[5%Z := []]> (∅ : gmap Z (list nat))) !! 5%Z ∨
   ∃ value, (<[5%Z := []]> (∅ : gmap Z (list nat))) !! 5%Z = Some value ∧
            (<[5%Z := [0%nat]]> (∅ : gmap Z (list nat))) !! 5%Z
            = Some (value ++ [0%nat])).
Proof.
  apply (AddShopInfo_frame [mkArea 7 None None]
           (mkExchangeGroup 5 None [] []) 0%nat (<[5%Z := []]> ∅)
           (<[5%Z := [0%nat]]> ∅)).
  vm_compute. reflexivity.
Defined.

(** X4. For the Limbo area [AddShopInfo] returns before it reads
    [SHOP_AREAS], so it returns even for a group that is no key; for any
    other area and a group that is no key it raises [KeyError] with the id
    of the group. *)
Theorem AddShopInfo_unknown_group areas group area a sa :
  areas !! area = Some a → sa !! group_Id group = None →
  AddShopInfo areas group area sa =
  if bool_decide (area_Id a = LIMBO) then Ok sa
  else Raise (KeyError (group_Id group)).
Proof.
  intros Ha Hnone. unfold AddShopInfo, deref, getitem. rewrite Ha. simpl.
  destruct (bool_decide (area_Id a = LIMBO)); [done|]. by rewrite Hnone.
Qed.

Lemma AddShopInfo_unknown_group_witness :
  AddShopInfo [mkArea 7 None None; mkArea LIMBO None None]
              (mkExchangeGroup 5 None [] []) 0 ∅
  = Raise (KeyError 5) ∧
  AddShopInfo [mkArea 7 None None; mkArea LIMBO None None]
              (mkExchangeGroup 5 None [] []) 1 ∅
  = Ok ∅.
Proof.
  split.
  - by apply (AddShopInfo_unknown_group
                [mkArea 7 None None; mkArea LIMBO None None]
                (mkExchangeGroup 5 None [] []) 0%nat (mkArea 7 None None) ∅).
  - by apply (AddShopInfo_unknown_group
                [mkArea 7 None None; mkArea LIMBO None None]
                (mkExchangeGroup 5 None [] []) 1%nat (mkArea LIMBO None None) ∅).
Defined.

(** ** The id maps: every id of the table is a key, the last item wins *)

Lemma index_from_is_Some {A} (ID : A → Z) i table m k :
  is_Some (m !! k) ∨ (∃ x, x ∈ table ∧ ID x = k) →
  is_Some (index_from ID i table m !! k).
Proof.
  revert i m. induction table as [|y table IH]; intros i m; simpl.
  - intros [?|(x & []%elem_of_nil & _)]. done.
  - intros [Hm|(x & [->|Hx]%elem_of_cons & Hk)]; apply IH.
    + left. apply lookup_insert_is_Some.
      destruct (decide (ID y = k)); [by left|by right].
    + left. rewrite Hk, lookup_insert_eq. eauto.
    + right. eauto.
Qed.

(** X5. The id map that [InitGlobals] builds from a table has a key for the
    id of every item; the key leads to the last item of the table with that
    id, so to the item itself when no other item shares its id; an id that
    no item has is no key. *)
Theorem id_map_last_wins (A : Type) (ID : A → Z) (table : list A) :
  (∀ i x, table !! i = Some x →
     ∃ j, index_from ID 0 table ∅ !! ID x = Some j ∧ (i ≤ j)%nat ∧
          resolves ID table (ID x) j) ∧
  (∀ i x, table !! i = Some x →
     (∀ j y, table !! j = Some y → ID y = ID x → j = i) →
     index_from ID 0 table ∅ !! ID x = Some i) ∧
  (∀ k, (∀ x, x ∈ table → ID x ≠ k) → index_from ID 0 table ∅ !! k = None).
Proof.
  assert (∀ i x, table !! i = Some x →
            ∃ j, index_from ID 0 table ∅ !! ID x = Some j ∧ (i ≤ j)%nat ∧
                 resolves ID table (ID x) j) as Hlast.
  { intros i x Hi.
    destruct (index_from_is_Some ID 0 table ∅ (ID x)) as [j Hj].
    { right. exists x. split; [by eapply list_elem_of_lookup_2|done]. }
    exists j. split; [done|].
    pose proof (proj1 (index_resolves ID table (ID x) j) Hj) as Hres.
    split; [|done]. destruct Hres as (y & Hy & Hid & Hlater).
    destruct (decide (i ≤ j)%nat) as [|Hgt]; [done|].
    exfalso. apply (Hlater i x); [lia|done..]. }
  split; [done|]. split.
  - intros i x Hi Huniq. destruct (Hlast i x Hi) as (j & Hj & _ & Hres).
    destruct Hres as (y & Hy & Hid & _). by rewrite <- (Huniq j y Hy Hid).
  - intros k Hno.
    destruct (index_from ID 0 table ∅ !! k) as [j|] eqn:Hj; [|done].
    apply index_valid in Hj as (y & Hy & Hid).
    exfalso. apply (Hno y); [by eapply list_elem_of_lookup_2|done].
Qed.

Lemma id_map_last_wins_witness :
  (∃ j, index_from area_Id 0
          [mkArea 7 None None; mkArea 8 None None;
           mkArea 7 (Some "again"%string) None] ∅ !! 7%Z = Some j ∧
        (0 ≤ j)%nat ∧
        resolves area_Id
          [mkArea 7 None None; mkArea 8 None None;
           mkArea 7 (Some "again"%string) None] 7%Z j) ∧
  index_from area_Id 0
    [mkArea 7 None None; mkArea 8 None None;
     mkArea 7 (Some "again"%string) None] ∅ !! 8%Z = Some 1%nat ∧
  index_from area_Id 0
    [mkArea 7 None None; mkArea 8 None None;
     mkArea 7 (Some "again"%string) None] ∅ !! 9%Z = None.
Proof.
  destruct (id_map_last_wins Area area_Id
              [mkArea 7 None None; mkArea 8 None None;
               mkArea 7 (Some "again"%string) None])
    as (Hlast & Huniq & Hnone).
  split; [|split].
  - by apply (Hlast 0%nat (mkArea 7 None None)).
  - apply (Huniq 1%nat (mkArea 8 None None)); [done|].
    intros [|[|[|j]]] y Hy Hid; simplify_eq/=; done.
  - apply Hnone.
    intros x [->|[->|[->|[]%elem_of_nil]%elem_of_cons]%elem_of_cons]%elem_of_cons;
      done.
Defined.

(** ** FuzzyLookupItem: what it returns and how it fails *)

Lemma prefix_refl s : String.prefix s s = true.
Proof.
  induction s as [|c s IH]; simpl; [done|].
  by destruct (ascii_dec c c).
Qed.

Lemma contains_refl s : contains s s = true.
Proof. destruct s; simpl; [done|]. by destruct (ascii_dec a a); [rewrite prefix_refl|]. Qed.

Section FuzzyLookupResults.
Context {A : Type} `{Entity A} `{Builtins}.

Lemma find_id_Ok idd (lst : list A) x :
  find_id idd lst = Ok x → x ∈ lst ∧ ID x = idd.
Proof.
  induction lst as [|y lst IH]; simpl; [done|].
  destruct (bool_decide (ID y = idd)) eqn:Hy.
  - intros [= ->]. apply bool_decide_eq_true in Hy. split; [left|done].
  - intros [? ?]%IH. split; [by right|done].
Qed.

Lemma find_id_Raise idd (lst : list A) e :
  find_id idd lst = Raise e →
  e = RuntimeError (IdNotFound idd) ∧ ∀ x, x ∈ lst → ID x ≠ idd.
Proof.
  induction lst as [|y lst IH]; simpl.
  - intros [= <-]. split; [done|]. by intros x ?%elem_of_nil.
  - destruct (bool_decide (ID y = idd)) eqn:Hy; [done|].
    apply bool_decide_eq_false in Hy. intros [-> Hno]%IH. split; [done|].
    intros x [->|Hx]%elem_of_cons; [done|by apply Hno].
Qed.

Lemma find_id_returns idd (lst : list A) : find_id idd lst ≠ NoResult.
Proof.
  induction lst as [|y lst IH]; simpl; [done|]. by destruct (bool_decide _).
Qed.

(** A run of the name loop that does not return an entity has met no entity
    whose name equals the token. *)
Lemma match_names_no_exact token insensitive (lst : list A) matches :
  (∀ x, match_names token insensitive lst matches ≠ Ok x) →
  ∀ y, y ∈ lst → display_name y ≠ token.
Proof.
  revert matches. induction lst as [|z lst IH]; intros matches Hno y Hy;
    [by apply elem_of_nil in Hy|].
  simpl in Hno. unfold display_name.
  destruct (decide (token = default ""%string (NAME z))) as [Heq|Hne].
  { exfalso. rewrite bool_decide_eq_true_2 in Hno by done. by eapply Hno. }
  rewrite bool_decide_eq_false_2 in Hno by done.
  apply elem_of_cons in Hy as [->|Hy]; [done|].
  destruct (contains token _); by eapply IH.
Qed.

Lemma match_names_Ok token (lst : list A) matches x :
  match_names token (islower token) lst matches = Ok x →
  x ∈ matches ∨
  (x ∈ lst ∧ (display_name x = token ∨
              contains token (folded_name token x) = true)).
Proof.
  revert matches. induction lst as [|y lst IH]; intros matches.
  - simpl. destruct matches as [|m [|m' ms]]; [done| |done].
    intros [= ->]. left. left.
  - change (match_names token (islower token) (y :: lst) matches) with
      (let name := default ""%string (NAME y) in
       if bool_decide (token = name) then Ok y
       else
         let name := if islower token then lower name else name in
         if contains token name
         then match_names token (islower token) lst (matches ++ [y])
         else match_names token (islower token) lst matches).
    cbv zeta. destruct (bool_decide _) eqn:Hexact.
    + intros [= ->]. right. split; [left|]. left. unfold display_name.
      by apply bool_decide_eq_true in Hexact.
    + destruct (contains token
                  (if islower token then lower (default ""%string (NAME y))
                   else default ""%string (NAME y))) eqn:Hc; intros Hrun.
      * destruct (IH _ Hrun) as [[Hx| ->%list_elem_of_singleton]%elem_of_app
                                |[Hx Hcx]].
        -- by left.
        -- right. split; [left|]. by right.
        -- right. split; [by right|done].
      * destruct (IH _ Hrun) as [Hx|[Hx Hcx]]; [by left|].
        right. split; [by right|done].
Qed.

Lemma match_names_returns token insensitive (lst : list A) matches :
  match_names token insensitive lst matches ≠ NoResult.
Proof.
  revert matches. induction lst as [|y lst IH]; intros matches; simpl.
  - by destruct matches as [|m [|m' ms]].
  - destruct (bool_decide _); [done|]. by destruct (contains token _).
Qed.
End FuzzyLookupResults.

(** X6. An entity that [FuzzyLookupItem] returns is an entity of the list;
    its id is the token's integer when the token parses as one, and
    otherwise its name equals the token or, folded to lower case when the
    token is in lower case, contains the token. *)
Theorem FuzzyLookupItem_sound (B : Builtins) (A : Type) (E : Entity A) token
    (lst : list A) x :
  FuzzyLookupItem token lst = Ok x →
  x ∈ lst ∧
  match int token with
  | Some idd => ID x = idd
  | None => display_name x = token ∨
            contains token (folded_name token x) = true
  end.
Proof.
  unfold FuzzyLookupItem. destruct (int token) as [idd|].
  - apply find_id_Ok.
  - intros [[]%elem_of_nil|?]%match_names_Ok. done.
Qed.

Lemma FuzzyLookupItem_sound_witness :
  mkArea 2 (Some "Mutton Island"%string) None
  ∈ [mkArea 1 (Some "Venderbight"%string) None;
     mkArea 2 (Some "Mutton Island"%string) None] ∧
  (display_name (mkArea 2 (Some "Mutton Island"%string) None)
   = "mutton"%string ∨
   contains "mutton"
     (folded_name "mutton" (mkArea 2 (Some "Mutton Island"%string) None))
   = true).
Proof.
  apply (FuzzyLookupItem_sound ascii_builtins Area _ "mutton"%string
           [mkArea 1 (Some "Venderbight"%string) None;
            mkArea 2 (Some "Mutton Island"%string) None]).
  reflexivity.
Defined.

(** X7. [FuzzyLookupItem] fails with a [RuntimeError] only, the exception
    that the main program catches.  For an integer token the error names the
    integer and no entity has it as id.  Otherwise no entity's name equals
    the token and either no name contains the token and the error names the
    token, or at least two do and the error lists the names of all of
    them. *)
Theorem FuzzyLookupItem_failure (B : Builtins) (A : Type) (E : Entity A)
    token (lst : list A) :
  FuzzyLookupItem token lst ≠ NoResult ∧
  ∀ e, FuzzyLookupItem token lst = Raise e →
    match int token with
    | Some idd =>
        e = RuntimeError (IdNotFound idd) ∧ ∀ x, x ∈ lst → ID x ≠ idd
    | None =>
        (∀ x, x ∈ lst → display_name x ≠ token) ∧
        ((name_matches token lst = [] ∧
          e = RuntimeError (NoNameContaining token)) ∨
         ((2 ≤ length (name_matches token lst))%nat ∧
          e = RuntimeError
                (MultipleMatches token (NAME <$> name_matches token lst))))
    end.
Proof.
  unfold FuzzyLookupItem. destruct (int token) as [idd|].
  - split; [apply find_id_returns|]. intros e. apply find_id_Raise.
  - split; [apply match_names_returns|]. intros e Hrun.
    assert (∀ x, x ∈ lst → display_name x ≠ token) as Hne.
    { eapply match_names_no_exact. intros x. by rewrite Hrun. }
    split; [done|]. rewrite match_names_filter in Hrun by done. simpl in Hrun.
    destruct (name_matches token lst) as [|m1 [|m2 ms]]; simpl in *.
    + left. split; [done|]. by injection Hrun as <-.
    + done.
    + right. split; [lia|]. by injection Hrun as <-.
Qed.

Lemma FuzzyLookupItem_failure_witness :
  (∀ x, x ∈ [mkArea 1 (Some "Venderbight"%string) None;
             mkArea 2 (Some "Mutton Island"%string) None] →
        display_name x ≠ "n"%string) ∧
  ((name_matches "n"
      [mkArea 1 (Some "Venderbight"%string) None;
       mkArea 2 (Some "Mutton Island"%string) None] = [] ∧
    RuntimeError
      (MultipleMatches "n" [Some "Venderbight"; Some "Mutton Island"]%string)
    = RuntimeError (NoNameContaining "n")) ∨
   ((2 ≤ length (name_matches "n"
                   [mkArea 1 (Some "Venderbight"%string) None;
                    mkArea 2 (Some "Mutton Island"%string) None]))%nat ∧
    RuntimeError
      (MultipleMatches "n" [Some "Venderbight"; Some "Mutton Island"]%string)
    = RuntimeError
        (MultipleMatches "n"
           (NAME <$> name_matches "n"
              [mkArea 1 (Some "Venderbight"%string) None;
               mkArea 2 (Some "Mutton Island"%string) None])))).
Proof.
  apply (proj2 (FuzzyLookupItem_failure ascii_builtins Area _ "n"%string
                  [mkArea 1 (Some "Venderbight"%string) None;
                   mkArea 2 (Some "Mutton Island"%string) None])).
  reflexivity.
Defined.

(** ** InitGlobals: the corrections of area names *)

Lemma rename_eq amap id name areas :
  areas_wf amap areas →
  rename amap id name areas =
  match amap !! id with
  | Some r => Ok (alter (set_Name name) r areas)
  | None => Raise (KeyError id)
  end.
Proof.
  intros Hwf. unfold rename, getitem.
  destruct (amap !! id) as [r|] eqn:Hr; [|done]. simpl.
  destruct (Hwf _ _ Hr) as (a & Ha & _). unfold deref. by rewrite Ha.
Qed.

Lemma alter_name_wf amap name r areas :
  areas_wf amap areas → areas_wf amap (alter (set_Name name) r areas).
Proof. apply same_ids_wf, same_ids_alter. done. Qed.

Lemma init_areas_eq AREAS :
  let areas0 := set_Subsurface None <$> AREAS in
  let amap := index_from area_Id 0 areas0 ∅ in
  init_areas AREAS =
  match amap !! 100374%Z with
  | None => Raise (KeyError 100374)
  | Some r1 =>
    match amap !! 101981%Z with
    | None => Raise (KeyError 101981)
    | Some r2 =>
      match amap !! 102000%Z with
      | None => Raise (KeyError 102000)
      | Some r3 =>
        match amap !! 102960%Z with
        | None => Raise (KeyError 102960)
        | Some r4 =>
            Ok (alter (set_Name "The Uttershroom") r4
                  (alter (set_Name "Polythreme") r3
                     (alter (set_Name "The Chelonate") r2
                        (alter (set_Name "Venderbight") r1 areas0))),
                amap)
        end
      end
    end
  end.
Proof.
  intros areas0 amap. unfold init_areas. fold areas0. fold amap.
  pose proof (init_areas_wf0 AREAS) as Hwf0. fold areas0 amap in Hwf0.
  rewrite rename_eq by done.
  destruct (amap !! 100374%Z) as [r1|]; [|done]. cbn [bind].
  rewrite rename_eq by by apply alter_name_wf.
  destruct (amap !! 101981%Z) as [r2|]; [|done]. cbn [bind].
  rewrite rename_eq by by do 2 apply alter_name_wf.
  destruct (amap !! 102000%Z) as [r3|]; [|done]. cbn [bind].
  rewrite rename_eq by by do 3 apply alter_name_wf.
  by destruct (amap !! 102960%Z) as [r4|].
Qed.

Lemma area_ids_of_table AREAS k :
  index_from area_Id 0 (set_Subsurface None <$> AREAS) ∅ !! k = None →
  ∀ a, a ∈ AREAS → area_Id a ≠ k.
Proof.
  intros Hnone a Ha Hid.
  destruct (index_from_is_Some area_Id 0 (set_Subsurface None <$> AREAS) ∅ k)
    as [r Hr]; [|congruence].
  right. exists (set_Subsurface None a). split; [|done].
  apply list_elem_of_fmap. eauto.
Qed.

Lemma area_key_of_table AREAS k r :
  index_from area_Id 0 (set_Subsurface None <$> AREAS) ∅ !! k = Some r →
  ∃ a, a ∈ AREAS ∧ area_Id a = k.
Proof.
  intros (a & Ha & Hid)%index_valid.
  rewrite list_lookup_fmap in Ha.
  destruct (AREAS !! r) as [a0|] eqn:Hr; [|done]. injection Ha as <-.
  exists a0. split; [by eapply list_elem_of_lookup_2|done].
Qed.

(** X8. When the table of areas lacks an area with one of the four ids whose
    names [InitGlobals] corrects, [InitGlobals] raises [KeyError] with the
    first such id, whatever the other tables hold. *)
Theorem InitGlobals_missing_corrected_area
    AREAS QUALITIES EVENTS EXCHANGES TILES_DATA k :
  k ∈ NAME_CORRECTIONS.*1 →
  (∀ a, a ∈ AREAS → area_Id a ≠ k) →
  ∃ before k' after,
    NAME_CORRECTIONS.*1 = before ++ k' :: after ∧
    (∀ a, a ∈ AREAS → area_Id a ≠ k') ∧
    (∀ k0, k0 ∈ before → ∃ a, a ∈ AREAS ∧ area_Id a = k0) ∧
    InitGlobals AREAS QUALITIES EVENTS EXCHANGES TILES_DATA
    = Raise (KeyError k').
Proof.
  intros Hk Hmissing. unfold InitGlobals.
  pose proof (init_areas_eq AREAS) as Heq. cbv zeta in Heq. rewrite Heq.
  clear Heq.
  set (amap := index_from area_Id 0 (set_Subsurface None <$> AREAS) ∅).
  assert (amap !! k = None) as Hnone.
  { destruct (amap !! k) as [r|] eqn:Hr; [|done].
    apply area_key_of_table in Hr as (a & Ha & Hid). by destruct (Hmissing a). }
  destruct (amap !! 100374%Z) as [r1|] eqn:H1.
  2:{ exists [], 100374%Z, [101981%Z; 102000%Z; 102960%Z].
      split; [done|]. split; [by apply area_ids_of_table|].
      split; [by intros k0 ?%elem_of_nil|done]. }
  destruct (amap !! 101981%Z) as [r2|] eqn:H2.
  2:{ exists [100374%Z], 101981%Z, [102000%Z; 102960%Z].
      split; [done|]. split; [by apply area_ids_of_table|]. split; [|done].
      intros k0 ->%list_elem_of_singleton. by eapply area_key_of_table. }
  destruct (amap !! 102000%Z) as [r3|] eqn:H3.
  2:{ exists [100374%Z; 101981%Z], 102000%Z, [102960%Z].
      split; [done|]. split; [by apply area_ids_of_table|]. split; [|done].
      intros k0 [->| ->%list_elem_of_singleton]%elem_of_cons;
        by eapply area_key_of_table. }
  destruct (amap !! 102960%Z) as [r4|] eqn:H4.
  2:{ exists [100374%Z; 101981%Z; 102000%Z], 102960%Z, [].
      split; [done|]. split; [by apply area_ids_of_table|]. split; [|done].
      intros k0 [->|[->| ->%list_elem_of_singleton]%elem_of_cons]%elem_of_cons;
        by eapply area_key_of_table. }
  exfalso. simpl in Hk.
  apply elem_of_cons in Hk as [->|Hk]; [congruence|].
  apply elem_of_cons in Hk as [->|Hk]; [congruence|].
  apply elem_of_cons in Hk as [->|Hk]; [congruence|].
  apply list_elem_of_singleton in Hk as ->. congruence.
Qed.

Lemma InitGlobals_missing_corrected_area_witness :
  ∃ before k' after,
    NAME_CORRECTIONS.*1 = before ++ k' :: after ∧
    (∀ a, a ∈ [mkArea 100374 None None; mkArea 102960 None None] →
          area_Id a ≠ k') ∧
    (∀ k0, k0 ∈ before →
       ∃ a, a ∈ [mkArea 100374 None None; mkArea 102960 None None] ∧
            area_Id a = k0) ∧
    InitGlobals [mkArea 100374 None None; mkArea 102960 None None] []
                fixture_events fixture_exchanges fixture_tiles
    = Raise (KeyError k').
Proof.
  apply (InitGlobals_missing_corrected_area _ _ _ _ _ 102000%Z).
  - right. right. left.
  - intros a [->| ->%list_elem_of_singleton]%elem_of_cons; done.
Defined.

Lemma keeps_names_refl areas : keeps_names areas areas.
Proof. by apply Forall_Forall2_diag, Forall_true. Qed.

Lemma keeps_names_trans areas1 areas2 areas3 :
  keeps_names areas1 areas2 → keeps_names areas2 areas3 →
  keeps_names areas1 areas3.
Proof.
  apply Forall2_trans. intros a b c [? ?] [? ?]. split; congruence.
Qed.

Lemma static_port_keeps_names amap settings_map port st st' :
  static_inv amap st → static_port amap settings_map port st = Ok st' →
  keeps_names st.1 st'.1.
Proof.
  destruct st as [areas sa]. intros [Hwf _] Hrun.
  destruct (static_port_sound _ _ _ _ _ _ Hwf Hrun)
    as (area & a & _ & Ha & -> & _). simpl. unfold keeps_names.
  rewrite <- (list_insert_id areas area a) at 1 by done.
  apply Forall2_insert; [apply keeps_names_refl|done].
Qed.

Lemma static_tiles_keep_names amap settings_map tiles st st' :
  static_inv amap st →
  for_each (static_tile amap settings_map) tiles st = Ok st' →
  keeps_names st.1 st'.1.
Proof.
  intros Hinv Hrun.
  cut (static_inv amap st' ∧ keeps_names st.1 st'.1); [by intros []|].
  revert Hrun.
  apply (for_each_invariant
           (fun t => static_inv amap t ∧ keeps_names st.1 t.1)).
  2:{ split; [done|apply keeps_names_refl]. }
  intros tile t t' _ [Ht Hk] Htile.
  split; [by destruct (static_tile_inv _ _ _ _ _ Ht Htile)|].
  eapply keeps_names_trans; [done|]. clear Hk.
  unfold static_tile in Htile. destruct (Tiles tile) as [|entry0 _].
  { injection Htile as <-. apply keeps_names_refl. }
  cut (static_inv amap t' ∧ keeps_names t.1 t'.1); [by intros []|].
  revert Htile.
  apply (for_each_invariant
           (fun u => static_inv amap u ∧ keeps_names t.1 u.1)).
  2:{ split; [done|apply keeps_names_refl]. }
  intros port u u' _ [Hu Hk] Hport.
  split; [by destruct (static_port_inv _ _ _ _ _ Hu Hport)|].
  eapply keeps_names_trans; [done|]. by eapply static_port_keeps_names.
Qed.

Lemma alter_name_lookup name r' (l : list Area) r a' :
  alter (set_Name name) r' l !! r = Some a' →
  ∃ b, l !! r = Some b ∧ area_Id a' = area_Id b ∧
       ((r = r' ∧ area_Name a' = Some name) ∨ area_Name a' = area_Name b).
Proof.
  destruct (decide (r = r')) as [->|Hne].
  - rewrite list_lookup_alter_eq. intros (b & Hb & ->)%fmap_Some.
    exists b. split; [done|]. split; [done|]. by left.
  - rewrite list_lookup_alter_ne by done. intros Ha'. exists a'. auto.
Qed.

(** What [InitGlobals] leaves of the areas: the table with the corrected
    names and new subsurface flags. *)
Lemma InitGlobals_areas AREAS QUALITIES EVENTS EXCHANGES TILES_DATA g :
  InitGlobals AREAS QUALITIES EVENTS EXCHANGES TILES_DATA = Ok g →
  let areas0 := set_Subsurface None <$> AREAS in
  AREAS_MAP g = index_from area_Id 0 areas0 ∅ ∧
  ∃ r1 r2 r3 r4,
    AREAS_MAP g !! 100374%Z = Some r1 ∧ AREAS_MAP g !! 101981%Z = Some r2 ∧
    AREAS_MAP g !! 102000%Z = Some r3 ∧ AREAS_MAP g !! 102960%Z = Some r4 ∧
    keeps_names
      (alter (set_Name "The Uttershroom") r4
         (alter (set_Name "Polythreme") r3
            (alter (set_Name "The Chelonate") r2
               (alter (set_Name "Venderbight") r1 areas0))))
      (g_AREAS g).
Proof.
  intros (areas1 & Hareas & _ & Hshops)%InitGlobals_Ok areas0.
  pose proof (init_areas_sound _ _ _ Hareas) as Hwf.
  pose proof (init_areas_eq AREAS) as Heq. cbv zeta in Heq.
  rewrite Heq in Hareas. clear Heq. fold areas0 in Hareas.
  destruct (index_from area_Id 0 areas0 ∅ !! 100374%Z) as [r1|] eqn:H1;
    [|done].
  destruct (index_from area_Id 0 areas0 ∅ !! 101981%Z) as [r2|] eqn:H2;
    [|done].
  destruct (index_from area_Id 0 areas0 ∅ !! 102000%Z) as [r3|] eqn:H3;
    [|done].
  destruct (index_from area_Id 0 areas0 ∅ !! 102960%Z) as [r4|] eqn:H4;
    [|done].
  injection Hareas as Hareas Hmap. subst areas1. split; [done|].
  exists r1, r2, r3, r4. rewrite <- Hmap. do 4 (split; [done|]).
  apply init_shops_Ok in Hshops as (sa1 & Hstatic & _).
  rewrite <- Hmap in Hstatic, Hwf.
  eapply (static_tiles_keep_names _ _ _ (_, _) (_, _)); [|exact Hstatic].
  split; simpl; [done|].
  intros gid value ->%init_groups_empty.
  split; [apply NoDup_nil_2|]. by intros r ?%elem_of_nil.
Qed.

(** X9. When [InitGlobals] returns, each of the four ids it corrects is a key
    of [AREAS_MAP] and leads to an area with that id and the corrected name.
    The store of areas has the length of the table; every area has the id it
    had in the table, and the name it had unless it is one of the four. *)
Theorem InitGlobals_corrects_names
    AREAS QUALITIES EVENTS EXCHANGES TILES_DATA g :
  InitGlobals AREAS QUALITIES EVENTS EXCHANGES TILES_DATA = Ok g →
  (∀ k name, (k, name) ∈ NAME_CORRECTIONS →
     ∃ r a, AREAS_MAP g !! k = Some r ∧ g_AREAS g !! r = Some a ∧
            area_Id a = k ∧ area_Name a = Some name) ∧
  length (g_AREAS g) = length AREAS ∧
  (∀ r a, g_AREAS g !! r = Some a →
     ∃ a0, AREAS !! r = Some a0 ∧ area_Id a = area_Id a0 ∧
           (area_Name a = area_Name a0 ∨
            ∃ k name, (k, name) ∈ NAME_CORRECTIONS ∧
                      AREAS_MAP g !! k = Some r ∧ area_Name a = Some name)).
Proof.
  intros Hrun. pose proof (InitGlobals_sound _ _ _ _ _ _ Hrun) as [Hwf _].
  apply InitGlobals_areas in Hrun. cbv zeta in Hrun.
  destruct Hrun as (Hmap & r1 & r2 & r3 & r4 & H1 & H2 & H3 & H4 & Hkeep).
  assert (∀ r a, g_AREAS g !! r = Some a →
            ∃ a0, AREAS !! r = Some a0 ∧ area_Id a = area_Id a0 ∧
                  (area_Name a = area_Name a0 ∨
                   ∃ k name, (k, name) ∈ NAME_CORRECTIONS ∧
                             AREAS_MAP g !! k = Some r ∧
                             area_Name a = Some name)) as Hall.
  { intros r a Ha.
    destruct (Forall2_lookup_r _ _ _ _ _ Hkeep Ha) as (a4 & Ha4 & Hid4 & Hn4).
    apply alter_name_lookup in Ha4 as (a3 & Ha3 & Hid3 & Hc4).
    apply alter_name_lookup in Ha3 as (a2 & Ha2 & Hid2 & Hc3).
    apply alter_name_lookup in Ha2 as (a1 & Ha1 & Hid1 & Hc2).
    apply alter_name_lookup in Ha1 as (a0' & Ha0 & Hid0 & Hc1).
    rewrite list_lookup_fmap in Ha0.
    destruct (AREAS !! r) as [a0|] eqn:Hr; [|done]. injection Ha0 as <-.
    exists a0. split; [done|]. split; [simpl in *; congruence|].
    destruct Hc4 as [[-> Hc4]|Hc4].
    { right. exists 102960%Z, "The Uttershroom"%string.
      split; [do 3 right; left|]. split; [done|congruence]. }
    destruct Hc3 as [[-> Hc3]|Hc3].
    { right. exists 102000%Z, "Polythreme"%string.
      split; [do 2 right; left|]. split; [done|congruence]. }
    destruct Hc2 as [[-> Hc2]|Hc2].
    { right. exists 101981%Z, "The Chelonate"%string.
      split; [right; left|]. split; [done|congruence]. }
    destruct Hc1 as [[-> Hc1]|Hc1].
    { right. exists 100374%Z, "Venderbight"%string.
      split; [left|]. split; [done|congruence]. }
    left. simpl in *. congruence. }
  split; [|split; [|done]].
  - destruct (Hwf _ _ H1) as (b1 & Hb1 & Hi1).
    destruct (Hwf _ _ H2) as (b2 & Hb2 & Hi2).
    destruct (Hwf _ _ H3) as (b3 & Hb3 & Hi3).
    destruct (Hwf _ _ H4) as (b4 & Hb4 & Hi4).
    assert (r2 ≠ r1) as N21 by (intros ->; congruence).
    assert (r3 ≠ r1) as N31 by (intros ->; congruence).
    assert (r4 ≠ r1) as N41 by (intros ->; congruence).
    assert (r3 ≠ r2) as N32 by (intros ->; congruence).
    assert (r4 ≠ r2) as N42 by (intros ->; congruence).
    assert (r4 ≠ r3) as N43 by (intros ->; congruence).
    destruct (Forall2_lookup_r _ _ _ _ _ Hkeep Hb1) as (c1 & Hc1 & _ & Hn1).
    destruct (Forall2_lookup_r _ _ _ _ _ Hkeep Hb2) as (c2 & Hc2 & _ & Hn2).
    destruct (Forall2_lookup_r _ _ _ _ _ Hkeep Hb3) as (c3 & Hc3 & _ & Hn3).
    destruct (Forall2_lookup_r _ _ _ _ _ Hkeep Hb4) as (c4 & Hc4 & _ & Hn4).
    rewrite !list_lookup_alter_ne, list_lookup_alter_eq in Hc1 by done.
    rewrite !list_lookup_alter_ne, list_lookup_alter_eq in Hc2 by done.
    rewrite list_lookup_alter_ne, list_lookup_alter_eq in Hc3 by done.
    rewrite list_lookup_alter_eq in Hc4.
    apply fmap_Some in Hc1 as (d1 & _ & ->).
    apply fmap_Some in Hc2 as (d2 & _ & ->).
    apply fmap_Some in Hc3 as (d3 & _ & ->).
    apply fmap_Some in Hc4 as (d4 & _ & ->).
    intros k name Hk. unfold NAME_CORRECTIONS in Hk.
    apply elem_of_cons in Hk as [[= -> ->]|Hk]; [by exists r1, b1|].
    apply elem_of_cons in Hk as [[= -> ->]|Hk]; [by exists r2, b2|].
    apply elem_of_cons in Hk as [[= -> ->]|Hk]; [by exists r3, b3|].
    apply list_elem_of_singleton in Hk as [= -> ->]. by exists r4, b4.
  - apply Forall2_length in Hkeep. rewrite !length_alter, length_fmap in Hkeep.
    done.
Qed.

Lemma InitGlobals_corrects_names_witness :
  ∃ g, InitGlobals fixture_areas [] fixture_events fixture_exchanges
                   fixture_tiles = Ok g ∧
       (∀ k name, (k, name) ∈ NAME_CORRECTIONS →
          ∃ r a, AREAS_MAP g !! k = Some r ∧ g_AREAS g !! r = Some a ∧
                 area_Id a = k ∧ area_Name a = Some name) ∧
       length (g_AREAS g) = length fixture_areas.
Proof.
  assert (∃ g, InitGlobals fixture_areas [] fixture_events fixture_exchanges
                           fixture_tiles = Ok g) as [g Hg].
  { eexists. vm_compute. reflexivity. }
  exists g. split; [done|].
  destruct (InitGlobals_corrects_names _ _ _ _ _ _ Hg) as (Hnames & Hlen & _).
  by split.
Defined.

(** ** InitGlobals: the join map of the settings and the keys of SHOP_AREAS *)

Lemma bind_settings_lookup (group : ExchangeGroup) ids
    (sm : gmap Z ExchangeGroup) s :
  fold_left (fun sm setting => <[setting := group]> sm) ids sm !! s
  = if decide (s ∈ ids) then Some group else sm !! s.
Proof.
  revert sm. induction ids as [|id ids IH]; intros sm; simpl.
  - destruct (decide (s ∈ [])) as [[]%elem_of_nil|]; done.
  - rewrite IH. destruct (decide (s ∈ ids)) as [Hin|Hnin].
    + rewrite decide_True; [done|by right].
    + destruct (decide (s = id)) as [->|Hne].
      * rewrite decide_True by left. apply lookup_insert_eq.
      * rewrite decide_False; [by apply lookup_insert_ne|].
        by intros [?|?]%elem_of_cons.
Qed.

Lemma init_groups_snoc EXCHANGES group :
  init_groups (EXCHANGES ++ [group]) =
  (<[group_Id group := []]> (init_groups EXCHANGES).1,
   fold_left (fun sm setting => <[setting := group]> sm)
             (SettingIds group) (init_groups EXCHANGES).2).
Proof.
  unfold init_groups. rewrite fold_left_app. simpl.
  by destruct (fold_left _ EXCHANGES _).
Qed.

Lemma init_groups_keys EXCHANGES :
  dom (init_groups EXCHANGES).1 = list_to_set (group_Id <$> EXCHANGES).
Proof.
  induction EXCHANGES as [|group EXCHANGES IH] using rev_ind.
  - unfold init_groups. simpl. apply dom_empty_L.
  - rewrite init_groups_snoc. simpl. rewrite dom_insert_L, IH.
    rewrite fmap_app, list_to_set_app_L. simpl.
    rewrite (right_id_L ∅ (∪)). apply (comm_L (∪)).
Qed.

(** X10. The join map from setting ids to groups holds, for a setting id,
    the last group of [EXCHANGES] that lists it: a key always leads to a
    group of the table that lists the setting and that no later group
    overrides, and every setting that some group lists is a key. *)
Theorem settings_map_last_wins EXCHANGES :
  (∀ s group,
     (init_groups EXCHANGES).2 !! s = Some group →
     ∃ before after,
       EXCHANGES = before ++ group :: after ∧ s ∈ SettingIds group ∧
       ∀ later, later ∈ after → s ∉ SettingIds later) ∧
  (∀ s group,
     group ∈ EXCHANGES → s ∈ SettingIds group →
     is_Some ((init_groups EXCHANGES).2 !! s)).
Proof.
  induction EXCHANGES as [|g EXCHANGES [IH1 IH2]] using rev_ind.
  - split; [|by intros s group ?%elem_of_nil].
    intros s group. unfold init_groups. simpl. by rewrite lookup_empty.
  - rewrite init_groups_snoc. simpl. split.
    + intros s group. rewrite bind_settings_lookup.
      destruct (decide (s ∈ SettingIds g)) as [Hin|Hnin].
      * intros [= <-]. exists EXCHANGES, []. split; [done|].
        split; [done|]. by intros later ?%elem_of_nil.
      * intros (before & after & -> & Hs & Hlater)%IH1.
        exists before, (after ++ [g]). split; [by rewrite <- app_assoc|].
        split; [done|].
        intros later [?| ->%list_elem_of_singleton]%elem_of_app; auto.
    + intros s group [Hgroup| ->%list_elem_of_singleton]%elem_of_app Hs;
        rewrite bind_settings_lookup.
      * destruct (decide (s ∈ SettingIds g)); [done|by eapply IH2].
      * by rewrite decide_True.
Qed.

Lemma settings_map_last_wins_witness :
  ∃ before after,
    [mkExchangeGroup 1 None [50%Z; 51%Z] [];
     mkExchangeGroup 2 None [50%Z] []]
    = before ++ mkExchangeGroup 2 None [50%Z] [] :: after ∧
    50%Z ∈ SettingIds (mkExchangeGroup 2 None [50%Z] []) ∧
    ∀ later, later ∈ after → 50%Z ∉ SettingIds later.
Proof.
  apply (proj1 (settings_map_last_wins
                  [mkExchangeGroup 1 None [50%Z; 51%Z] [];
                   mkExchangeGroup 2 None [50%Z] []])).
  vm_compute. reflexivity.
Defined.

Lemma AddShopInfo_dom areas group area sa sa' :
  AddShopInfo areas group area sa = Ok sa' → dom sa' = dom sa.
Proof.
  intros (a & _ & [->|(_ & value & Hv & _ & ->)])%AddShopInfo_cases; [done|].
  rewrite dom_insert_L. apply subseteq_union_1_L, singleton_subseteq_l.
  apply elem_of_dom. eauto.
Qed.

Lemma static_port_dom amap settings_map port st st' :
  static_inv amap st → static_port amap settings_map port st = Ok st' →
  dom st'.2 = dom st.2.
Proof.
  destruct st as [areas sa]. intros [Hwf _] Hrun.
  destruct (static_port_sound _ _ _ _ _ _ Hwf Hrun)
    as (area & a & _ & _ & _ & Hsa). simpl.
  destruct (settings_map !! port_Setting port); [|by rewrite Hsa].
  by eapply AddShopInfo_dom.
Qed.

Lemma static_tiles_dom amap settings_map tiles st st' :
  static_inv amap st →
  for_each (static_tile amap settings_map) tiles st = Ok st' →
  dom st'.2 = dom st.2.
Proof.
  intros Hinv Hrun.
  cut (static_inv amap st' ∧ dom st'.2 = dom st.2); [by intros []|].
  revert Hrun.
  apply (for_each_invariant
           (fun t => static_inv amap t ∧ dom t.2 = dom st.2)); [|done].
  intros tile t t' _ [Ht Hd] Htile.
  split; [by destruct (static_tile_inv _ _ _ _ _ Ht Htile)|].
  rewrite <- Hd. clear Hd.
  unfold static_tile in Htile. destruct (Tiles tile) as [|entry0 _].
  { by injection Htile as <-. }
  cut (static_inv amap t' ∧ dom t'.2 = dom t.2); [by intros []|].
  revert Htile.
  apply (for_each_invariant
           (fun u => static_inv amap u ∧ dom u.2 = dom t.2)); [|done].
  intros port u u' _ [Hu Hd] Hport.
  split; [by destruct (static_port_inv _ _ _ _ _ Hu Hport)|].
  rewrite <- Hd. by eapply static_port_dom.
Qed.

Lemma dynamic_events_dom amap settings_map areas events sa sa' :
  for_each (dynamic_event amap settings_map areas) events sa = Ok sa' →
  dom sa' = dom sa.
Proof.
  apply (for_each_invariant (fun t => dom t = dom sa)); [|done].
  intros event t t' _ Ht [_ Hev]%for_gen_Ok. rewrite <- Ht. revert Hev.
  apply (for_each_invariant (fun u => dom u = dom t)); [|done].
  intros outcome u u' _ Hu Hout. rewrite <- Hu. unfold dynamic_outcome in Hout.
  destruct (SwitchToSetting outcome) as [setting|]; [|by injection Hout as <-].
  apply bind_Ok in Hout as (group & _ & Hout). revert Hout.
  apply (for_each_invariant (fun v => dom v = dom u)); [|done].
  intros area_id v v' _ Hv Harea. rewrite <- Hv.
  unfold dynamic_area in Harea. apply bind_Ok in Harea as (area & _ & Hadd).
  by eapply AddShopInfo_dom.
Qed.

(** X11. When [InitGlobals] returns, the keys of [SHOP_AREAS] are exactly
    the ids of the groups of [EXCHANGES]: the lookup [SHOP_AREAS[group[ID]]]
    of the page functions succeeds for every group of the table, with an
    empty list for a group that no port and no event places. *)
Theorem SHOP_AREAS_keys AREAS QUALITIES EVENTS EXCHANGES TILES_DATA g :
  InitGlobals AREAS QUALITIES EVENTS EXCHANGES TILES_DATA = Ok g →
  dom (SHOP_AREAS g) = list_to_set (group_Id <$> EXCHANGES) ∧
  ∀ group, group ∈ EXCHANGES → is_Some (SHOP_AREAS g !! group_Id group).
Proof.
  intros (areas0 & Hareas & _ & Hshops)%InitGlobals_Ok.
  apply init_areas_sound in Hareas.
  apply init_shops_Ok in Hshops as (sa1 & Hstatic & Hdyn).
  assert (dom (SHOP_AREAS g) = list_to_set (group_Id <$> EXCHANGES)) as Hdom.
  { rewrite (dynamic_events_dom _ _ _ _ _ _ Hdyn).
    assert (static_inv (AREAS_MAP g) (areas0, (init_groups EXCHANGES).1))
      as Hinv.
    { split; simpl; [done|]. intros gid value ->%init_groups_empty.
      split; [apply NoDup_nil_2|]. by intros r ?%elem_of_nil. }
    pose proof (static_tiles_dom _ _ _ _ _ Hinv Hstatic) as Hd.
    simpl in Hd. rewrite Hd. apply init_groups_keys. }
  split; [done|]. intros group Hgroup. apply elem_of_dom. rewrite Hdom.
  apply elem_of_list_to_set, list_elem_of_fmap. eauto.
Qed.

Lemma SHOP_AREAS_keys_witness :
  ∃ g, InitGlobals fixture_areas [] fixture_events fixture_exchanges
                   fixture_tiles = Ok g ∧
       dom (SHOP_AREAS g) = list_to_set (group_Id <$> fixture_exchanges).
Proof.
  assert (∃ g, InitGlobals fixture_areas [] fixture_events fixture_exchanges
                           fixture_tiles = Ok g) as [g Hg].
  { eexists. vm_compute. reflexivity. }
  exists g. split; [done|]. by apply (SHOP_AREAS_keys _ _ _ _ _ _ Hg).
Defined.

(** ** The propagation tags nothing but what an origin reaches *)

Lemma push_links_from emap ys stack stack' j :
  for_each (push_link emap) ys stack = Ok stack' → j ∈ stack' →
  j ∈ stack ∨
  ∃ o link, o ∈ ys ∧ LinkToEvent o = Some link ∧ emap !! link = Some j.
Proof.
  revert stack. induction ys as [|y ys IH]; simpl; intros stack Hrun Hj.
  - injection Hrun as <-. by left.
  - apply bind_Ok in Hrun as (st & Hy & Hrun).
    destruct (IH _ Hrun Hj) as [Hst|(o & link & Ho & Hl & Hm)].
    + unfold push_link in Hy. destruct (LinkToEvent y) as [link|] eqn:Hlink.
      * apply bind_Ok in Hy as (t & Ht & [= <-]). unfold getitem in Ht.
        destruct (emap !! link) as [t'|] eqn:Hm; [|done]. injection Ht as ->.
        apply elem_of_cons in Hst as [->|Hst]; [|by left].
        right. exists y, link. split; [left|done].
      * injection Hy as <-. by left.
    + right. exists o, link. split; [by right|done].
Qed.

Lemma dfs_tags_within emap L (R : nat → Prop) fuel events stack events' :
  (∀ i j, R i → edge emap events i j → R j) →
  (∀ j, j ∈ stack → R j) →
  (∀ j, tagged L events j → R j) →
  dfs fuel emap L events stack = Ok events' →
  ∀ j, tagged L events' j → R j.
Proof.
  revert events stack.
  induction fuel as [|fuel IH]; intros events [|r stack] Hedge Hstack Htag Hrun;
    simpl in Hrun; try done.
  1,2: by injection Hrun as <-.
  apply bind_Ok in Hrun as (e & He & Hrun).
  unfold deref in He. destruct (events !! r) as [e0|] eqn:Hr; [|done].
  injection He as ->.
  destruct (bool_decide (L ∈ event_Area e)) eqn:Hin.
  - eapply IH; [done| |done|done]. intros j Hj. apply Hstack. by right.
  - apply bool_decide_eq_false in Hin.
    apply bind_Ok in Hrun as (stack1 & Hpush & Hrun).
    apply for_gen_Ok in Hpush as [Hnoexn Hpush].
    set (e1 := set_Area (event_Area e ++ [L]) e) in *.
    assert (Forall2 (ext L) events (<[r:=e1]> events)) as Hext1
      by (eapply exts_insert; [done|by apply ext_append]).
    eapply IH; [| | |done].
    + intros i j Hi Hij. eapply Hedge; [done|].
      by apply (exts_edge emap L _ _ i j Hext1).
    + intros j Hj.
      destruct (push_links_from _ _ _ _ _ Hpush Hj)
        as [Hold|(o & link & Ho & Hl & Hm)].
      * apply Hstack. by right.
      * apply (Hedge r j); [apply Hstack; left|].
        exists e, o, link. split; [done|]. split; [|done].
        change (ForEachBranch e1) with (ForEachBranch e) in Hnoexn, Ho.
        rewrite ForEachBranch_spec in Hnoexn, Ho.
        apply yield_until_nested_no_exn in Hnoexn as [Hys _].
        by rewrite Hys in Ho.
    + intros j (e' & He' & Hin').
      destruct (decide (j = r)) as [->|Hne]; [apply Hstack; left|].
      rewrite list_lookup_insert_ne in He' by done. apply Htag. by exists e'.
Qed.

Lemma origin_reach_exts emap L L0 events events' j :
  Forall2 (ext L) events events' →
  origin_reach emap L0 events j → origin_reach emap L0 events' j.
Proof.
  intros Hext (i & e & He & Hl & Hreach).
  destruct (Forall2_lookup_l _ _ _ _ _ Hext He) as (e' & He' & Hs & _).
  exists i, e'. split; [done|]. split.
  - apply shape_fields in Hs as (_ & <- & _). done.
  - eapply rtc_subrel; [|done]. intros x y Hxy.
    by apply (exts_edge emap L events events' x y Hext).
Qed.

Lemma seed_exact emap x events events' :
  seed emap x events = Ok events' →
  (∀ L j, tagged L events j → origin_reach emap L events j) →
  ∀ L j, tagged L events' j → origin_reach emap L events' j.
Proof.
  intros Hseed Hinv L j Hj.
  pose proof Hseed as (e & He & Hs)%seed_sound.
  unfold seed, deref in Hseed. rewrite He in Hseed. cbn [bind] in Hseed.
  destruct (LimitedToArea e) as [A|] eqn:HA; [|subst; by apply Hinv].
  destruct Hs as (Hext & _).
  apply (origin_reach_exts emap A L events events' j Hext).
  destruct (decide (L = A)) as [->|Hne].
  - eapply (dfs_tags_within emap A (origin_reach emap A events));
      [| | |exact Hseed|exact Hj].
    + intros i k (s & es & Hs & Hl & Hreach) Hik.
      exists s, es. split; [done|]. split; [done|]. by eapply rtc_r.
    + intros k ->%list_elem_of_singleton. by exists x, e.
    + apply Hinv.
  - apply Hinv. by eapply exts_tagged_other.
Qed.

(** An edge of the final store is a link of the input table. *)
Lemma edge_links_to EVENTS events i j :
  Forall2 grows (set_Area [] <$> EVENTS) events →
  edge (index_from event_Id 0 EVENTS ∅) events i j →
  links_to EVENTS i j.
Proof.
  intros Hg (e' & o & link & He' & Ho & Hl & Hm).
  destruct (Forall2_lookup_r _ _ _ _ _ Hg He') as (e0 & He0 & Hs & _).
  rewrite list_lookup_fmap in He0.
  destruct (EVENTS !! i) as [e|] eqn:He; [|done]. injection He0 as <-.
  exists e, o, link. split; [done|]. split.
  - rewrite (shape_outcomes e e') by done. done.
  - split; [done|]. by apply index_resolves.
Qed.

(** X12. When the propagation returns, an area id is in the derived list of
    an event only if a chain of [LinkToEvent] references leads to that event
    from an event that declares that area as its origin: with C1, the
    derived list holds exactly the origins that reach the event. *)
Theorem tagged_events_reachable EVENTS events emap j e' A :
  init_events EVENTS = Ok (events, emap) →
  events !! j = Some e' → A ∈ event_Area e' →
  ∃ i e, EVENTS !! i = Some e ∧ LimitedToArea e = Some A ∧
         rtc (links_to EVENTS) i j.
Proof.
  intros Hrun He' HA.
  pose proof (init_events_sound _ _ _ Hrun) as (-> & Hg & _).
  unfold init_events in Hrun.
  apply bind_Ok in Hrun as (events1 & Hrun & [= <-]).
  assert (∀ L k, tagged L events1 k →
                 origin_reach (index_from event_Id 0 EVENTS ∅) L events1 k)
    as Hexact.
  { revert Hrun.
    apply (for_each_invariant
             (fun t => ∀ L k, tagged L t k →
                origin_reach (index_from event_Id 0 EVENTS ∅) L t k)).
    - intros x t t' _ Ht Hseed. by eapply seed_exact.
    - intros L k (e & He & Hin). rewrite list_lookup_fmap in He.
      destruct (EVENTS !! k); [|done]. injection He as <-.
      by apply elem_of_nil in Hin. }
  destruct (Hexact A j) as (i & ei & Hi & Hl & Hreach); [by exists e'|].
  destruct (Forall2_lookup_r _ _ _ _ _ Hg Hi) as (e0 & He0 & Hs & _).
  rewrite list_lookup_fmap in He0.
  destruct (EVENTS !! i) as [e|] eqn:He; [|done]. injection He0 as <-.
  exists i, e. split; [done|]. split.
  - apply shape_fields in Hs as (_ & Hlim & _). simpl in Hlim. congruence.
  - eapply rtc_subrel; [|done]. intros x y. by apply edge_links_to.
Qed.

Lemma tagged_events_reachable_witness :
  ∃ i e, cycle_events !! i = Some e ∧ LimitedToArea e = Some 7%Z ∧
         rtc (links_to cycle_events) i 1.
Proof.
  eapply (tagged_events_reachable cycle_events _ _ 1 _ 7%Z).
  - vm_compute. reflexivity.
  - reflexivity.
  - left.
Defined.

(** ** The order of a derived list *)

Lemma origin_of_grows events events' x :
  Forall2 grows events events' →
  events' !! x ≫= LimitedToArea = events !! x ≫= LimitedToArea.
Proof.
  intros Hg. destruct (events !! x) as [e|] eqn:He.
  - destruct (Forall2_lookup_l _ _ _ _ _ Hg He) as (e' & -> & Hs & _).
    simpl. by apply shape_fields in Hs as (_ & <- & _).
  - apply lookup_ge_None in He. rewrite (Forall2_length _ _ _ Hg) in He.
    apply lookup_ge_None in He. by rewrite He.
Qed.

Lemma seeds_order emap xs events events' P :
  Forall (fun e => event_Area e `sublist_of` P) events →
  for_each (seed emap) xs events = Ok events' →
  Forall (fun e => event_Area e `sublist_of`
                   P ++ omap (fun x => events !! x ≫= LimitedToArea) xs)
         events'.
Proof.
  revert events P. induction xs as [|y xs IH]; intros events P HP Hrun.
  - simpl in *. injection Hrun as <-. by rewrite app_nil_r.
  - cbn [for_each] in Hrun. apply bind_Ok in Hrun as (ev1 & Hseed & Hrun).
    pose proof (seed_grows _ _ _ _ Hseed) as Hg.
    assert (omap (fun x => ev1 !! x ≫= LimitedToArea) xs
            = omap (fun x => events !! x ≫= LimitedToArea) xs) as Hsame.
    { apply list_omap_ext, Forall_Forall2_diag, Forall_true.
      intros x. by apply origin_of_grows. }
    apply seed_sound in Hseed as (e & He & Hs).
    cbn [omap list_omap]. rewrite He. cbn [mbind option_bind].
    destruct (LimitedToArea e) as [A|].
    + destruct Hs as (Hext & _).
      rewrite (cons_middle A), app_assoc, <- Hsame. apply IH; [|done].
      clear -Hext HP. induction Hext as [|e1 e2 l1 l2 He _ IH]; [done|].
      apply Forall_cons in HP as [H1 Hl1]. constructor; [|auto].
      destruct He as [_ [->|[_ ->]]].
      * by apply sublist_inserts_r.
      * by apply sublist_app.
    + subst ev1. by apply IH.
Qed.

Lemma omap_lookup_seq {A B} (f : A → option B) (pre l : list A) :
  omap (fun x => (pre ++ l) !! x ≫= f) (seq (length pre) (length l))
  = omap f l.
Proof.
  revert pre. induction l as [|a l IH]; intros pre; [done|].
  cbn [length seq omap list_omap]. rewrite list_lookup_middle by done.
  cbn [mbind option_bind].
  specialize (IH (pre ++ [a])).
  rewrite length_app, <- app_assoc in IH. cbn [length app] in IH.
  rewrite Nat.add_1_r in IH. by rewrite IH.
Qed.

Lemma seeded_exts emap A events events' L x j :
  Forall2 (ext A) events events' →
  seeded emap events L x j ↔ seeded emap events' L x j.
Proof.
  intros Hext. split; intros (e & He & Hl & Hreach).
  - destruct (Forall2_lookup_l _ _ _ _ _ Hext He) as (e' & He' & Hs & _).
    exists e'. split; [done|]. split.
    + apply shape_fields in Hs as (_ & <- & _). done.
    + eapply rtc_subrel; [|done]. intros a b Hab.
      by apply (exts_edge emap A events events' a b Hext).
  - destruct (Forall2_lookup_r _ _ _ _ _ Hext He) as (e' & He' & Hs & _).
    exists e'. split; [done|]. split.
    + apply shape_fields in Hs as (_ & -> & _). done.
    + eapply rtc_subrel; [|done]. intros a b Hab.
      by apply (exts_edge emap A events events' a b Hext).
Qed.

(** One iteration of [for x in EVENTS] keeps the order. *)
Lemma seed_order emap k t t' :
  seed emap k t = Ok t' → order_inv emap k t → order_inv emap (S k) t'.
Proof.
  intros Hseed (Hclosed & Hroots & Hsound & Horder).
  pose proof (seed_closed _ _ _ _ Hseed Hclosed) as Hclosed'.
  pose proof Hseed as (ek & Hk & Hs)%seed_sound.
  unfold seed, deref in Hseed. rewrite Hk in Hseed. cbn [bind] in Hseed.
  destruct (LimitedToArea ek) as [A|] eqn:HA.
  2:{ subst t'. split; [done|]. split; [|split; [|done]].
      - intros x e L Hx He HL.
        destruct (decide (x = k)) as [->|Hne]; [congruence|].
        apply (Hroots x e L); [lia|done..].
      - intros L j Hj. destruct (Hsound L j Hj) as (x & Hx & Hxj).
        exists x. split; [lia|done]. }
  destruct Hs as (Hext & Htagk & _).
  assert (∀ L x j, seeded emap t L x j ↔ seeded emap t' L x j) as Hsame
    by (intros L x j; by apply (seeded_exts emap A)).
  assert (∀ j, tagged A t' j → tagged A t j ∨ seeded emap t A k j) as Hnew.
  { intros j Hj.
    eapply (dfs_tags_within emap A
              (fun j => tagged A t j ∨ seeded emap t A k j));
      [| | |exact Hseed|exact Hj].
    - intros a b [Ha|(e & He & Hl & Hreach)] Hab.
      + left. destruct (Hclosed A a b Ha Hab) as [?|?%elem_of_nil]; done.
      + right. exists e. split; [done|]. split; [done|]. by eapply rtc_r.
    - intros a ->%list_elem_of_singleton. right. by exists ek.
    - intros a Ha. by left. }
  assert (∀ x2 j, (x2 < k)%nat → seeded emap t A x2 j → tagged A t j)
    as Hcomplete.
  { intros x2 j Hx2 (e2 & He2 & Hl2 & Hreach).
    eapply closed_rtc; [apply Hclosed|done|]. by eapply Hroots. }
  split; [done|]. split; [|split].
  - intros x e' L Hx He' HL.
    destruct (decide (x = k)) as [->|Hne].
    + destruct (Forall2_lookup_r _ _ _ _ _ Hext He') as (e & He & Hsh & _).
      apply shape_fields in Hsh as (_ & Hlim & _).
      assert (L = A) as -> by congruence. done.
    + destruct (Forall2_lookup_r _ _ _ _ _ Hext He') as (e & He & Hsh & _).
      apply shape_fields in Hsh as (_ & Hlim & _).
      eapply exts_tagged; [done|].
      apply (Hroots x e L); [lia|done|congruence].
  - intros L j Hj. destruct (decide (L = A)) as [->|Hne].
    + destruct (Hnew j Hj) as [Hold|Hk'].
      * destruct (Hsound A j Hold) as (x & Hx & Hxj).
        exists x. split; [lia|]. by apply Hsame.
      * exists k. split; [lia|]. by apply Hsame.
    + apply (exts_tagged_other A L _ _ j Hne Hext) in Hj.
      destruct (Hsound L j Hj) as (x & Hx & Hxj).
      exists x. split; [lia|]. by apply Hsame.
  - intros j e' i1 i2 L1 L2 He' H1 H2 Hlt.
    destruct (Forall2_lookup_r _ _ _ _ _ Hext He') as (e & He & _ & Harea).
    assert (∀ x1, (seeded emap t L1 x1 j ∧
                   ∀ x2, seeded emap t L2 x2 j → (x1 < x2)%nat) →
                  seeded emap t' L1 x1 j ∧
                  ∀ x2, seeded emap t' L2 x2 j → (x1 < x2)%nat) as Hmove.
    { intros x1 [Hx1 Hall]. split; [by apply Hsame|].
      intros x2 Hx2. apply Hall. by apply Hsame. }
    destruct Harea as [Heq|[Hnot Heq]]; rewrite Heq in H1, H2.
    + destruct (Horder j e i1 i2 L1 L2 He H1 H2 Hlt) as (x1 & Hx1).
      exists x1. by apply Hmove.
    + destruct (decide (i2 < length (event_Area e))%nat) as [Hin|Hout].
      * rewrite lookup_app_l in H1, H2 by lia.
        destruct (Horder j e i1 i2 L1 L2 He H1 H2 Hlt) as (x1 & Hx1).
        exists x1. by apply Hmove.
      * assert (L2 = A) as ->.
        { rewrite lookup_app_r in H2 by lia.
          apply list_elem_of_lookup_2, list_elem_of_singleton in H2. done. }
        assert (i1 < length (event_Area e))%nat as Hi1.
        { apply lookup_lt_Some in H1, H2. rewrite length_app in H1, H2.
          simpl in H1, H2. lia. }
        rewrite lookup_app_l in H1 by done.
        destruct (Hsound L1 j) as (x1 & Hx1 & Hx1j).
        { exists e. split; [done|]. by eapply list_elem_of_lookup_2. }
        exists x1. apply Hmove. split; [done|]. intros x2 Hx2.
        destruct (decide (x2 < k)%nat) as [Hlow|?]; [|lia].
        exfalso. apply Hnot.
        destruct (Hcomplete x2 j Hlow Hx2) as (e0 & He0 & Hin0). congruence.
Qed.

Lemma seeds_order_inv emap m k t t' :
  for_each (seed emap) (seq k m) t = Ok t' →
  order_inv emap k t → order_inv emap (k + m) t'.
Proof.
  revert k t. induction m as [|m IH]; intros k t Hrun Hinv.
  - injection Hrun as <-. by rewrite Nat.add_0_r.
  - cbn [seq for_each] in Hrun. apply bind_Ok in Hrun as (t1 & Hseed & Hrun).
    replace (k + S m)%nat with (S k + m)%nat by lia.
    apply (IH (S k) t1); [done|]. by eapply seed_order.
Qed.

(** X13. When the propagation returns, every derived list is in the order of
    the table.  It is a subsequence of the origin areas of the events of
    [EVENTS], read from the first event to the last; and where one area
    stands before another one in the list of an event, an event that
    declares the first area and reaches this event comes, in the table,
    before every event that declares the second area and reaches it.  So the
    areas are in the order of their first seeds, as appended, whatever
    their ids. *)
Theorem derived_lists_in_table_order EVENTS events emap :
  init_events EVENTS = Ok (events, emap) →
  Forall (fun e' => event_Area e' `sublist_of` omap LimitedToArea EVENTS)
         events ∧
  ∀ j e' i1 i2 L1 L2,
    events !! j = Some e' →
    event_Area e' !! i1 = Some L1 → event_Area e' !! i2 = Some L2 →
    (i1 < i2)%nat →
    ∃ x1 e1,
      EVENTS !! x1 = Some e1 ∧ LimitedToArea e1 = Some L1 ∧
      rtc (links_to EVENTS) x1 j ∧
      ∀ x2 e2, EVENTS !! x2 = Some e2 → LimitedToArea e2 = Some L2 →
               rtc (links_to EVENTS) x2 j → (x1 < x2)%nat.
Proof.
  intros Hinit. split.
  { unfold init_events in Hinit.
    apply bind_Ok in Hinit as (events1 & Hrun & [= <- _]).
    apply (seeds_order _ _ _ _ []) in Hrun.
    2:{ apply Forall_fmap, Forall_true. intros e. simpl. apply sublist_nil_l. }
    pose proof (omap_lookup_seq LimitedToArea [] (set_Area [] <$> EVENTS))
      as Hseq.
    cbn [app length] in Hseq, Hrun. rewrite Hseq in Hrun.
    replace (omap LimitedToArea (set_Area [] <$> EVENTS))
      with (omap LimitedToArea EVENTS) in Hrun; [done|].
    apply list_omap_ext, Forall2_fmap_r, Forall_Forall2_diag, Forall_true.
    done. }
  pose proof (init_events_sound _ _ _ Hinit) as (-> & Hg & _).
  unfold init_events in Hinit.
  apply bind_Ok in Hinit as (events1 & Hrun & [= <-]).
  apply seeds_order_inv in Hrun as (_ & _ & _ & Horder).
  2:{ split; [|split; [|split]].
      - intros L i j (e & He & Hin). rewrite list_lookup_fmap in He.
        destruct (EVENTS !! i); [|done]. injection He as <-.
        by apply elem_of_nil in Hin.
      - intros x e L Hx. lia.
      - intros L j (e & He & Hin). rewrite list_lookup_fmap in He.
        destruct (EVENTS !! j); [|done]. injection He as <-.
        by apply elem_of_nil in Hin.
      - intros j e i1 i2 L1 L2 He H1. rewrite list_lookup_fmap in He.
        destruct (EVENTS !! j); [|done]. injection He as <-. done. }
  intros j e' i1 i2 L1 L2 He' H1 H2 Hlt.
  destruct (Horder j e' i1 i2 L1 L2 He' H1 H2 Hlt)
    as (x1 & (ex & Hex & Hlx & Hreach) & Hall).
  destruct (Forall2_lookup_r _ _ _ _ _ Hg Hex) as (e0 & He0 & Hs & _).
  rewrite list_lookup_fmap in He0.
  destruct (EVENTS !! x1) as [e1|] eqn:He1; [|done]. injection He0 as <-.
  exists x1, e1. split; [done|]. split.
  { apply shape_fields in Hs as (_ & Hlim & _). simpl in Hlim. congruence. }
  split.
  { eapply rtc_subrel; [|done]. intros a b. by apply edge_links_to. }
  intros x2 e2 He2 Hl2 Hreach2. apply Hall.
  assert ((set_Area [] <$> EVENTS) !! x2 = Some (set_Area [] e2)) as He20
    by by rewrite list_lookup_fmap, He2.
  destruct (Forall2_lookup_l _ _ _ _ _ Hg He20) as (e2' & He2' & Hs2 & _).
  exists e2'. split; [done|]. split.
  { apply shape_fields in Hs2 as (_ & Hlim & _). simpl in Hlim. congruence. }
  eapply rtc_subrel; [|done]. intros a b. by apply links_to_edge.
Qed.

Lemma derived_lists_in_table_order_witness :
  let EVENTS :=
    [ mkEvent 1 None (Some 7%Z) [] [];
      mkEvent 2 None (Some 8%Z)
        [mkBranch (Some (link_outcome 4)) None None None] [];
      mkEvent 3 None (Some 7%Z)
        [mkBranch (Some (link_outcome 4)) None None None] [];
      mkEvent 4 None None [] [] ] in
  ∃ x1 e1,
    EVENTS !! x1 = Some e1 ∧ LimitedToArea e1 = Some 8%Z ∧
    rtc (links_to EVENTS) x1 3 ∧
    ∀ x2 e2, EVENTS !! x2 = Some e2 → LimitedToArea e2 = Some 7%Z →
             rtc (links_to EVENTS) x2 3 → (x1 < x2)%nat.
Proof.
  intros EVENTS.
  assert (∃ events emap, init_events EVENTS = Ok (events, emap) ∧
            events !! 3%nat = Some (mkEvent 4 None None [] [8%Z; 7%Z]))
    as (events & emap & Hrun & He).
  { eexists _, _. split; [vm_compute; reflexivity|reflexivity]. }
  apply (proj2 (derived_lists_in_table_order EVENTS events emap Hrun)
           3%nat _ 0%nat 1%nat 8%Z 7%Z He); [reflexivity|reflexivity|lia].
Defined.

(** ** When the propagation raises *)

Lemma clean_shape emap e e' : shape e = shape e' → clean emap e → clean emap e'.
Proof. intros Hs. unfold clean. by rewrite (shape_outcomes e e'). Qed.

Lemma push_links_Ok emap ys stack :
  (∀ o link, o ∈ ys → LinkToEvent o = Some link → is_Some (emap !! link)) →
  ∃ stack', for_each (push_link emap) ys stack = Ok stack'.
Proof.
  revert stack. induction ys as [|y ys IH]; intros stack Hlinks; simpl;
    [by eexists|].
  unfold push_link at 1. destruct (LinkToEvent y) as [link|] eqn:Hl.
  - destruct (Hlinks y link) as [j Hj]; [left|done|].
    unfold getitem. rewrite Hj. simpl.
    apply IH. intros o l ?. apply Hlinks. by right.
  - simpl. apply IH. intros o l ?. apply Hlinks. by right.
Qed.

Lemma clean_walk emap e stack :
  clean emap e →
  ∃ stack', for_gen (push_link emap) (ForEachBranch e) stack = Ok stack'.
Proof.
  intros [Hn Hlinks]. unfold for_gen.
  rewrite ForEachBranch_spec, (yield_until_nested_clean _ _ Hn). simpl.
  destruct (push_links_Ok emap (outcomes_of e) stack Hlinks) as [st ->].
  by exists st.
Qed.

Lemma good_exts emap L events events' j :
  Forall2 (ext L) events events' → good emap events j → good emap events' j.
Proof.
  intros Hext Hgood k ek' Hreach Hk.
  destruct (Forall2_lookup_r _ _ _ _ _ Hext Hk) as (ek & Hek & Hs & _).
  eapply clean_shape; [done|]. eapply Hgood; [|done].
  eapply rtc_subrel; [|done]. intros x y Hxy.
  by apply (exts_edge emap L events events' x y Hext).
Qed.

Lemma good_step emap events i j :
  good emap events i → edge emap events i j → good emap events j.
Proof. intros Hgood Hij k ek Hjk. apply Hgood. by eapply rtc_l. Qed.

Lemma dfs_no_raise emap L fuel events stack err :
  (∀ j, j ∈ stack → good emap events j) →
  dfs fuel emap L events stack ≠ Raise err.
Proof.
  revert events stack.
  induction fuel as [|fuel IH]; intros events [|r stack] Hgood; simpl;
    try done.
  unfold deref. destruct (events !! r) as [e|] eqn:Hr; [|done]. simpl.
  destruct (bool_decide (L ∈ event_Area e)) eqn:Hin.
  - apply IH. intros j Hj. apply Hgood. by right.
  - apply bool_decide_eq_false in Hin.
    set (e1 := set_Area (event_Area e ++ [L]) e).
    assert (clean emap e) as Hclean
      by (eapply (Hgood r); [left|apply rtc_refl|done]).
    change (ForEachBranch e1) with (ForEachBranch e).
    destruct (clean_walk emap e stack Hclean) as [stack1 Hpush].
    rewrite Hpush. simpl.
    assert (Forall2 (ext L) events (<[r:=e1]> events)) as Hext1
      by (eapply exts_insert; [done|by apply ext_append]).
    apply IH. intros j Hj. apply (good_exts emap L events _ j Hext1).
    apply for_gen_Ok in Hpush as [Hnone Hpush].
    destruct (push_links_from _ _ _ _ _ Hpush Hj)
      as [Hold|(o & link & Ho & Hl & Hm)].
    + apply Hgood. by right.
    + apply (good_step emap events r j); [apply Hgood; left|].
      exists e, o, link. split; [done|]. split; [|done].
      rewrite ForEachBranch_spec in Hnone, Ho.
      apply yield_until_nested_no_exn in Hnone as [Hys _].
      by rewrite Hys in Ho.
Qed.

(** What a traversal that returned says of the events it tagged. *)
Lemma dfs_tagged_clean emap L fuel events stack events' :
  dfs fuel emap L events stack = Ok events' →
  ∀ j e', events' !! j = Some e' → L ∈ event_Area e' →
          tagged L events j ∨ clean emap e'.
Proof.
  revert events stack.
  induction fuel as [|fuel IH]; intros events [|r stack] Hrun;
    simpl in Hrun; try done.
  1,2: injection Hrun as <-; intros j e' He' Hin; left; by exists e'.
  apply bind_Ok in Hrun as (e & He & Hrun).
  unfold deref in He. destruct (events !! r) as [e0|] eqn:Hr; [|done].
  injection He as ->.
  destruct (bool_decide (L ∈ event_Area e)) eqn:Hin; [by eapply IH|].
  apply bool_decide_eq_false in Hin.
  apply bind_Ok in Hrun as (stack1 & Hpush & Hrun).
  set (e1 := set_Area (event_Area e ++ [L]) e) in *.
  intros j e' He' HL.
  destruct (IH _ _ Hrun j e' He' HL) as [(e2 & He2 & Hin2)|Hc]; [|by right].
  destruct (decide (j = r)) as [->|Hne].
  - right.
    pose proof (dfs_sound _ _ _ _ _ _ Hrun) as (Hext & _).
    assert ((<[r:=e1]> events) !! r = Some e1) as Hr1
      by (apply list_lookup_insert_eq; by eapply lookup_lt_Some).
    destruct (Forall2_lookup_l _ _ _ _ _ Hext Hr1) as (e3 & He3 & Hs & _).
    assert (e3 = e') as -> by congruence.
    apply (clean_shape emap e e'); [by rewrite <- Hs|].
    apply for_gen_Ok in Hpush as [Hnone Hpush].
    change (ForEachBranch e1) with (ForEachBranch e) in Hnone, Hpush.
    rewrite ForEachBranch_spec in Hnone, Hpush.
    apply yield_until_nested_no_exn in Hnone as [Hys Hn].
    rewrite Hys in Hpush. split; [done|].
    intros o link Ho Hl.
    destruct (push_links_stack _ _ _ _ Hpush) as (_ & Hlinks & _).
    destruct (Hlinks o link Ho Hl) as (k & Hk & _). eauto.
  - left. rewrite list_lookup_insert_ne in He2 by done. by exists e2.
Qed.

Lemma seed_tagged_clean emap x events events' :
  seed emap x events = Ok events' →
  (∀ L j e, events !! j = Some e → L ∈ event_Area e → clean emap e) →
  ∀ L j e', events' !! j = Some e' → L ∈ event_Area e' → clean emap e'.
Proof.
  intros Hseed Hinv L j e' He' HL.
  pose proof Hseed as (e & He & Hs)%seed_sound.
  unfold seed, deref in Hseed. rewrite He in Hseed. cbn [bind] in Hseed.
  destruct (LimitedToArea e) as [A|]; [|subst; by eapply Hinv].
  destruct Hs as (Hext & _).
  destruct (Forall2_lookup_r _ _ _ _ _ Hext He') as (e0 & He0 & Hs0 & _).
  destruct (decide (L = A)) as [->|Hne].
  - destruct (dfs_tagged_clean _ _ _ _ _ _ Hseed j e' He' HL)
      as [(e2 & He2 & Hin2)|Hc]; [|done].
    assert (e2 = e0) as -> by congruence.
    eapply clean_shape; [done|]. by eapply Hinv.
  - destruct (exts_tagged_other A L events events' j Hne Hext)
      as (e2 & He2 & Hin2); [by exists e'|].
    assert (e2 = e0) as -> by congruence.
    eapply clean_shape; [done|]. by eapply Hinv.
Qed.

Lemma clean_intact EVENTS e :
  clean (index_from event_Id 0 EVENTS ∅) e ↔ intact EVENTS e.
Proof.
  unfold clean, intact. split; intros [Hn Hlinks]; (split; [done|]);
    intros o link Ho Hl; specialize (Hlinks o link Ho Hl).
  - destruct Hlinks as [j (e2 & He2 & Hid)%index_valid].
    exists e2. split; [by eapply list_elem_of_lookup_2|done].
  - apply index_from_is_Some. right. destruct Hlinks as (e2 & ? & ?). eauto.
Qed.

Lemma init_events_reached_intact EVENTS events emap i j ei A ej :
  init_events EVENTS = Ok (events, emap) →
  EVENTS !! i = Some ei → LimitedToArea ei = Some A →
  rtc (links_to EVENTS) i j → EVENTS !! j = Some ej →
  intact EVENTS ej.
Proof.
  intros Hrun Hi HA Hreach Hj.
  pose proof (init_events_sound _ _ _ Hrun) as (-> & Hg & Hc & Hseed & _).
  assert (tagged A events j) as (ej' & Hej' & Hin).
  { eapply (closed_rtc _ A events i j); [done| |by eapply Hseed].
    eapply rtc_subrel; [|done]. intros x y. by apply links_to_edge. }
  apply clean_intact.
  assert ((set_Area [] <$> EVENTS) !! j = Some (set_Area [] ej)) as Hj0
    by by rewrite list_lookup_fmap, Hj.
  destruct (Forall2_lookup_l _ _ _ _ _ Hg Hj0) as (e3 & He3 & Hs & _).
  assert (e3 = ej') as -> by congruence.
  apply (clean_shape _ ej' ej); [by rewrite <- Hs|].
  unfold init_events in Hrun.
  apply bind_Ok in Hrun as (events1 & Hrun & [= <-]).
  cut (∀ L j e, events1 !! j = Some e → L ∈ event_Area e →
                clean (index_from event_Id 0 EVENTS ∅) e).
  { intros Hall. by eapply Hall. }
  revert Hrun.
  apply (for_each_invariant
           (fun t => ∀ L j e, t !! j = Some e → L ∈ event_Area e →
              clean (index_from event_Id 0 EVENTS ∅) e)).
  - intros x t t' _ Ht Hsd. by eapply seed_tagged_clean.
  - intros L0 j0 e0 He0 Hin0. rewrite list_lookup_fmap in He0.
    destruct (EVENTS !! j0); [|done]. injection He0 as <-.
    by apply elem_of_nil in Hin0.
Qed.

Lemma init_events_of_intact EVENTS :
  (∀ i j ei A ej,
     EVENTS !! i = Some ei → LimitedToArea ei = Some A →
     rtc (links_to EVENTS) i j → EVENTS !! j = Some ej →
     intact EVENTS ej) →
  ∃ events emap, init_events EVENTS = Ok (events, emap).
Proof.
  set (emap := index_from event_Id 0 EVENTS ∅).
  intros Hintact.
  destruct (init_events EVENTS) as [[events emap']|err|] eqn:Hrun;
    [by eauto| |by apply init_events_returns in Hrun].
  exfalso. unfold init_events in Hrun. fold emap in Hrun.
  destruct (for_each (seed emap) (seq 0 (length (set_Area [] <$> EVENTS)))
                     (set_Area [] <$> EVENTS))
    as [events1| |] eqn:Hloop; simpl in Hrun; [done| |done].
  injection Hrun as ->.
  assert (∀ xs t, Forall2 grows (set_Area [] <$> EVENTS) t →
                  for_each (seed emap) xs t ≠ Raise err) as Hno.
  2:{ by eapply Hno. }
  clear Hloop. induction xs as [|x xs IH]; intros t Hg; simpl; [done|].
  destruct (seed emap x t) as [t'| |] eqn:Hseed; simpl; [| |done].
  - apply IH. etrans; [done|]. by eapply seed_grows.
  - intros [= ->]. unfold seed, deref in Hseed.
    destruct (t !! x) as [ex|] eqn:Hx; [|done]. cbn [bind] in Hseed.
    destruct (LimitedToArea ex) as [A|] eqn:HA; [|done].
    revert Hseed. apply dfs_no_raise.
    intros j ->%list_elem_of_singleton k ek Hreach Hk.
    destruct (Forall2_lookup_r _ _ _ _ _ Hg Hx) as (ex0 & Hex0 & Hsx & _).
    destruct (Forall2_lookup_r _ _ _ _ _ Hg Hk) as (ek0 & Hek0 & Hsk & _).
    rewrite list_lookup_fmap in Hex0, Hek0.
    destruct (EVENTS !! x) as [exE|] eqn:HxE; [|done].
    destruct (EVENTS !! k) as [ekE|] eqn:HkE; [|done].
    injection Hex0 as <-. injection Hek0 as <-.
    apply (clean_shape emap ekE ek); [done|]. apply clean_intact.
    apply (Hintact x k exE A ekE); [done| | |done].
    + apply shape_fields in Hsx as (_ & Hlim & _). simpl in Hlim. congruence.
    + eapply rtc_subrel; [|done]. intros a b. by apply edge_links_to.
Qed.

(** X14. The propagation returns exactly when every event that a chain of
    [LinkToEvent] references reaches from an event with an origin area is
    intact: none of its outcomes carries branches and each of its links is
    the id of an event. *)
Theorem propagation_returns_iff EVENTS :
  (∃ events emap, init_events EVENTS = Ok (events, emap)) ↔
  (∀ i j ei A ej,
     EVENTS !! i = Some ei → LimitedToArea ei = Some A →
     rtc (links_to EVENTS) i j → EVENTS !! j = Some ej →
     intact EVENTS ej).
Proof.
  split.
  - intros (events & emap & Hrun) i j ei A ej.
    by eapply init_events_reached_intact.
  - apply init_events_of_intact.
Qed.

Lemma propagation_returns_iff_witness :
  intact cycle_events
    (mkEvent 2 None None
       [mkBranch None (Some (link_outcome 1)) None None] []).
Proof.
  apply (proj1 (propagation_returns_iff cycle_events)
           ltac:(eexists _, _; vm_compute; reflexivity)
           0%nat 1%nat
           (mkEvent 1 None (Some 7%Z)
              [mkBranch (Some (link_outcome 2)) None None None] [])
           7%Z).
  - reflexivity.
  - reflexivity.
  - eapply rtc_l; [apply cycle_links_0_1|apply rtc_refl].
  - reflexivity.
Defined.

(** ** InitGlobals returns on tables whose references resolve *)

Lemma for_each_Ok {A S} (I : S → Prop) (body : A → S → res S) ys s :
  (∀ y t, y ∈ ys → I t → ∃ t', body y t = Ok t' ∧ I t') →
  I s → ∃ s', for_each body ys s = Ok s' ∧ I s'.
Proof.
  revert s. induction ys as [|y ys IH]; intros s Hbody Hs; simpl; [by eauto|].
  destruct (Hbody y s) as (t & -> & Ht); [left|done|]. simpl.
  apply IH; [|done]. intros z u ?. apply Hbody. by right.
Qed.

Lemma for_each_bind {A B S} (body : B → S → res S) (f : A → list B) xs s :
  for_each body (xs ≫= f) s
  = for_each (fun x t => for_each body (f x) t) xs s.
Proof.
  revert s. induction xs as [|x xs IH]; intros s; [done|].
  change ((x :: xs) ≫= f) with (f x ++ (xs ≫= f)).
  cbn [for_each]. generalize (f x). intros ys. revert s.
  induction ys as [|y ys IHy]; intros s; simpl; [apply IH|].
  destruct (body y s); simpl; [apply IHy|done..].
Qed.

(** The first pass is a loop over [ports_of]. *)
Lemma static_tiles_ports amap settings_map TILES_DATA st :
  for_each (static_tile amap settings_map) TILES_DATA st
  = for_each (static_port amap settings_map) (ports_of TILES_DATA) st.
Proof.
  unfold ports_of. rewrite for_each_bind. revert st.
  induction TILES_DATA as [|tile tiles IH]; intros st; [done|].
  cbn [for_each]. unfold static_tile at 1.
  destruct (Tiles tile) as [|entry0 rest]; simpl.
  - apply IH.
  - destruct (for_each _ (PortData entry0) st); simpl; [apply IH|done..].
Qed.

Lemma init_groups_value_in EXCHANGES s group :
  (init_groups EXCHANGES).2 !! s = Some group → group ∈ EXCHANGES.
Proof.
  induction EXCHANGES as [|g EXCHANGES IH] using rev_ind.
  - unfold init_groups. simpl. by rewrite lookup_empty.
  - rewrite init_groups_snoc. simpl. rewrite bind_settings_lookup.
    destruct (decide (s ∈ SettingIds g)).
    + intros [= <-]. apply elem_of_app. right. left.
    + intros ?%IH. apply elem_of_app. by left.
Qed.

Lemma init_groups_setting_key EXCHANGES s group :
  group ∈ EXCHANGES → s ∈ SettingIds group →
  is_Some ((init_groups EXCHANGES).2 !! s).
Proof.
  induction EXCHANGES as [|g EXCHANGES IH] using rev_ind;
    [by intros ?%elem_of_nil|].
  rewrite init_groups_snoc. simpl. rewrite bind_settings_lookup.
  intros [Hgroup| ->%list_elem_of_singleton]%elem_of_app Hs.
  - destruct (decide (s ∈ SettingIds g)); [done|by apply IH].
  - by rewrite decide_True.
Qed.

Lemma init_events_tags_origins EVENTS events emap e' A :
  init_events EVENTS = Ok (events, emap) →
  e' ∈ events → A ∈ event_Area e' →
  ∃ e, e ∈ EVENTS ∧ LimitedToArea e = Some A.
Proof.
  unfold init_events. intros (events1 & Hrun & [= <- _])%bind_Ok.
  apply (seeds_order _ _ _ _ []) in Hrun.
  2:{ apply Forall_fmap, Forall_true. intros e. simpl. apply sublist_nil_l. }
  pose proof (omap_lookup_seq LimitedToArea [] (set_Area [] <$> EVENTS))
    as Hseq.
  cbn [app length] in Hseq, Hrun. rewrite Hseq in Hrun.
  intros He' HA. rewrite Forall_forall in Hrun.
  specialize (Hrun e' He').
  apply (elem_of_sublist _ _ A HA) in Hrun.
  apply list_elem_of_omap in Hrun as (e0 & He0 & Hl).
  apply list_elem_of_fmap in He0 as (e & -> & He). eauto.
Qed.

Lemma AddShopInfo_Ok areas group area sa :
  is_Some (areas !! area) → is_Some (sa !! group_Id group) →
  ∃ sa', AddShopInfo areas group area sa = Ok sa'.
Proof.
  intros [a Ha] [value Hv]. unfold AddShopInfo, deref, getitem.
  rewrite Ha. simpl. destruct (bool_decide _); [by eauto|].
  rewrite Hv. simpl. destruct (area_in _ _ _); by eauto.
Qed.

Section Intact.
Variables (AREAS : list Area) (EVENTS : list Event).
Variables (EXCHANGES : list ExchangeGroup) (TILES_DATA : list Tile).
Hypothesis Hintact : tables_intact AREAS EVENTS EXCHANGES TILES_DATA.


Lemma intact_area_key k :
  (∃ a, a ∈ AREAS ∧ area_Id a = k) → is_Some ((index_from area_Id 0 (set_Subsurface None <$> AREAS) ∅) !! k).
Proof.
  intros (a & Ha & Hid). apply index_from_is_Some. right.
  exists (set_Subsurface None a). split; [|done].
  apply list_elem_of_fmap. eauto.
Qed.

Lemma intact_init_areas :
  ∃ areas0, init_areas AREAS = Ok (areas0,
      (index_from area_Id 0 (set_Subsurface None <$> AREAS) ∅)).
Proof.
  destruct Hintact as (Hnames & _).
  pose proof (init_areas_eq AREAS) as Heq. cbv zeta in Heq. rewrite Heq.
  destruct (intact_area_key 100374%Z) as [r1 ->]; [apply Hnames; left|].
  destruct (intact_area_key 101981%Z) as [r2 ->];
    [apply Hnames; right; left|].
  destruct (intact_area_key 102000%Z) as [r3 ->];
    [apply Hnames; do 2 right; left|].
  destruct (intact_area_key 102960%Z) as [r4 ->];
    [apply Hnames; do 3 right; left|].
  by eexists.
Qed.

Lemma intact_group_key (sa : gmap Z (list nat)) s group :
  dom sa = list_to_set (group_Id <$> EXCHANGES) →
  (init_groups EXCHANGES).2 !! s = Some group → is_Some (sa !! group_Id group).
Proof.
  intros Hdom Hs%init_groups_value_in. apply elem_of_dom. rewrite Hdom.
  apply elem_of_list_to_set, list_elem_of_fmap. eauto.
Qed.

Lemma intact_static_port port st :
  port ∈ ports_of TILES_DATA →
  static_inv
      (index_from area_Id 0 (set_Subsurface None <$> AREAS) ∅) st ∧ dom st.2 = list_to_set (group_Id <$> EXCHANGES) →
  ∃ st', static_port
      (index_from area_Id 0 (set_Subsurface None <$> AREAS) ∅) (init_groups EXCHANGES).2 port st = Ok st' ∧
         static_inv (index_from area_Id 0 (set_Subsurface None <$> AREAS) ∅) st' ∧
         dom st'.2 = list_to_set (group_Id <$> EXCHANGES).
Proof.
  intros Hport [Hinv Hdom]. destruct Hintact as (_ & _ & _ & _ & Hports).
  assert (∃ st', static_port
      (index_from area_Id 0 (set_Subsurface None <$> AREAS) ∅) (init_groups EXCHANGES).2 port st = Ok st') as [st' Hrun].
  { destruct st as [areas sa]. destruct Hinv as [Hwf _]. simpl in *.
    unfold static_port, getitem.
    destruct (intact_area_key (port_Area port)) as [area Harea];
      [by apply Hports|].
    rewrite Harea. simpl. destruct (Hwf _ _ Harea) as (a & Ha & _).
    unfold deref. rewrite Ha. simpl.
    destruct ((init_groups EXCHANGES).2 !! port_Setting port) as [group|] eqn:Hs;
      [|by eauto].
    destruct (AddShopInfo_Ok
                (<[area:=set_Subsurface (Some (port_Subsurface port)) a]> areas)
                group area sa) as [sa' ->]; [| |by eauto].
    - rewrite list_lookup_insert_eq by by eapply lookup_lt_Some. eauto.
    - by eapply intact_group_key. }
  exists st'. split; [done|]. split.
  - by destruct (static_port_inv _ _ _ _ _ Hinv Hrun).
  - rewrite <- Hdom. by eapply static_port_dom.
Qed.

Lemma intact_dynamic_event areas events emap event sa :
  areas_wf (index_from area_Id 0 (set_Subsurface None <$> AREAS) ∅) areas →
  init_events EVENTS = Ok (events, emap) → event ∈ events →
  dom sa = list_to_set (group_Id <$> EXCHANGES) →
  ∃ sa', dynamic_event
      (index_from area_Id 0 (set_Subsurface None <$> AREAS) ∅) (init_groups EXCHANGES).2 areas event sa = Ok sa' ∧
         dom sa' = list_to_set (group_Id <$> EXCHANGES).
Proof.
  intros Hwf Hev Hin Hdom.
  destruct Hintact as (_ & Hevents & Horigins & Hswitch & _).
  pose proof (init_events_sound _ _ _ Hev) as (_ & Hg & _).
  apply list_elem_of_lookup_1 in Hin as [i Hi].
  destruct (Forall2_lookup_r _ _ _ _ _ Hg Hi) as (e0 & He0 & Hs & _).
  rewrite list_lookup_fmap in He0.
  destruct (EVENTS !! i) as [e|] eqn:He; [|done]. injection He0 as <-.
  assert (e ∈ EVENTS) as HeE by by eapply list_elem_of_lookup_2.
  assert (outcomes_of event = outcomes_of e) as Hout
    by (symmetry; by apply shape_outcomes).
  destruct (Hevents e HeE) as [Hn _].
  unfold dynamic_event, for_gen.
  rewrite ForEachBranch_spec, Hout, (yield_until_nested_clean _ _ Hn). simpl.
  cut (∃ sa', for_each (dynamic_outcome
      (index_from area_Id 0 (set_Subsurface None <$> AREAS) ∅) (init_groups EXCHANGES).2 areas event)
                       (outcomes_of e) sa = Ok sa' ∧
              dom sa' = list_to_set (group_Id <$> EXCHANGES)).
  { intros (sa' & -> & ?). by exists sa'. }
  apply (for_each_Ok
           (fun t => dom t = list_to_set (group_Id <$> EXCHANGES))); [|done].
  intros o t Ho Ht. unfold dynamic_outcome.
  destruct (SwitchToSetting o) as [s|] eqn:Hs'; [|by eauto].
  destruct (Hswitch e o s HeE Ho Hs') as (group0 & Hg0 & Hs0).
  destruct (init_groups_setting_key _ _ _ Hg0 Hs0) as [group Hgroup].
  unfold getitem. rewrite Hgroup. simpl.
  apply (for_each_Ok
           (fun u => dom u = list_to_set (group_Id <$> EXCHANGES))); [|done].
  intros area_id u Harea Hu. unfold dynamic_area, getitem.
  destruct (init_events_tags_origins _ _ _ event area_id Hev)
    as (eo & Heo & Hlim); [by eapply list_elem_of_lookup_2|done|].
  destruct (intact_area_key area_id) as [area Hk]; [by eapply Horigins|].
  rewrite Hk. simpl. destruct (Hwf _ _ Hk) as (a & Ha & _).
  destruct (AddShopInfo_Ok areas group area u) as [u' Hadd];
    [by eauto|by eapply intact_group_key|].
  exists u'. split; [done|]. rewrite <- Hu. by eapply AddShopInfo_dom.
Qed.

Lemma intact_InitGlobals QUALITIES :
  ∃ g, InitGlobals AREAS QUALITIES EVENTS EXCHANGES TILES_DATA = Ok g.
Proof.
  destruct intact_init_areas as [areas0 Hareas].
  pose proof (init_areas_sound _ _ _ Hareas) as Hwf0.
  destruct (init_events_of_intact EVENTS) as (events & emap & Hevents).
  { intros i j ei A ej _ _ _ Hj. destruct Hintact as (_ & Hev & _).
    apply Hev. by eapply list_elem_of_lookup_2. }
  unfold InitGlobals. rewrite Hareas. cbn [bind].
  destruct (init_qualities QUALITIES) as [qmap bad].
  rewrite Hevents. cbn [bind]. unfold init_shops.
  pose proof (init_groups_empty EXCHANGES) as Hempty.
  pose proof (init_groups_keys EXCHANGES) as Hkeys.
  destruct (init_groups EXCHANGES) as [sa0 sm] eqn:Hgroups.
  simpl in Hempty, Hkeys. cbn [bind].
  rewrite static_tiles_ports.
  destruct (for_each_Ok
              (fun t => static_inv
                  (index_from area_Id 0 (set_Subsurface None <$> AREAS) ∅) t ∧
                        dom t.2 = list_to_set (group_Id <$> EXCHANGES))
              (static_port
                  (index_from area_Id 0 (set_Subsurface None <$> AREAS) ∅) sm) (ports_of TILES_DATA) (areas0, sa0))
    as ([areas1 sa1] & -> & [Hwf1 _] & Hdom1).
  { intros port t Hport Ht.
    pose proof (intact_static_port port t Hport Ht) as Hp.
    by rewrite Hgroups in Hp. }
  { split; [|done]. split; simpl; [done|].
    intros gid value ->%Hempty. split; [apply NoDup_nil_2|].
    by intros r ?%elem_of_nil. }
  cbn [bind]. simpl in Hwf1, Hdom1.
  destruct (for_each_Ok
              (fun t => dom t = list_to_set (group_Id <$> EXCHANGES))
              (dynamic_event
                  (index_from area_Id 0 (set_Subsurface None <$> AREAS) ∅) sm areas1) events sa1)
    as (sa2 & -> & _); [|done|by eexists].
  intros event t Hev Ht.
  pose proof (intact_dynamic_event areas1 events emap event t Hwf1 Hevents
                Hev Ht) as Hd.
  by rewrite Hgroups in Hd.
Qed.
End Intact.

(** X15. [InitGlobals] returns on tables whose references all resolve: the
    four areas whose names are corrected exist, no outcome carries branches,
    every [LinkToEvent] is the id of an event, every origin area and every
    area of a port (of the first entry of a tile) is in the table of areas,
    and every [SwitchToSetting] is listed by a group. *)
Theorem InitGlobals_returns_on_intact_tables
    AREAS QUALITIES EVENTS EXCHANGES TILES_DATA :
  tables_intact AREAS EVENTS EXCHANGES TILES_DATA →
  ∃ g, InitGlobals AREAS QUALITIES EVENTS EXCHANGES TILES_DATA = Ok g.
Proof. intros Hintact. by apply intact_InitGlobals. Qed.


Lemma area_in_table k AREAS :
  existsb (fun a => (area_Id a =? k)%Z) AREAS = true →
  ∃ a, a ∈ AREAS ∧ area_Id a = k.
Proof.
  intros (a & Ha & Hk)%existsb_exists. exists a.
  split; [by apply list_elem_of_In|by apply Z.eqb_eq].
Qed.

Lemma InitGlobals_returns_on_intact_tables_witness :
  ∃ g, InitGlobals fixture_areas [] fixture_events fixture_exchanges
                   fixture_tiles = Ok g.
Proof.
  apply InitGlobals_returns_on_intact_tables.
  split; [|split; [|split; [|split]]].
  - intros k Hk. simpl in Hk.
    repeat (apply elem_of_cons in Hk as [->|Hk];
            [by apply area_in_table|]).
    by apply elem_of_nil in Hk.
  - intros e He. unfold fixture_events in He.
    repeat (apply elem_of_cons in He as [->|He];
            [split;
             [repeat constructor; by intros ?
             |intros o link Ho Hl; cbv in Ho;
              apply list_elem_of_singleton in Ho as ->; done]|]).
    by apply elem_of_nil in He.
  - intros e A He HA. unfold fixture_events in He.
    repeat (apply elem_of_cons in He as [->|He];
            [injection HA as <-; by apply area_in_table|]).
    by apply elem_of_nil in He.
  - intros e o s He Ho Hs. exists (mkExchangeGroup 5 (Some "Market"%string)
                                     [50%Z] []).
    split; [left|]. unfold fixture_events in He.
    repeat (apply elem_of_cons in He as [->|He];
            [cbv in Ho; apply list_elem_of_singleton in Ho as ->;
             injection Hs as <-; left|]).
    by apply elem_of_nil in He.
  - intros port Hport. cbv in Hport.
    repeat (apply elem_of_cons in Hport as [->|Hport];
            [by apply area_in_table|]).
    by apply elem_of_nil in Hport.
Defined.

(** ** The aggregation lists every placement *)

Lemma for_each_reaches {A S} (I Q : S → Prop) (body : A → S → res S)
    ys s s' y :
  y ∈ ys →
  (∀ z t t', z ∈ ys → I t → body z t = Ok t' → I t') →
  (∀ z t t', z ∈ ys → I t → Q t → body z t = Ok t' → Q t') →
  (∀ t t', I t → body y t = Ok t' → Q t') →
  I s → for_each body ys s = Ok s' → Q s'.
Proof.
  intros Hy HI HQ Hest. revert s Hy HI HQ.
  induction ys as [|z ys IH]; intros s Hy HI HQ Hs Hrun;
    [by apply elem_of_nil in Hy|].
  simpl in Hrun. apply bind_Ok in Hrun as (t & Hz & Hrun).
  assert (I t) as Ht by (eapply HI; [left|done..]).
  apply elem_of_cons in Hy as [->|Hy].
  - assert (Q t) as Hq by (apply (Hest s t); [exact Hs|exact Hz]).
    cut (I s' ∧ Q s'); [by intros []|]. revert Hrun.
    apply (for_each_invariant (fun u => I u ∧ Q u)); [|done].
    intros w u u' Hw [Hu Hqu] Hbody. split.
    + eapply HI; [by right|done..].
    + eapply HQ; [by right|done..].
  - eapply IH; [done| | |done|done].
    + intros w u u' ?. apply HI. by right.
    + intros w u u' ?. apply HQ. by right.
Qed.

Lemma AddShopInfo_keeps_listed areas group area sa sa' gid r :
  AddShopInfo areas group area sa = Ok sa' →
  listed sa gid r → listed sa' gid r.
Proof.
  intros (a & _ & [->|(_ & value & Hv & _ & ->)])%AddShopInfo_cases
         (value' & Hv' & Hr); [by exists value'|].
  destruct (decide (gid = group_Id group)) as [->|Hne].
  - exists (value ++ [area]). rewrite lookup_insert_eq. split; [done|].
    apply elem_of_app. left. congruence.
  - exists value'. by rewrite lookup_insert_ne.
Qed.

Lemma area_in_true amap areas sa gid value area a :
  shop_inv amap areas sa → sa !! gid = Some value →
  areas !! area = Some a → amap !! area_Id a = Some area →
  area_in areas area value = true → area ∈ value.
Proof.
  intros Hinv Hv Ha Hrep (r & Hr%list_elem_of_In & Heq)%existsb_exists.
  apply orb_true_iff in Heq as [Heq|Heq]; apply bool_decide_eq_true in Heq.
  - by subst.
  - destruct (Hinv _ _ Hv) as [_ Hmem].
    destruct (Hmem r Hr) as (a' & Ha' & _ & Hrep').
    assert (a' = a) as -> by congruence.
    assert (r = area) as -> by congruence. done.
Qed.

Lemma AddShopInfo_lists amap areas group area a sa sa' :
  shop_inv amap areas sa →
  areas !! area = Some a → amap !! area_Id a = Some area →
  area_Id a ≠ LIMBO →
  AddShopInfo areas group area sa = Ok sa' →
  listed sa' (group_Id group) area.
Proof.
  intros Hinv Ha Hrep Hl. unfold AddShopInfo, deref, getitem.
  rewrite Ha. simpl. rewrite bool_decide_eq_false_2 by done.
  destruct (sa !! group_Id group) as [value|] eqn:Hv; [|done]. simpl.
  destruct (area_in areas area value) eqn:Hin; intros [= <-].
  - exists value. split; [done|]. by eapply area_in_true.
  - exists (value ++ [area]). rewrite lookup_insert_eq. split; [done|].
    apply elem_of_app. right. left.
Qed.

Section Listing.
Variable amap : gmap Z nat.
Variable settings_map : gmap Z ExchangeGroup.

Lemma static_port_keeps_listed port st st' gid r :
  static_inv amap st → static_port amap settings_map port st = Ok st' →
  listed st.2 gid r → listed st'.2 gid r.
Proof.
  destruct st as [areas sa]. intros [Hwf _] Hrun.
  destruct (static_port_sound _ _ _ _ _ _ Hwf Hrun)
    as (area & a & _ & _ & _ & Hsa). simpl.
  destruct (settings_map !! port_Setting port); [|by rewrite Hsa].
  by eapply AddShopInfo_keeps_listed.
Qed.

Lemma static_port_lists port group st st' :
  static_inv amap st → static_port amap settings_map port st = Ok st' →
  settings_map !! port_Setting port = Some group →
  port_Area port ≠ LIMBO →
  ∃ r, amap !! port_Area port = Some r ∧ listed st'.2 (group_Id group) r.
Proof.
  destruct st as [areas sa]. intros [Hwf Hinv] Hrun Hgroup Hl.
  destruct (static_port_sound _ _ _ _ _ _ Hwf Hrun)
    as (area & a & Harea & Ha & Hareas' & Hsa). simpl in *.
  rewrite Hgroup in Hsa. exists area. split; [done|].
  destruct (Hwf _ _ Harea) as (a0 & Ha0 & Hid).
  assert (a0 = a) as -> by congruence.
  assert (same_ids areas st'.1) as Hsame
    by (rewrite Hareas'; by eapply same_ids_insert).
  eapply (AddShopInfo_lists amap st'.1 group area
            (set_Subsurface (Some (port_Subsurface port)) a));
    [by eapply same_ids_shop_inv| | |by simpl; congruence|done].
  - rewrite Hareas'. apply list_lookup_insert_eq. by eapply lookup_lt_Some.
  - simpl. congruence.
Qed.

Lemma static_ports_list ports port group st st' :
  static_inv amap st →
  for_each (static_port amap settings_map) ports st = Ok st' →
  port ∈ ports → settings_map !! port_Setting port = Some group →
  port_Area port ≠ LIMBO →
  ∃ r, amap !! port_Area port = Some r ∧ listed st'.2 (group_Id group) r.
Proof.
  intros Hinv Hrun Hport Hgroup Hl.
  destruct (amap !! port_Area port) as [r|] eqn:Hr.
  - exists r. split; [done|]. revert Hrun.
    apply (for_each_reaches (static_inv amap)
             (fun t => listed t.2 (group_Id group) r) _ _ _ _ port);
      [done| | | |done].
    + intros z t t' _ Ht Hz. by destruct (static_port_inv _ _ _ _ _ Ht Hz).
    + intros z t t' _ Ht Hq Hz. by eapply static_port_keeps_listed.
    + intros t t' Ht Hp.
      destruct (static_port_lists _ _ _ _ Ht Hp Hgroup Hl) as (r' & Hr' & ?).
      by assert (r' = r) as -> by congruence.
  - exfalso.
    destruct (for_each_each _ _ _ _ port Hrun Hport) as (t & t' & Hp).
    unfold static_port, getitem in Hp. destruct t. by rewrite Hr in Hp.
Qed.

Variable areas : list Area.
Hypothesis areas_ok : areas_wf amap areas.

Lemma dynamic_area_lists group area_id sa sa' :
  shop_inv amap areas sa →
  dynamic_area amap areas group area_id sa = Ok sa' →
  area_id ≠ LIMBO →
  ∃ r, amap !! area_id = Some r ∧ listed sa' (group_Id group) r.
Proof.
  intros Hinv Hrun Hl. unfold dynamic_area, getitem in Hrun.
  destruct (amap !! area_id) as [r|] eqn:Hr; [|done]. simpl in Hrun.
  exists r. split; [done|]. destruct (areas_ok _ _ Hr) as (a & Ha & Hid).
  apply (AddShopInfo_lists amap areas group r a sa sa');
    [done|done|congruence|congruence|done].
Qed.

Lemma dynamic_area_keeps_listed group area_id sa sa' gid r :
  dynamic_area amap areas group area_id sa = Ok sa' →
  listed sa gid r → listed sa' gid r.
Proof.
  unfold dynamic_area. intros (area & _ & Hadd)%bind_Ok.
  by eapply AddShopInfo_keeps_listed.
Qed.

Lemma dynamic_outcome_keeps_listed event outcome sa sa' gid r :
  dynamic_outcome amap settings_map areas event outcome sa = Ok sa' →
  listed sa gid r → listed sa' gid r.
Proof.
  unfold dynamic_outcome.
  destruct (SwitchToSetting outcome); [|by intros [= <-]].
  intros (group & _ & Hrun)%bind_Ok Hlisted. revert Hrun.
  apply (for_each_invariant (fun t => listed t gid r)); [|done].
  intros area_id t t' _ Ht Harea. by eapply dynamic_area_keeps_listed.
Qed.

Lemma dynamic_event_keeps_listed event sa sa' gid r :
  dynamic_event amap settings_map areas event sa = Ok sa' →
  listed sa gid r → listed sa' gid r.
Proof.
  intros [_ Hrun]%for_gen_Ok Hlisted. revert Hrun.
  apply (for_each_invariant (fun t => listed t gid r)); [|done].
  intros outcome t t' _ Ht Hout. by eapply dynamic_outcome_keeps_listed.
Qed.

Lemma dynamic_outcome_lists event outcome s group A sa sa' :
  shop_inv amap areas sa →
  dynamic_outcome amap settings_map areas event outcome sa = Ok sa' →
  SwitchToSetting outcome = Some s → settings_map !! s = Some group →
  A ∈ event_Area event → A ≠ LIMBO →
  ∃ r, amap !! A = Some r ∧ listed sa' (group_Id group) r.
Proof.
  intros Hinv Hrun Hs Hgroup HA Hl. unfold dynamic_outcome, getitem in Hrun.
  rewrite Hs, Hgroup in Hrun. simpl in Hrun.
  destruct (amap !! A) as [r|] eqn:Hr.
  - exists r. split; [done|]. revert Hrun.
    apply (for_each_reaches (shop_inv amap areas)
             (fun t => listed t (group_Id group) r) _ _ _ _ A);
      [done| | | |done].
    + intros z t t' _. by apply dynamic_area_inv.
    + intros z t t' _ _ Hq Hz. by eapply dynamic_area_keeps_listed.
    + intros t t' Ht Hz.
      destruct (dynamic_area_lists _ _ _ _ Ht Hz Hl) as (r' & Hr' & ?).
      by assert (r' = r) as -> by congruence.
  - exfalso. destruct (for_each_each _ _ _ _ A Hrun HA) as (t & t' & Hz).
    unfold dynamic_area, getitem in Hz. by rewrite Hr in Hz.
Qed.

Lemma dynamic_events_list events event outcome s group A sa sa' :
  shop_inv amap areas sa →
  for_each (dynamic_event amap settings_map areas) events sa = Ok sa' →
  event ∈ events → outcome ∈ outcomes_of event →
  SwitchToSetting outcome = Some s → settings_map !! s = Some group →
  A ∈ event_Area event → A ≠ LIMBO →
  ∃ r, amap !! A = Some r ∧ listed sa' (group_Id group) r.
Proof.
  intros Hinv Hrun Hev Hout Hs Hgroup HA Hl.
  assert (∀ t t', shop_inv amap areas t →
            dynamic_event amap settings_map areas event t = Ok t' →
            ∃ r, amap !! A = Some r ∧ listed t' (group_Id group) r) as Hone.
  { intros t t' Ht [Hnone Hloop]%for_gen_Ok.
    rewrite ForEachBranch_spec in Hnone, Hloop.
    apply yield_until_nested_no_exn in Hnone as [Hys _]. rewrite Hys in Hloop.
    destruct (for_each_each _ _ _ _ outcome Hloop Hout) as (u & u' & Hz).
    assert (is_Some (amap !! A)) as [r Hr].
    { unfold dynamic_outcome, getitem in Hz. rewrite Hs, Hgroup in Hz.
      simpl in Hz. destruct (for_each_each _ _ _ _ A Hz HA) as (v & v' & Hv).
      unfold dynamic_area, getitem in Hv.
      destruct (amap !! A); [by eauto|done]. }
    exists r. split; [done|]. revert Hloop.
    apply (for_each_reaches (shop_inv amap areas)
             (fun t => listed t (group_Id group) r) _ _ _ _ outcome);
      [done| | | |done].
    - intros z w w' _. by apply dynamic_outcome_inv.
    - intros z w w' _ _ Hq Hw. by eapply dynamic_outcome_keeps_listed.
    - intros w w' Hw Hdo.
      destruct (dynamic_outcome_lists _ _ _ _ _ _ _ Hw Hdo Hs Hgroup HA Hl)
        as (r' & Hr' & ?).
      by assert (r' = r) as -> by congruence. }
  destruct (for_each_each _ _ _ _ event Hrun Hev) as (t0 & t0' & Hev0).
  assert (is_Some (amap !! A)) as [r Hr].
  { apply for_gen_Ok in Hev0 as [Hnone Hloop].
    rewrite ForEachBranch_spec in Hnone, Hloop.
    apply yield_until_nested_no_exn in Hnone as [Hys _]. rewrite Hys in Hloop.
    destruct (for_each_each _ _ _ _ outcome Hloop Hout) as (u & u' & Hz).
    unfold dynamic_outcome, getitem in Hz. rewrite Hs, Hgroup in Hz.
    simpl in Hz. destruct (for_each_each _ _ _ _ A Hz HA) as (v & v' & Hv).
    unfold dynamic_area, getitem in Hv.
    destruct (amap !! A); [by eauto|done]. }
  exists r. split; [done|]. revert Hrun.
  apply (for_each_reaches (shop_inv amap areas)
           (fun t => listed t (group_Id group) r) _ _ _ _ event);
    [done| | | |done].
  - intros z t t' _. by apply dynamic_event_inv.
  - intros z t t' _ _ Hq Hz. by eapply dynamic_event_keeps_listed.
  - intros t t' Ht Hz. destruct (Hone t t' Ht Hz) as (r' & Hr' & ?).
    by assert (r' = r) as -> by congruence.
Qed.
End Listing.

(** X16. When [InitGlobals] returns, the aggregation has missed no placement:
    the list of a group holds the area of every port (of the first entry of a
    tile) whose setting the join map gives to the group, and every area in
    the derived list of every event with an outcome that switches to such a
    setting; the Limbo area excepted. *)
Theorem SHOP_AREAS_complete AREAS QUALITIES EVENTS EXCHANGES TILES_DATA g :
  InitGlobals AREAS QUALITIES EVENTS EXCHANGES TILES_DATA = Ok g →
  (∀ port group,
     port ∈ ports_of TILES_DATA →
     (init_groups EXCHANGES).2 !! port_Setting port = Some group →
     port_Area port ≠ LIMBO →
     ∃ r, AREAS_MAP g !! port_Area port = Some r ∧
          listed (SHOP_AREAS g) (group_Id group) r) ∧
  (∀ event outcome s group A,
     event ∈ g_EVENTS g → outcome ∈ outcomes_of event →
     SwitchToSetting outcome = Some s →
     (init_groups EXCHANGES).2 !! s = Some group →
     A ∈ event_Area event → A ≠ LIMBO →
     ∃ r, AREAS_MAP g !! A = Some r ∧
          listed (SHOP_AREAS g) (group_Id group) r).
Proof.
  intros (areas0 & Hareas & _ & Hshops)%InitGlobals_Ok.
  apply init_areas_sound in Hareas.
  apply init_shops_Ok in Hshops as (sa1 & Hstatic & Hdyn).
  assert (static_inv (AREAS_MAP g) (areas0, (init_groups EXCHANGES).1))
    as Hinv0.
  { split; simpl; [done|]. intros gid value ->%init_groups_empty.
    split; [apply NoDup_nil_2|]. by intros r ?%elem_of_nil. }
  pose proof (static_tiles_inv _ _ _ _ _ Hinv0 Hstatic) as [[Hwf1 Hinv1] _].
  simpl in Hwf1, Hinv1. split.
  - intros port group Hport Hgroup Hl. rewrite static_tiles_ports in Hstatic.
    destruct (static_ports_list _ _ _ _ _ _ _ Hinv0 Hstatic Hport Hgroup Hl)
      as (r & Hr & Hlisted).
    exists r. split; [done|]. simpl in Hlisted. revert Hdyn.
    apply (for_each_invariant
             (fun t => listed t (group_Id group) r)); [|done].
    intros event t t' _ Ht Hev. by eapply dynamic_event_keeps_listed.
  - intros event outcome s group A Hev Hout Hs Hgroup HA Hl.
    by eapply dynamic_events_list.
Qed.

Lemma SHOP_AREAS_complete_witness :
  ∃ g r, InitGlobals fixture_areas [] fixture_events fixture_exchanges
                     fixture_tiles = Ok g ∧
         AREAS_MAP g !! 7%Z = Some r ∧ listed (SHOP_AREAS g) 5 r.
Proof.
  assert (∃ g, InitGlobals fixture_areas [] fixture_events fixture_exchanges
                           fixture_tiles = Ok g) as [g Hg].
  { eexists. vm_compute. reflexivity. }
  destruct (proj1 (SHOP_AREAS_complete _ _ _ _ _ _ Hg) (mkPort 7 true 50)
              (mkExchangeGroup 5 (Some "Market"%string) [50%Z] []))
    as (r & Hr & Hlisted).
  - left.
  - vm_compute. reflexivity.
  - done.
  - by exists g, r.
Defined.

(** ** The subsurface flag of an area *)

Lemma rename_flags amap id name areas areas' :
  rename amap id name areas = Ok areas' →
  Forall (fun a => area_Subsurface a = None) areas →
  Forall (fun a => area_Subsurface a = None) areas'.
Proof.
  unfold rename. intros (r & _ & (a & _ & [= <-])%bind_Ok)%bind_Ok Hall.
  apply Forall_alter; [done|]. by intros [].
Qed.

Lemma init_areas_flags AREAS areas amap :
  init_areas AREAS = Ok (areas, amap) →
  Forall (fun a => area_Subsurface a = None) areas.
Proof.
  unfold init_areas.
  intros (a1 & H1 & (a2 & H2 & (a3 & H3 & (a4 & H4 & [= <- _])%bind_Ok)
          %bind_Ok)%bind_Ok)%bind_Ok.
  eapply rename_flags; [done|]. eapply rename_flags; [done|].
  eapply rename_flags; [done|]. eapply rename_flags; [done|].
  apply Forall_fmap, Forall_true. done.
Qed.

Lemma static_port_flag amap settings_map port st st' r :
  static_port amap settings_map port st = Ok st' →
  (amap !! port_Area port = Some r →
   ∃ a, st'.1 !! r = Some a ∧
        area_Subsurface a = Some (port_Subsurface port)) ∧
  (amap !! port_Area port ≠ Some r → st'.1 !! r = st.1 !! r).
Proof.
  destruct st as [areas sa]. unfold static_port, getitem, deref.
  destruct (amap !! port_Area port) as [area|] eqn:Harea; [|done]. simpl.
  destruct (areas !! area) as [a|] eqn:Ha; [|done]. simpl.
  intros Hrun.
  assert (st'.1 = <[area := set_Subsurface (Some (port_Subsurface port)) a]>
                    areas) as ->.
  { destruct (settings_map !! port_Setting port); [|by injection Hrun as <-].
    by apply bind_Ok in Hrun as (sa' & _ & [= <-]). }
  split.
  - intros [= ->].
    exists (set_Subsurface (Some (port_Subsurface port)) a). split; [|done].
    apply list_lookup_insert_eq. by eapply lookup_lt_Some.
  - intros Hne. apply list_lookup_insert_ne. congruence.
Qed.

Lemma static_ports_untouched amap settings_map ports st st' r :
  for_each (static_port amap settings_map) ports st = Ok st' →
  (∀ p, p ∈ ports → amap !! port_Area p ≠ Some r) →
  st'.1 !! r = st.1 !! r.
Proof.
  revert st. induction ports as [|port ports IH]; intros st Hrun Hno.
  - by injection Hrun as <-.
  - cbn [for_each] in Hrun. apply bind_Ok in Hrun as (t & Hport & Hrun).
    rewrite (IH t Hrun) by (intros p ?; apply Hno; by right).
    apply (static_port_flag _ _ _ _ _ r Hport), Hno. left.
Qed.

Lemma static_ports_last amap settings_map before port after st st' r :
  for_each (static_port amap settings_map) (before ++ port :: after) st
    = Ok st' →
  amap !! port_Area port = Some r →
  (∀ p, p ∈ after → amap !! port_Area p ≠ Some r) →
  ∃ a, st'.1 !! r = Some a ∧ area_Subsurface a = Some (port_Subsurface port).
Proof.
  revert st. induction before as [|p before IH]; intros st Hrun Hr Hno.
  - cbn [app for_each] in Hrun. apply bind_Ok in Hrun as (t & Hport & Hrun).
    rewrite (static_ports_untouched _ _ _ _ _ r Hrun Hno).
    by apply (static_port_flag _ _ _ _ _ r Hport).
  - change ((p :: before) ++ port :: after)
      with (p :: (before ++ port :: after)) in Hrun.
    cbn [for_each] in Hrun. apply bind_Ok in Hrun as (t & _ & Hrun).
    by apply (IH t).
Qed.

(** X17. When [InitGlobals] returns, the [Subsurface] key of an area is
    whatever the last port that refers to this very area says, and [None]
    for an area no port refers to, whatever the key held in the input.  A
    port refers to the area that [AREAS_MAP] gives for its area id, so an
    area shadowed by a later one of the same id keeps [None]. *)
Theorem subsurface_last_port_wins AREAS QUALITIES EVENTS EXCHANGES TILES_DATA
    g r a :
  InitGlobals AREAS QUALITIES EVENTS EXCHANGES TILES_DATA = Ok g →
  g_AREAS g !! r = Some a →
  ((∀ p, p ∈ ports_of TILES_DATA → AREAS_MAP g !! port_Area p ≠ Some r) →
   area_Subsurface a = None) ∧
  (∀ before port after,
     ports_of TILES_DATA = before ++ port :: after →
     AREAS_MAP g !! port_Area port = Some r →
     (∀ p, p ∈ after → AREAS_MAP g !! port_Area p ≠ Some r) →
     area_Subsurface a = Some (port_Subsurface port)).
Proof.
  intros (areas0 & Hareas & _ & Hshops)%InitGlobals_Ok Ha.
  apply init_areas_flags in Hareas.
  apply init_shops_Ok in Hshops as (sa1 & Hstatic & _).
  rewrite static_tiles_ports in Hstatic. split.
  - intros Hno.
    pose proof (static_ports_untouched _ _ _ _ _ r Hstatic Hno) as Heq.
    simpl in Heq. rewrite Ha in Heq.
    by eapply (Forall_lookup_1 _ _ r a Hareas).
  - intros before port after Hports Hr Hno. rewrite Hports in Hstatic.
    destruct (static_ports_last _ _ _ _ _ _ _ r Hstatic Hr Hno)
      as (a' & Ha' & Hflag).
    simpl in Ha'. congruence.
Qed.

Lemma subsurface_last_port_wins_witness :
  ∃ g a, InitGlobals fixture_areas [] fixture_events fixture_exchanges
                     fixture_tiles = Ok g ∧
         g_AREAS g !! 4%nat = Some a ∧ area_Subsurface a = Some false.
Proof.
  assert (∃ g, InitGlobals fixture_areas [] fixture_events fixture_exchanges
                           fixture_tiles = Ok g) as [g Hg].
  { eexists. vm_compute. reflexivity. }
  assert (∃ a, g_AREAS g !! 4%nat = Some a) as [a Ha].
  { revert Hg. vm_compute. intros [= <-]. eexists. reflexivity. }
  exists g, a. split; [done|]. split; [done|].
  apply (proj2 (subsurface_last_port_wins _ _ _ _ _ g 4%nat a Hg Ha)
           [mkPort 7 true 50; mkPort LIMBO false 50] (mkPort 7 false 51) []).
  - reflexivity.
  - revert Hg. vm_compute. by intros [= <-].
  - by intros p ?%elem_of_nil.
Defined.

(** ** The qualities pass *)

Lemma init_qualities_snoc QUALITIES item :
  init_qualities (QUALITIES ++ [item]) =
  (<[quality_Id item := item]> (init_qualities QUALITIES).1,
   if String.prefix "Menaces:" (quality_Name item)
   then <[quality_Id item := quality_Name item]> (init_qualities QUALITIES).2
   else (init_qualities QUALITIES).2).
Proof.
  unfold init_qualities. rewrite fold_left_app. simpl.
  by destruct (fold_left _ QUALITIES _).
Qed.

Lemma InitGlobals_qualities AREAS QUALITIES EVENTS EXCHANGES TILES_DATA g :
  InitGlobals AREAS QUALITIES EVENTS EXCHANGES TILES_DATA = Ok g →
  QUALITIES_MAP g = (init_qualities QUALITIES).1 ∧
  g_BAD_QUALITIES g = (init_qualities QUALITIES).2.
Proof.
  unfold InitGlobals. intros ([areas0 amap] & _ & Hrun)%bind_Ok.
  destruct (init_qualities QUALITIES) as [qmap bad].
  apply bind_Ok in Hrun as ([events emap] & _ & Hrun).
  by apply bind_Ok in Hrun as ([areas sa] & _ & [= <-]).
Qed.

Lemma init_qualities_map QUALITIES k :
  match (init_qualities QUALITIES).1 !! k with
  | Some q =>
      ∃ before after, QUALITIES = before ++ q :: after ∧ quality_Id q = k ∧
                      ∀ y, y ∈ after → quality_Id y ≠ k
  | None => ∀ y, y ∈ QUALITIES → quality_Id y ≠ k
  end.
Proof.
  induction QUALITIES as [|item QUALITIES IH] using rev_ind.
  - simpl. rewrite lookup_empty. by intros y ?%elem_of_nil.
  - rewrite init_qualities_snoc. cbn [fst].
    destruct (decide (quality_Id item = k)) as [<-|Hne].
    + rewrite lookup_insert_eq. exists QUALITIES, []. split; [done|].
      split; [done|]. by intros y ?%elem_of_nil.
    + rewrite lookup_insert_ne by done.
      destruct ((init_qualities QUALITIES).1 !! k) as [q|].
      * destruct IH as (before & after & -> & Hq & Hafter).
        exists before, (after ++ [item]). rewrite <- app_assoc. split; [done|].
        split; [done|].
        intros y [?| ->%list_elem_of_singleton]%elem_of_app; auto.
      * intros y [?| ->%list_elem_of_singleton]%elem_of_app; auto.
Qed.

Lemma init_qualities_bad QUALITIES k :
  match (init_qualities QUALITIES).2 !! k with
  | Some name =>
      (BAD_QUALITIES !! k = Some name ∧
       ∀ y, y ∈ QUALITIES → quality_Id y = k →
            String.prefix "Menaces:" (quality_Name y) = false) ∨
      ∃ before q after,
        QUALITIES = before ++ q :: after ∧ quality_Id q = k ∧
        quality_Name q = name ∧
        String.prefix "Menaces:" (quality_Name q) = true ∧
        ∀ y, y ∈ after → quality_Id y = k →
             String.prefix "Menaces:" (quality_Name y) = false
  | None =>
      BAD_QUALITIES !! k = None ∧
      ∀ y, y ∈ QUALITIES → quality_Id y = k →
           String.prefix "Menaces:" (quality_Name y) = false
  end.
Proof.
  induction QUALITIES as [|item QUALITIES IH] using rev_ind.
  - change (init_qualities []).2 with BAD_QUALITIES.
    destruct (BAD_QUALITIES !! k) as [name|].
    + left. split; [done|]. by intros y ?%elem_of_nil.
    + split; [done|]. by intros y ?%elem_of_nil.
  - rewrite init_qualities_snoc. cbn [snd].
    destruct (String.prefix "Menaces:" (quality_Name item)) eqn:Hmenace.
    + destruct (decide (quality_Id item = k)) as [<-|Hne].
      * rewrite lookup_insert_eq. right. exists QUALITIES, item, [].
        repeat split; try done. by intros y ?%elem_of_nil.
      * rewrite lookup_insert_ne by done.
        destruct ((init_qualities QUALITIES).2 !! k) as [name|].
        -- destruct IH as [[Hbad Hnone]|
                           (before & q & after & -> & Hq & Hn & Hm & Hafter)].
           ++ left. split; [done|].
              intros y [?| ->%list_elem_of_singleton]%elem_of_app ?; auto.
              done.
           ++ right. exists before, q, (after ++ [item]).
              rewrite <- app_assoc. repeat split; try done.
              intros y [?| ->%list_elem_of_singleton]%elem_of_app ?; auto.
              done.
        -- destruct IH as [Hbad Hnone]. split; [done|].
           intros y [?| ->%list_elem_of_singleton]%elem_of_app ?; auto.
           done.
    + destruct ((init_qualities QUALITIES).2 !! k) as [name|].
      * destruct IH as [[Hbad Hnone]|
                        (before & q & after & -> & Hq & Hn & Hm & Hafter)].
        -- left. split; [done|].
           intros y [?| ->%list_elem_of_singleton]%elem_of_app ?; auto.
        -- right. exists before, q, (after ++ [item]).
           rewrite <- app_assoc. repeat split; try done.
           intros y [?| ->%list_elem_of_singleton]%elem_of_app ?; auto.
      * destruct IH as [Hbad Hnone]. split; [done|].
        intros y [?| ->%list_elem_of_singleton]%elem_of_app ?; auto.
Qed.

(** X18. When [InitGlobals] returns, [QUALITIES_MAP] holds, for the id of
    every quality of the table, the last quality of the table with that id,
    and has no other key. *)
Theorem QUALITIES_MAP_last_wins AREAS QUALITIES EVENTS EXCHANGES TILES_DATA
    g :
  InitGlobals AREAS QUALITIES EVENTS EXCHANGES TILES_DATA = Ok g →
  (∀ q, q ∈ QUALITIES →
     ∃ before q' after,
       QUALITIES_MAP g !! quality_Id q = Some q' ∧
       QUALITIES = before ++ q' :: after ∧ quality_Id q' = quality_Id q ∧
       ∀ y, y ∈ after → quality_Id y ≠ quality_Id q) ∧
  (∀ k q', QUALITIES_MAP g !! k = Some q' →
     q' ∈ QUALITIES ∧ quality_Id q' = k).
Proof.
  intros [-> _]%InitGlobals_qualities. split.
  - intros q Hq. pose proof (init_qualities_map QUALITIES (quality_Id q)) as H.
    destruct ((init_qualities QUALITIES).1 !! quality_Id q) as [q'|].
    + destruct H as (before & after & ? & ? & ?). by exists before, q', after.
    + by destruct (H q Hq).
  - intros k q' Hk. pose proof (init_qualities_map QUALITIES k) as H.
    rewrite Hk in H. destruct H as (before & after & -> & ? & _).
    split; [|done]. apply elem_of_app. right. left.
Qed.

Lemma QUALITIES_MAP_last_wins_witness :
  ∃ g q', InitGlobals fixture_areas
            [mkQuality 3 "Iron"; mkQuality 3 "Menaces: Wounds"]
            fixture_events fixture_exchanges fixture_tiles = Ok g ∧
          QUALITIES_MAP g !! 3%Z = Some q' ∧ quality_Id q' = 3%Z.
Proof.
  assert (∃ g, InitGlobals fixture_areas
                 [mkQuality 3 "Iron"; mkQuality 3 "Menaces: Wounds"]
                 fixture_events fixture_exchanges fixture_tiles = Ok g)
    as [g Hg].
  { eexists. vm_compute. reflexivity. }
  destruct (proj1 (QUALITIES_MAP_last_wins _ _ _ _ _ _ Hg)
              (mkQuality 3 "Iron")) as (before & q' & after & Hq' & _ & Hid & _);
    [left|].
  by exists g, q'.
Defined.

(** X19. When [InitGlobals] returns, the keys of [BAD_QUALITIES] are the two
    built-in ids, of Terror and Hunger, and the ids of the qualities whose
    name starts with [Menaces:], and nothing else.  A key holds the name of
    the last such quality with that id, or the built-in name when there is
    none. *)
Theorem BAD_QUALITIES_menaces AREAS QUALITIES EVENTS EXCHANGES TILES_DATA g
    id :
  InitGlobals AREAS QUALITIES EVENTS EXCHANGES TILES_DATA = Ok g →
  (is_Some (g_BAD_QUALITIES g !! id) ↔
     id = 102025%Z ∨ id = 102024%Z ∨
     ∃ q, q ∈ QUALITIES ∧ quality_Id q = id ∧
          String.prefix "Menaces:" (quality_Name q) = true) ∧
  (∀ name, g_BAD_QUALITIES g !! id = Some name →
     (BAD_QUALITIES !! id = Some name ∧
      ∀ y, y ∈ QUALITIES → quality_Id y = id →
           String.prefix "Menaces:" (quality_Name y) = false) ∨
     ∃ before q after,
       QUALITIES = before ++ q :: after ∧ quality_Id q = id ∧
       quality_Name q = name ∧
       String.prefix "Menaces:" (quality_Name q) = true ∧
       ∀ y, y ∈ after → quality_Id y = id →
            String.prefix "Menaces:" (quality_Name y) = false).
Proof.
  intros [_ ->]%InitGlobals_qualities.
  pose proof (init_qualities_bad QUALITIES id) as H.
  assert (is_Some (BAD_QUALITIES !! id) ↔ id = 102025%Z ∨ id = 102024%Z)
    as Hbuiltin.
  { unfold BAD_QUALITIES. rewrite !lookup_insert_is_Some, lookup_empty.
    split.
    - intros [->|[_ [->|[_ []%is_Some_None]]]]; auto.
    - intros [->| ->]; [right; split; [done|by left]|by left]. }
  split.
  - destruct ((init_qualities QUALITIES).2 !! id) as [name|].
    + split; [intros _|by eauto].
      destruct H as [[Hbad _]|(before & q & after & -> & Hq & _ & Hm & _)].
      * assert (is_Some (BAD_QUALITIES !! id)) as Hsome by eauto.
        apply Hbuiltin in Hsome as [?|?]; auto.
      * right. right. exists q. split; [|done]. apply elem_of_app.
        right. left.
    + destruct H as [Hbad Hnone]. split; [by intros []%is_Some_None|].
      intros [Hid|[Hid|(q & Hq & Hid & Hm)]].
      * assert (is_Some (BAD_QUALITIES !! id)) as [? ?]
          by (apply Hbuiltin; auto). congruence.
      * assert (is_Some (BAD_QUALITIES !! id)) as [? ?]
          by (apply Hbuiltin; auto). congruence.
      * rewrite (Hnone q Hq Hid) in Hm. done.
  - intros name Hname. by rewrite Hname in H.
Qed.

Lemma BAD_QUALITIES_menaces_witness :
  ∃ g, InitGlobals fixture_areas
         [mkQuality 3 "Iron"; mkQuality 4 "Menaces: Wounds"]
         fixture_events fixture_exchanges fixture_tiles = Ok g ∧
       is_Some (g_BAD_QUALITIES g !! 4%Z).
Proof.
  assert (∃ g, InitGlobals fixture_areas
                 [mkQuality 3 "Iron"; mkQuality 4 "Menaces: Wounds"]
                 fixture_events fixture_exchanges fixture_tiles = Ok g)
    as [g Hg].
  { eexists. vm_compute. reflexivity. }
  exists g. split; [done|].
  apply (proj1 (BAD_QUALITIES_menaces _ _ _ _ _ g 4%Z Hg)).
  right. right. exists (mkQuality 4 "Menaces: Wounds").
  split; [right; left|done].
Defined.

(** ** The location of a shop group *)

Lemma deref_all_returns {A} (store : list A) rs :
  (∀ r, r ∈ rs → is_Some (store !! r)) →
  ∃ xs, deref_all store rs = Ok xs ∧ length xs = length rs.
Proof.
  induction rs as [|r rs IH]; intros Hrs; [by exists []|].
  destruct (Hrs r) as [a Ha]; [left|].
  destruct IH as (xs & Hxs & Hlen); [intros r' ?; apply Hrs; by right|].
  exists (a :: xs). simpl. unfold deref. rewrite Ha. simpl. rewrite Hxs.
  simpl. by rewrite Hlen.
Qed.

Lemma LocationOfShop_returns areas sa idd abbreviate value :
  sa !! idd = Some value →
  (∀ r, r ∈ value → is_Some (areas !! r)) →
  ∃ location, LocationOfShop areas sa idd abbreviate = Ok location.
Proof.
  intros Hv Hrefs. unfold LocationOfShop, getitem. rewrite Hv. simpl.
  destruct value as [|r [|r' value]]; [by eauto| |].
  - destruct (Hrefs r) as [a Ha]; [left|]. unfold deref. rewrite Ha.
    simpl. eauto.
  - destruct abbreviate; [by eauto|].
    destruct (deref_all_returns areas (r :: r' :: value) Hrefs)
      as (xs & -> & _).
    simpl. eauto.
Qed.

Lemma ShopSortKey_cases areas sa group count location :
  ShopSortKey areas sa group = Ok (count, location) →
  ∃ value, sa !! group_Id group = Some value ∧
    ((value = [] ∧ count = 3%nat ∧
      location = "Not available in-game"%string) ∨
     (∃ r x, value = [r] ∧ areas !! r = Some x ∧ count = 1%nat ∧
             location = wiki_link x) ∨
     ((2 ≤ length value)%nat ∧ count = 2%nat ∧
      location = "Various"%string)).
Proof.
  unfold ShopSortKey, LocationOfShop, getitem.
  destruct (sa !! group_Id group) as [value|]; [|done]. simpl.
  intros Hrun. exists value. split; [done|].
  destruct value as [|r [|r' value]].
  - left. by injection Hrun as <- <-.
  - right. left. unfold deref in Hrun.
    destruct (areas !! r) as [x|] eqn:Hx; [|done].
    injection Hrun as <- <-. by exists r, x.
  - right. right. injection Hrun as <- <-. simpl. split; [lia|done].
Qed.

(** What [InitGlobals] leaves for the page functions: a list for every
    group, of references into the area store. *)
Lemma InitGlobals_shops AREAS QUALITIES EVENTS EXCHANGES TILES_DATA g :
  InitGlobals AREAS QUALITIES EVENTS EXCHANGES TILES_DATA = Ok g →
  shop_inv (AREAS_MAP g) (g_AREAS g) (SHOP_AREAS g) ∧
  ∀ group, group ∈ EXCHANGES → is_Some (SHOP_AREAS g !! group_Id group).
Proof.
  intros (areas0 & Hareas & _ & Hshops)%InitGlobals_Ok.
  apply init_areas_sound in Hareas.
  destruct (init_shops_sound _ _ _ _ _ _ _ Hareas Hshops) as (_ & Hinv & _).
  split; [done|].
  apply init_shops_Ok in Hshops as (sa1 & Hstatic & Hdyn).
  assert (static_inv (AREAS_MAP g) (areas0, (init_groups EXCHANGES).1))
    as Hinv0.
  { split; simpl; [done|]. intros gid value ->%init_groups_empty.
    split; [apply NoDup_nil_2|]. by intros r ?%elem_of_nil. }
  pose proof (static_tiles_dom _ _ _ _ _ Hinv0 Hstatic) as Hd.
  simpl in Hd. intros group Hgroup. apply elem_of_dom.
  rewrite (dynamic_events_dom _ _ _ _ _ _ Hdyn), Hd, init_groups_keys.
  apply elem_of_list_to_set, list_elem_of_fmap. eauto.
Qed.

(** X20. After [InitGlobals] has returned, the page functions can ask for
    the location of every group of [EXCHANGES]: [ShopSortKey] returns, and
    [LocationOfShop] returns in its abbreviated and in its full form; no
    lookup fails. *)
Theorem shop_location_returns AREAS QUALITIES EVENTS EXCHANGES TILES_DATA g
    group :
  InitGlobals AREAS QUALITIES EVENTS EXCHANGES TILES_DATA = Ok g →
  group ∈ EXCHANGES →
  (∃ key, ShopSortKey (g_AREAS g) (SHOP_AREAS g) group = Ok key) ∧
  ∀ abbreviate,
    ∃ location,
      LocationOfShop (g_AREAS g) (SHOP_AREAS g) (group_Id group) abbreviate
      = Ok location.
Proof.
  intros [Hinv Hkeys]%InitGlobals_shops Hgroup.
  destruct (Hkeys group Hgroup) as [value Hv].
  assert (∀ r, r ∈ value → is_Some (g_AREAS g !! r)) as Hrefs.
  { intros r Hr. destruct (Hinv _ _ Hv) as [_ Hmem].
    destruct (Hmem r Hr) as (a & Ha & _). eauto. }
  split; [|intros abbreviate; by eapply LocationOfShop_returns].
  destruct (LocationOfShop_returns _ _ _ true _ Hv Hrefs) as [location Hloc].
  unfold ShopSortKey, getitem. rewrite Hv. simpl. rewrite Hloc. simpl. eauto.
Qed.

Lemma shop_location_returns_witness :
  ∃ g key, InitGlobals fixture_areas [] fixture_events fixture_exchanges
                       fixture_tiles = Ok g ∧
           ShopSortKey (g_AREAS g) (SHOP_AREAS g)
             (mkExchangeGroup 5 (Some "Market"%string) [50%Z] []) = Ok key.
Proof.
  assert (∃ g, InitGlobals fixture_areas [] fixture_events fixture_exchanges
                           fixture_tiles = Ok g) as [g Hg].
  { eexists. vm_compute. reflexivity. }
  destruct (proj1 (shop_location_returns _ _ _ _ _ g
                     (mkExchangeGroup 5 (Some "Market"%string) [50%Z] [])
                     Hg ltac:(left))) as [key Hkey].
  by exists g, key.
Defined.

(** X21. The heading of a group determines its sort key: two groups for which
    [ShopSortKey] returns have the same key as soon as they have the same
    location text, so that sorting by the key leaves the groups of one
    heading next to each other.  A bracketed area name is never taken for
    one of the two fixed texts. *)
Theorem location_determines_sort_key areas sa group1 group2 key1 key2 :
  ShopSortKey areas sa group1 = Ok key1 →
  ShopSortKey areas sa group2 = Ok key2 →
  key1.2 = key2.2 → key1 = key2.
Proof.
  destruct key1 as [c1 l1], key2 as [c2 l2]. simpl.
  intros (v1 & _ & H1)%ShopSortKey_cases (v2 & _ & H2)%ShopSortKey_cases Hl.
  subst l2. f_equal.
  destruct H1 as [(_ & -> & Hl1)|[(r1 & x1 & _ & _ & -> & Hl1)|(_ & -> & Hl1)]];
  destruct H2 as [(_ & -> & Hl2)|[(r2 & x2 & _ & _ & -> & Hl2)|(_ & -> & Hl2)]];
    try done; subst l1; unfold wiki_link in *; simpl in *; discriminate.
Qed.

Lemma location_determines_sort_key_witness :
  let areas := [mkArea 7 (Some "Port Seven"%string) None] in
  let sa : gmap Z (list nat) := <[1%Z := [0%nat]]> (<[2%Z := [0%nat]]> ∅) in
  let group1 := mkExchangeGroup 1 None [] [] in
  let group2 := mkExchangeGroup 2 None [] [] in
  ∃ key1 key2,
    ShopSortKey areas sa group1 = Ok key1 ∧
    ShopSortKey areas sa group2 = Ok key2 ∧ key1 = key2.
Proof.
  intros areas sa group1 group2.
  exists (1%nat, "[[Port Seven]]"%string), (1%nat, "[[Port Seven]]"%string).
  split; [vm_compute; reflexivity|]. split; [vm_compute; reflexivity|].
  apply (location_determines_sort_key areas sa group1 group2);
    vm_compute; reflexivity.
Defined.

(** ** The full location text does not depend on the order of the list *)

Lemma ascii_compare_spec x y :
  CompareSpec (x = y) (N_of_ascii x < N_of_ascii y)%N
              (N_of_ascii y < N_of_ascii x)%N (Ascii.compare x y).
Proof.
  unfold Ascii.compare.
  destruct (N.compare_spec (N_of_ascii x) (N_of_ascii y)) as [Heq| |];
    constructor; [|done..].
  by rewrite <- (ascii_N_embedding x), Heq, ascii_N_embedding.
Qed.

Lemma string_compare_trans a b c :
  String.compare a b ≠ Gt → String.compare b c ≠ Gt →
  String.compare a c ≠ Gt.
Proof.
  revert b c. induction a as [|x a IH]; intros [|y b] [|z c]; simpl;
    try done.
  destruct (ascii_compare_spec x y) as [->|Hxy|Hxy]; [| |done].
  - destruct (ascii_compare_spec y z) as [->|Hyz|Hyz]; [|done..].
    apply IH.
  - intros _.
    destruct (ascii_compare_spec y z) as [->|Hyz|Hyz]; [| |done]; intros _.
    + destruct (ascii_compare_spec x z) as [->|?|?]; [lia|done|lia].
    + destruct (ascii_compare_spec x z) as [->|?|?]; [lia|done|lia].
Qed.

Lemma string_leb_trans a b c :
  String.leb a b = true → String.leb b c = true → String.leb a c = true.
Proof.
  unfold String.leb. intros Hab Hbc.
  pose proof (string_compare_trans a b c) as H.
  destruct (String.compare a b), (String.compare b c),
    (String.compare a c); try done; by destruct H.
Qed.

Lemma insort_Permutation s l : insort s l ≡ₚ s :: l.
Proof.
  induction l as [|t l IH]; simpl; [done|].
  destruct (String.leb s t); [done|]. rewrite IH. apply perm_swap.
Qed.

Lemma sorted_Permutation l : sorted l ≡ₚ l.
Proof.
  induction l as [|s l IH]; simpl; [done|].
  by rewrite insort_Permutation, IH.
Qed.

Lemma insort_ordered s l : ordered l → ordered (insort s l).
Proof.
  induction l as [|t l IH]; simpl; [done|]. intros [Ht Hl].
  destruct (String.leb s t) eqn:Hst; simpl.
  - split; [|done]. constructor; [done|].
    eapply Forall_impl; [done|]. intros u. by apply string_leb_trans.
  - split; [|by apply IH].
    rewrite insort_Permutation.
    constructor; [|done]. destruct (String.leb_total s t); congruence.
Qed.

Lemma sorted_ordered l : ordered (sorted l).
Proof.
  induction l as [|s l IH]; simpl; [done|by apply insort_ordered].
Qed.

Lemma ordered_unique l1 l2 : ordered l1 → ordered l2 → l1 ≡ₚ l2 → l1 = l2.
Proof.
  revert l2. induction l1 as [|s l1 IH]; intros l2 H1 H2 Hp.
  - by apply Permutation_nil_l in Hp.
  - destruct l2 as [|t l2]; [by apply Permutation_nil_r in Hp|].
    destruct H1 as [Hs Hl1], H2 as [Ht Hl2].
    assert (s = t) as ->.
    { apply String.leb_antisym.
      - assert (t ∈ s :: l1) as [->|Hin]%elem_of_cons
          by (rewrite Hp; left).
        + destruct (String.leb_total s s); done.
        + by eapply Forall_forall in Hs.
      - assert (s ∈ t :: l2) as [->|Hin]%elem_of_cons
          by (rewrite <- Hp; left).
        + destruct (String.leb_total t t); done.
        + by eapply Forall_forall in Ht. }
    f_equal. apply IH; [done..|]. by apply (inj (cons t)).
Qed.

Lemma sorted_order_free l1 l2 : l1 ≡ₚ l2 → sorted l1 = sorted l2.
Proof.
  intros Hp. apply ordered_unique; [apply sorted_ordered..|].
  by rewrite !sorted_Permutation.
Qed.

Lemma deref_all_no_raise {A} (store : list A) rs e :
  deref_all store rs ≠ Raise e.
Proof.
  induction rs as [|r rs IH]; [done|]. simpl. unfold deref.
  destruct (store !! r); [|done]. simpl.
  by destruct (deref_all store rs).
Qed.

Lemma deref_all_order_free {A} (store : list A) rs rs' :
  rs ≡ₚ rs' →
  match deref_all store rs, deref_all store rs' with
  | Ok xs, Ok xs' => xs ≡ₚ xs'
  | NoResult, NoResult => True
  | _, _ => False
  end.
Proof.
  induction 1 as [|r rs rs' _ IH|r r' rs|rs rs' rs'' _ IH _ IH'].
  - simpl. reflexivity.
  - simpl. unfold deref. destruct (store !! r); [|done]. simpl.
    destruct (deref_all store rs), (deref_all store rs'); simpl; try done.
    by constructor.
  - simpl. unfold deref.
    destruct (store !! r), (store !! r'); simpl; try done.
    pose proof (deref_all_no_raise store rs) as Hno.
    destruct (deref_all store rs) as [xs|e|]; simpl;
      [apply perm_swap|by destruct (Hno e)|done].
  - destruct (deref_all store rs), (deref_all store rs'),
      (deref_all store rs''); try done. by etrans.
Qed.

(** X22. The full location text of a group does not depend on the order in
    which its areas were collected: [LocationOfShop] without abbreviation
    answers the same for two lists that hold the same references in
    whatever order. *)
Theorem full_location_order_free areas sa sa' idd value value' :
  sa !! idd = Some value → sa' !! idd = Some value' → value ≡ₚ value' →
  LocationOfShop areas sa idd false = LocationOfShop areas sa' idd false.
Proof.
  intros Hv Hv' Hp. unfold LocationOfShop, getitem. rewrite Hv, Hv'. simpl.
  destruct value as [|r [|r2 value]].
  - apply Permutation_nil_l in Hp. by subst value'.
  - apply Permutation_singleton_l in Hp. by subst value'.
  - destruct value' as [|r' [|r2' value']];
      [by apply Permutation_nil_r in Hp
      |by apply Permutation_singleton_r in Hp|].
    pose proof (deref_all_order_free areas _ _ Hp) as Hxs.
    destruct (deref_all areas (r :: r2 :: value)) as [xs| |],
      (deref_all areas (r' :: r2' :: value')) as [xs'| |]; try done.
    simpl. by rewrite (sorted_order_free (wiki_link <$> xs)
                         (wiki_link <$> xs')) by by rewrite Hxs.
Qed.

Lemma full_location_order_free_witness :
  let areas := [mkArea 7 (Some "Port Seven"%string) None;
                mkArea 8 (Some "Khan's Heart"%string) None] in
  LocationOfShop areas {[1%Z := [0; 1]%nat]} 1 false
  = LocationOfShop areas {[1%Z := [1; 0]%nat]} 1 false.
Proof.
  intros areas.
  apply (full_location_order_free areas _ _ 1%Z [0; 1]%nat [1; 0]%nat).
  - reflexivity.
  - reflexivity.
  - apply perm_swap.
Defined.

(** ** The names of the key constants *)

Lemma lower_upper_char c :
  isupper c = false → lower_char (upper_char c) = c.
Proof. by destruct c as [[] [] [] [] [] [] [] []]; vm_compute. Qed.

Lemma upper_char_underscore c :
  isupper c = false → upper_char c = "_"%char → c = "_"%char.
Proof. by destruct c as [[] [] [] [] [] [] [] []]; vm_compute. Qed.

Lemma isupper_underscore c : isupper c = true → Ascii.eqb c "_" = false.
Proof. by destruct c as [[] [] [] [] [] [] [] []]; vm_compute. Qed.

Lemma isalpha_underscore c : isalpha c = true → c ≠ "_"%char.
Proof. by destruct c as [[] [] [] [] [] [] [] []]; vm_compute. Qed.

Lemma snake_pieces_inj s1 s2 :
  letters s1 = true → letters s2 = true →
  snake_pieces s1 = snake_pieces s2 → s1 = s2.
Proof.
  revert s2. induction s1 as [|x s1 IH]; intros [|y s2]; simpl.
  - done.
  - by destruct (isupper y).
  - by destruct (isupper x).
  - intros [Hx H1]%andb_true_iff [Hy H2]%andb_true_iff.
    apply isalpha_underscore in Hx, Hy.
    destruct (isupper x) eqn:Ux, (isupper y) eqn:Uy.
    + intros [= -> Heq]. f_equal. by apply IH.
    + intros [= Hu _]. symmetry in Hu.
      by apply upper_char_underscore in Hu.
    + intros [= Hu _]. by apply upper_char_underscore in Hu.
    + intros [= Hu Heq].
      rewrite <- (lower_upper_char x), <- (lower_upper_char y), Hu by done.
      f_equal. by apply IH.
Qed.

Lemma SnakeCase_capitalised x s :
  isupper x = true → SnakeCase (String x s) = String x (snake_pieces s).
Proof.
  intros Ux. unfold SnakeCase. simpl. rewrite Ux. simpl.
  by rewrite (isupper_underscore x Ux).
Qed.

(** Every key of the program has the form the theorem below asks for. *)
Lemma KEYS_capitalised : forallb capitalised KEYS = true.
Proof. reflexivity. Qed.

(** X23. [SnakeCase] gives different constant names to different keys: two
    different names made of ASCII letters only that start with a capital
    one, which is the form of every key in [KEYS], have different results,
    so the loop over the keys defines no constant twice. *)
Theorem SnakeCase_distinct s1 s2 :
  capitalised s1 = true → capitalised s2 = true → s1 ≠ s2 →
  SnakeCase s1 ≠ SnakeCase s2.
Proof.
  destruct s1 as [|x s1], s2 as [|y s2]; try done.
  unfold capitalised. cbn [letters].
  intros [Ux [_ H1]%andb_true_iff]%andb_true_iff
         [Uy [_ H2]%andb_true_iff]%andb_true_iff Hne.
  rewrite !SnakeCase_capitalised by done. intros [= -> Heq].
  apply Hne. f_equal. by apply snake_pieces_inj.
Qed.

Lemma SnakeCase_distinct_witness :
  SnakeCase "SuccessEvent" = "SUCCESS_EVENT"%string ∧
  SnakeCase "SuccessEvent" ≠ SnakeCase "RareSuccessEvent".
Proof.
  split; [reflexivity|].
  apply SnakeCase_distinct; [reflexivity|reflexivity|discriminate].
Defined.

(** ** Looking up an area by its corrected name *)

Lemma InitGlobals_corrected_area
    AREAS QUALITIES EVENTS EXCHANGES TILES_DATA g k name :
  InitGlobals AREAS QUALITIES EVENTS EXCHANGES TILES_DATA = Ok g →
  (k, name) ∈ NAME_CORRECTIONS →
  ∃ a, a ∈ g_AREAS g ∧ area_Name a = Some name.
Proof.
  intros Hrun. pose proof (InitGlobals_sound _ _ _ _ _ _ Hrun) as [Hwf _].
  apply InitGlobals_areas in Hrun. cbv zeta in Hrun.
  destruct Hrun as (Hmap & r1 & r2 & r3 & r4 & H1 & H2 & H3 & H4 & Hkeep).
  destruct (Hwf _ _ H1) as (b1 & Hb1 & Hi1).
  destruct (Hwf _ _ H2) as (b2 & Hb2 & Hi2).
  destruct (Hwf _ _ H3) as (b3 & Hb3 & Hi3).
  destruct (Hwf _ _ H4) as (b4 & Hb4 & Hi4).
  assert (r2 ≠ r1) as N21 by (intros ->; congruence).
  assert (r3 ≠ r1) as N31 by (intros ->; congruence).
  assert (r4 ≠ r1) as N41 by (intros ->; congruence).
  assert (r3 ≠ r2) as N32 by (intros ->; congruence).
  assert (r4 ≠ r2) as N42 by (intros ->; congruence).
  assert (r4 ≠ r3) as N43 by (intros ->; congruence).
  destruct (Forall2_lookup_r _ _ _ _ _ Hkeep Hb1) as (c1 & Hc1 & _ & Hn1).
  destruct (Forall2_lookup_r _ _ _ _ _ Hkeep Hb2) as (c2 & Hc2 & _ & Hn2).
  destruct (Forall2_lookup_r _ _ _ _ _ Hkeep Hb3) as (c3 & Hc3 & _ & Hn3).
  destruct (Forall2_lookup_r _ _ _ _ _ Hkeep Hb4) as (c4 & Hc4 & _ & Hn4).
  rewrite !list_lookup_alter_ne, list_lookup_alter_eq in Hc1 by done.
  rewrite !list_lookup_alter_ne, list_lookup_alter_eq in Hc2 by done.
  rewrite list_lookup_alter_ne, list_lookup_alter_eq in Hc3 by done.
  rewrite list_lookup_alter_eq in Hc4.
  apply fmap_Some in Hc1 as (d1 & _ & ->).
  apply fmap_Some in Hc2 as (d2 & _ & ->).
  apply fmap_Some in Hc3 as (d3 & _ & ->).
  apply fmap_Some in Hc4 as (d4 & _ & ->).
  apply list_elem_of_lookup_2 in Hb1, Hb2, Hb3, Hb4.
  intros Hk. unfold NAME_CORRECTIONS in Hk.
  apply elem_of_cons in Hk as [[= -> ->]|Hk]; [by exists b1|].
  apply elem_of_cons in Hk as [[= -> ->]|Hk]; [by exists b2|].
  apply elem_of_cons in Hk as [[= -> ->]|Hk]; [by exists b3|].
  apply elem_of_cons in Hk as [[= -> ->]|Hk]; [by exists b4|].
  by apply elem_of_nil in Hk.
Qed.

Lemma first_with_name {A} `{Entity A} token (lst : list A) x :
  x ∈ lst → display_name x = token →
  ∃ l1 y l2, lst = l1 ++ y :: l2 ∧ display_name y = token ∧
             ∀ z, z ∈ l1 → display_name z ≠ token.
Proof.
  induction lst as [|y lst IH]; intros Hx Hname;
    [by apply elem_of_nil in Hx|].
  destruct (decide (display_name y = token)) as [Hy|Hy].
  - exists [], y, lst. split; [done|]. split; [done|].
    by intros z ?%elem_of_nil.
  - apply elem_of_cons in Hx as [->|Hx]; [done|].
    destruct (IH Hx Hname) as (l1 & w & l2 & -> & Hw & Hl1).
    exists (y :: l1), w, l2. split; [done|]. split; [done|].
    intros z [->|?]%elem_of_cons; auto.
Qed.

(** X24. After [InitGlobals] has returned, a lookup of an area by one of the
    four corrected names succeeds, whatever name the table gave to that
    area: [FuzzyLookupItem] returns an area that bears exactly this name.
    The four names are ASCII strings, and the built-ins are those of
    [ascii_builtins]. *)
Theorem corrected_name_is_found
    AREAS QUALITIES EVENTS EXCHANGES TILES_DATA g k name :
  InitGlobals AREAS QUALITIES EVENTS EXCHANGES TILES_DATA = Ok g →
  (k, name) ∈ NAME_CORRECTIONS →
  ∃ a, FuzzyLookupItem name (g_AREAS g) = Ok a ∧ a ∈ g_AREAS g ∧
       area_Name a = Some name.
Proof.
  intros Hrun Hk.
  destruct (InitGlobals_corrected_area _ _ _ _ _ _ _ _ Hrun Hk)
    as (a & Ha & Hname).
  assert (int name = None ∧ name ≠ ""%string) as [Hint Hne].
  { unfold NAME_CORRECTIONS in Hk.
    repeat (apply elem_of_cons in Hk as [[= -> ->]|Hk]; [done|]).
    by apply elem_of_nil in Hk. }
  destruct (first_with_name name (g_AREAS g) a Ha) as (l1 & y & l2 & Heq & Hy & Hl1).
  { unfold display_name. simpl. by rewrite Hname. }
  exists y. split; [|split].
  - unfold FuzzyLookupItem. rewrite Hint, Heq.
    by apply match_names_exact.
  - rewrite Heq. apply elem_of_app. right. left.
  - unfold display_name in Hy. simpl in Hy.
    destruct (area_Name y) as [n|]; simpl in Hy; congruence.
Qed.

Lemma corrected_name_is_found_witness :
  ∃ g a, InitGlobals fixture_areas [] fixture_events fixture_exchanges
                     fixture_tiles = Ok g ∧
         FuzzyLookupItem "Venderbight" (g_AREAS g) = Ok a ∧
         area_Name a = Some "Venderbight"%string.
Proof.
  assert (∃ g, InitGlobals fixture_areas [] fixture_events fixture_exchanges
                           fixture_tiles = Ok g) as [g Hg].
  { eexists. vm_compute. reflexivity. }
  destruct (corrected_name_is_found _ _ _ _ _ g 100374%Z "Venderbight" Hg)
    as (a & Ha & _ & Hname); [left|].
  by exists g, a.
Defined.
